(** * A model of the connection/room hub and of the TikTok live bridge

    The development follows the repository file by file:

    - [Json]    : the values that travel in envelopes, with the text
                  printer and parser behind [JSON.stringify] and
                  [JSON.parse];
    - [Codec]   : the envelope codec of the websocket adapter;
    - the world : registry, room index, transports, console, the shared
                  emitter, [CurrentLiveMap] and the live connections;
    - the adapter operations, the handlers of [src/index.ts] and the
      functions of [src/platforms/tiktoklive.ts];
    - the properties of the specification, stated over event traces. *)

From Stdlib Require Import ZArith NArith List Ascii String Bool Lia.
From Stdlib Require Import Decimal DecimalString DecimalN DecimalFacts.
From stdpp Require Import base option list gmap strings pretty fin_maps fin_sets.

#[local] Open Scope string_scope.
#[local] Open Scope list_scope.

(** ** JSON values and their text form *)

Module Json.

(** A JavaScript value as far as envelopes carry them.  [JUndefined] is
    a value of the language but not of JSON: [JSON.stringify] prints it
    as [null] inside an array and drops an object property that holds
    it.  Numbers are restricted to integers; strings are byte strings. *)
Unset Elimination Schemes.
Inductive jsval : Type :=
| JUndefined : jsval
| JNull : jsval
| JBool : bool -> jsval
| JNum : Z -> jsval
| JStr : string -> jsval
| JArr : list jsval -> jsval
| JObj : list (string * jsval) -> jsval.
Set Elimination Schemes.

Section Induction.
Variable P : jsval -> Prop.
Hypothesis Hundef : P JUndefined.
Hypothesis Hnull : P JNull.
Hypothesis Hbool : forall b, P (JBool b).
Hypothesis Hnum : forall z, P (JNum z).
Hypothesis Hstr : forall s, P (JStr s).
Hypothesis Harr : forall l, Forall P l -> P (JArr l).
Hypothesis Hobj : forall fs, Forall (fun kv => P (snd kv)) fs -> P (JObj fs).

Fixpoint jsval_ind (v : jsval) : P v :=
  match v with
  | JUndefined => Hundef
  | JNull => Hnull
  | JBool b => Hbool b
  | JNum z => Hnum z
  | JStr s => Hstr s
  | JArr l =>
      Harr l ((fix go (l : list jsval) : Forall P l :=
                 match l return Forall P l with
                 | [] => @List.Forall_nil _ P
                 | x :: l' => @List.Forall_cons _ P x l' (jsval_ind x) (go l')
                 end) l)
  | JObj fs =>
      Hobj fs ((fix go (fs : list (string * jsval))
                  : Forall (fun kv => P (snd kv)) fs :=
                  match fs return Forall (fun kv => P (snd kv)) fs with
                  | [] => @List.Forall_nil _ _
                  | kv :: fs' =>
                      @List.Forall_cons _ (fun kv => P (snd kv)) kv fs' (jsval_ind (snd kv)) (go fs')
                  end) fs)
  end.
End Induction.

Definition is_undefined (v : jsval) : bool :=
  match v with JUndefined => true | _ => false end.

(** Own-property lookup, as used by destructuring and by [o.k]. *)
Fixpoint assoc (k : string) (fs : list (string * jsval)) : option jsval :=
  match fs with
  | [] => None
  | (k', v) :: fs' => if String.eqb k k' then Some v else assoc k fs'
  end.

Definition get_prop (v : jsval) (k : string) : jsval :=
  match v with
  | JObj fs => default JUndefined (assoc k fs)
  | _ => JUndefined
  end.

(** Assignment [o[k] = v]: an existing property keeps its place. *)
Fixpoint obj_set (k : string) (v : jsval) (fs : list (string * jsval))
  : list (string * jsval) :=
  match fs with
  | [] => [(k, v)]
  | (k', v') :: fs' =>
      if String.eqb k k' then (k, v) :: fs' else (k', v') :: obj_set k v fs'
  end.

Definition obj_of_members (ms : list (string * jsval)) : list (string * jsval) :=
  fold_left (fun acc kv => obj_set (fst kv) (snd kv) acc) ms [].

(** *** Printing *)

Definition hex_digit (n : N) : ascii :=
  ascii_of_N (if (n <? 10)%N then 48 + n else 87 + n).

(** One character of a string literal, in front of [k]. *)
Definition escape_char (c : ascii) (k : string) : string :=
  let n := N_of_ascii c in
  if (n =? 34)%N then String "\" (String "034"%char k)
  else if (n =? 92)%N then String "\" (String "\" k)
  else if (n =? 8)%N then String "\" (String "b" k)
  else if (n =? 9)%N then String "\" (String "t" k)
  else if (n =? 10)%N then String "\" (String "n" k)
  else if (n =? 12)%N then String "\" (String "f" k)
  else if (n =? 13)%N then String "\" (String "r" k)
  else if (n <? 32)%N then
    String "\" (String "u" (String "0" (String "0"
      (String (hex_digit (n / 16)) (String (hex_digit (n mod 16)) k)))))
  else String c k.

Fixpoint escape_to (s : string) (k : string) : string :=
  match s with
  | EmptyString => k
  | String c s' => escape_char c (escape_to s' k)
  end.

Definition quote_to (s : string) (k : string) : string :=
  String "034"%char (escape_to s (String "034"%char k)).

Definition print_Z (z : Z) (k : string) : string :=
  match z with
  | Zneg p => String "-" (NilEmpty.string_of_uint (N.to_uint (Npos p)) +:+ k)
  | _ => NilEmpty.string_of_uint (N.to_uint (Z.to_N z)) +:+ k
  end.

(** [print_to v k] is the text of [v] followed by [k]. *)
Fixpoint print_to (v : jsval) (k : string) : string :=
  match v with
  | JUndefined => "null" +:+ k
  | JNull => "null" +:+ k
  | JBool true => "true" +:+ k
  | JBool false => "false" +:+ k
  | JNum z => print_Z z k
  | JStr s => quote_to s k
  | JArr l =>
      String "["
        ((fix elems (first : bool) (l : list jsval) : string :=
            match l with
            | [] => String "]" k
            | x :: l' =>
                let body := print_to x (elems false l') in
                if first then body else String "," body
            end) true l)
  | JObj fs =>
      String "{"
        ((fix members (first : bool) (fs : list (string * jsval)) : string :=
            match fs with
            | [] => String "}" k
            | (key, x) :: fs' =>
                if is_undefined x then members first fs'
                else
                  let body :=
                    quote_to key (String ":" (print_to x (members false fs'))) in
                  if first then body else String "," body
            end) true fs)
  end.

Definition print_elems (k : string) : bool -> list jsval -> string :=
  fix elems (first : bool) (l : list jsval) : string :=
    match l with
    | [] => String "]" k
    | x :: l' =>
        let body := print_to x (elems false l') in
        if first then body else String "," body
    end.

Definition print_members (k : string) : bool -> list (string * jsval) -> string :=
  fix members (first : bool) (fs : list (string * jsval)) : string :=
    match fs with
    | [] => String "}" k
    | (key, x) :: fs' =>
        if is_undefined x then members first fs'
        else
          let body :=
            quote_to key (String ":" (print_to x (members false fs'))) in
          if first then body else String "," body
    end.

(** [JSON.stringify v] for a value that has a text. *)
Definition stringify (v : jsval) : string := print_to v "".

(** *** Parsing *)

Definition is_ws (c : ascii) : bool :=
  let n := N_of_ascii c in
  (n =? 32)%N || (n =? 9)%N || (n =? 10)%N || (n =? 13)%N.

Definition is_digit (c : ascii) : bool :=
  let n := N_of_ascii c in (48 <=? n)%N && (n <=? 57)%N.

Fixpoint skip_ws (s : string) : string :=
  match s with
  | String c r => if is_ws c then skip_ws r else s
  | EmptyString => EmptyString
  end.

Fixpoint span_digits (s : string) : string * string :=
  match s with
  | String c r =>
      if is_digit c then
        let '(ds, rest) := span_digits r in (String c ds, rest)
      else (EmptyString, s)
  | EmptyString => (EmptyString, EmptyString)
  end.

Fixpoint strip_prefix (p s : string) : option string :=
  match p, s with
  | EmptyString, _ => Some s
  | String a p', String b s' =>
      if Ascii.eqb a b then strip_prefix p' s' else None
  | String _ _, EmptyString => None
  end.

(** Digits without sign; a leading zero or no digit at all is refused. *)
Definition parse_digits (s : string) : option (N * string) :=
  let '(ds, rest) := span_digits s in
  match NilEmpty.uint_of_string ds with
  | Some d => if uint_beq (unorm d) d then Some (N.of_uint d, rest) else None
  | None => None
  end.

Definition parse_number (s : string) : option (jsval * string) :=
  match s with
  | String c r =>
      if Ascii.eqb c "-" then
        match parse_digits r with
        | Some (n, rest) => Some (JNum (- Z.of_N n), rest)
        | None => None
        end
      else
        match parse_digits s with
        | Some (n, rest) => Some (JNum (Z.of_N n), rest)
        | None => None
        end
  | EmptyString => None
  end.

Definition hex_value (c : ascii) : option N :=
  let n := N_of_ascii c in
  if (48 <=? n)%N && (n <=? 57)%N then Some (n - 48)%N
  else if (97 <=? n)%N && (n <=? 102)%N then Some (n - 87)%N
  else if (65 <=? n)%N && (n <=? 70)%N then Some (n - 55)%N
  else None.

(** The body of a string literal, after its opening quote.  Only the
    escapes [\u00XX] are in the byte-string model. *)
Fixpoint parse_chars (s : string) : option (string * string) :=
  match s with
  | EmptyString => None
  | String c r =>
      let n := N_of_ascii c in
      if (n =? 34)%N then Some (EmptyString, r)
      else if (n =? 92)%N then
        match r with
        | String e r' =>
            let simple (x : ascii) :=
              match parse_chars r' with
              | Some (t, rest) => Some (String x t, rest)
              | None => None
              end in
            let m := N_of_ascii e in
            if (m =? 34)%N then simple "034"%char
            else if (m =? 92)%N then simple "\"%char
            else if (m =? 47)%N then simple "/"%char
            else if (m =? 98)%N then simple (ascii_of_N 8)
            else if (m =? 116)%N then simple (ascii_of_N 9)
            else if (m =? 110)%N then simple (ascii_of_N 10)
            else if (m =? 102)%N then simple (ascii_of_N 12)
            else if (m =? 114)%N then simple (ascii_of_N 13)
            else if (m =? 117)%N then
              match r' with
              | String h1 (String h2 (String h3 (String h4 r''))) =>
                  match hex_value h1, hex_value h2, hex_value h3, hex_value h4 with
                  | Some 0%N, Some 0%N, Some a, Some b =>
                      match parse_chars r'' with
                      | Some (t, rest) =>
                          Some (String (ascii_of_N (16 * a + b)) t, rest)
                      | None => None
                      end
                  | _, _, _, _ => None
                  end
              | _ => None
              end
            else None
        | EmptyString => None
        end
      else if (n <? 32)%N then None
      else
        match parse_chars r with
        | Some (t, rest) => Some (String c t, rest)
        | None => None
        end
  end.

Fixpoint parse_value (fuel : nat) (s : string) : option (jsval * string) :=
  match fuel with
  | O => None
  | S fuel =>
      match skip_ws s with
      | EmptyString => None
      | String c r =>
          if Ascii.eqb c "[" then
            match parse_elems fuel true r with
            | Some (l, rest) => Some (JArr l, rest)
            | None => None
            end
          else if Ascii.eqb c "{" then
            match parse_members fuel true r with
            | Some (ms, rest) => Some (JObj (obj_of_members ms), rest)
            | None => None
            end
          else if Ascii.eqb c "034"%char then
            match parse_chars r with
            | Some (t, rest) => Some (JStr t, rest)
            | None => None
            end
          else if Ascii.eqb c "n" then
            match strip_prefix "ull" r with
            | Some rest => Some (JNull, rest)
            | None => None
            end
          else if Ascii.eqb c "t" then
            match strip_prefix "rue" r with
            | Some rest => Some (JBool true, rest)
            | None => None
            end
          else if Ascii.eqb c "f" then
            match strip_prefix "alse" r with
            | Some rest => Some (JBool false, rest)
            | None => None
            end
          else parse_number (String c r)
      end
  end
with parse_elems (fuel : nat) (first : bool) (s : string)
  : option (list jsval * string) :=
  match fuel with
  | O => None
  | S fuel =>
      match skip_ws s with
      | EmptyString => None
      | String c r =>
          if Ascii.eqb c "]" then Some ([], r)
          else if first then
            match parse_value fuel (String c r) with
            | Some (x, s1) =>
                match parse_elems fuel false s1 with
                | Some (l, rest) => Some (x :: l, rest)
                | None => None
                end
            | None => None
            end
          else if Ascii.eqb c "," then
            match parse_value fuel r with
            | Some (x, s1) =>
                match parse_elems fuel false s1 with
                | Some (l, rest) => Some (x :: l, rest)
                | None => None
                end
            | None => None
            end
          else None
      end
  end
with parse_members (fuel : nat) (first : bool) (s : string)
  : option (list (string * jsval) * string) :=
  match fuel with
  | O => None
  | S fuel =>
      let member (s0 : string) :=
        match skip_ws s0 with
        | String q r0 =>
            if Ascii.eqb q "034"%char then
              match parse_chars r0 with
              | Some (key, s1) =>
                  match skip_ws s1 with
                  | String colon s2 =>
                      if Ascii.eqb colon ":" then
                        match parse_value fuel s2 with
                        | Some (x, s3) =>
                            match parse_members fuel false s3 with
                            | Some (ms, rest) => Some ((key, x) :: ms, rest)
                            | None => None
                            end
                        | None => None
                        end
                      else None
                  | EmptyString => None
                  end
              | None => None
              end
            else None
        | EmptyString => None
        end in
      match skip_ws s with
      | EmptyString => None
      | String c r =>
          if Ascii.eqb c "}" then Some ([], r)
          else if first then member (String c r)
          else if Ascii.eqb c "," then member r
          else None
      end
  end.

(** One member of an object, as [parse_members] reads it. *)
Definition parse_member (fuel : nat) (s0 : string)
  : option (list (string * jsval) * string) :=
  match skip_ws s0 with
  | String q r0 =>
      if Ascii.eqb q "034"%char then
        match parse_chars r0 with
        | Some (key, s1) =>
            match skip_ws s1 with
            | String colon s2 =>
                if Ascii.eqb colon ":" then
                  match parse_value fuel s2 with
                  | Some (x, s3) =>
                      match parse_members fuel false s3 with
                      | Some (ms, rest) => Some ((key, x) :: ms, rest)
                      | None => None
                      end
                  | None => None
                  end
                else None
            | EmptyString => None
            end
        | None => None
        end
      else None
  | EmptyString => None
  end.

(** [JSON.parse]: one value, then nothing but white space. *)
Definition parse (s : string) : option jsval :=
  match parse_value (String.length s) s with
  | Some (v, rest) =>
      match skip_ws rest with
      | EmptyString => Some v
      | String _ _ => None
      end
  | None => None
  end.

(** *** Values that have a faithful text *)

Fixpoint distinct (ks : list string) : bool :=
  match ks with
  | [] => true
  | k :: ks' => negb (existsb (String.eqb k) ks') && distinct ks'
  end.

(** A JSON-serializable value: no [undefined] anywhere, and every object
    has its property names pairwise distinct, as objects of the language
    have. *)
Fixpoint serializable (v : jsval) : bool :=
  match v with
  | JUndefined => false
  | JNull | JBool _ | JNum _ | JStr _ => true
  | JArr l => forallb serializable l
  | JObj fs =>
      distinct (map fst fs) && forallb (fun kv => serializable (snd kv)) fs
  end.

(** The recursion depth the parser needs for the text of a value. *)
Fixpoint depth (v : jsval) : nat :=
  match v with
  | JArr l =>
      S ((fix go (l : list jsval) : nat :=
            match l with
            | [] => 1
            | x :: l' => S (Nat.max (depth x) (go l'))
            end) l)
  | JObj fs =>
      S ((fix go (fs : list (string * jsval)) : nat :=
            match fs with
            | [] => 1
            | kv :: fs' => S (Nat.max (depth (snd kv)) (go fs'))
            end) fs)
  | _ => 1
  end.

Definition depth_elems : list jsval -> nat :=
  fix go (l : list jsval) : nat :=
    match l with
    | [] => 1
    | x :: l' => S (Nat.max (depth x) (go l'))
    end.

Definition depth_members : list (string * jsval) -> nat :=
  fix go (fs : list (string * jsval)) : nat :=
    match fs with
    | [] => 1
    | kv :: fs' => S (Nat.max (depth (snd kv)) (go fs'))
    end.

(** A text after which a number ends: it does not go on with a digit. *)
Definition delimited (k : string) : bool :=
  match k with
  | String c _ => negb (is_digit c)
  | EmptyString => true
  end.

(** The characters a printed value can start with. *)
Definition value_start (c : ascii) : bool :=
  is_digit c || Ascii.eqb c "-" || Ascii.eqb c "[" || Ascii.eqb c "{"
  || Ascii.eqb c "034"%char || Ascii.eqb c "n" || Ascii.eqb c "t" || Ascii.eqb c "f".

(** *** Conversion to a string, as a template literal does it *)

Fixpoint js_string (v : jsval) : string :=
  match v with
  | JUndefined => "undefined"
  | JNull => "null"
  | JBool true => "true"
  | JBool false => "false"
  | JNum z => print_Z z ""
  | JStr s => s
  | JArr l =>
      (fix join (first : bool) (l : list jsval) : string :=
         match l with
         | [] => ""
         | x :: l' =>
             let item :=
               match x with
               | JUndefined | JNull => ""
               | _ => js_string x
               end in
             (if first then item else "," +:+ item) +:+ join false l'
         end) true l
  | JObj _ => "[object Object]"
  end.

End Json.

(** ** The envelope codec *)

Module Codec.
Import Json.

(** The unit exchanged over a transport: [{ event, data }]. *)
Record Envelope := mkEnvelope { event : string; data : jsval }.

(** Modelled from the spec: the codec of [src/websocket-adapter], which is
    not among the sources.  "When called with multiple positional
    arguments, encodes them as an ordered sequence under [data];
    single-argument calls encode the bare value."  A call without
    argument has the empty sequence. *)
Definition payload (args : list jsval) : jsval :=
  match args with
  | [a] => a
  | _ => JArr args
  end.

Definition encode_envelope (e : Envelope) : string :=
  stringify (JObj [("event", JStr (event e)); ("data", data e)]).

Definition encode (ev : string) (args : list jsval) : string :=
  encode_envelope {| event := ev; data := payload args |}.

(** Modelled from the spec: [decode] "fails (does not throw fatally) when
    the payload is not valid structured data or lacks an [event] field". *)
Definition decode (raw : string) : option Envelope :=
  match parse raw with
  | Some (JObj fs) =>
      match assoc "event" fs with
      | Some (JStr ev) =>
          Some {| event := ev; data := default JUndefined (assoc "data" fs) |}
      | _ => None
      end
  | _ => None
  end.

(** Modelled from the spec: inbound dispatch passes "the elements of
    [data] as positional arguments when [data] is a sequence, or the bare
    value as a single argument otherwise". *)
Definition arguments (d : jsval) : list jsval :=
  match d with
  | JArr l => l
  | _ => [d]
  end.

(** [TestClient.emit] of [test/ws.test.ts]: the frame a connected test
    client sends, [JSON.stringify({ event, data: args })]. *)
Definition client_frame (ev : string) (args : list jsval) : string :=
  stringify (JObj [("event", JStr ev); ("data", JArr args)]).

End Codec.

(** ** The world of the server process *)

Import Json Codec.

(** The closures [src/index.ts] registers on a socket in the connection
    hook.  Each captures the socket it is registered on. *)
Inductive Handler : Type :=
| OnMessage
| OnJoinRoom
| OnPrivateMessage
| OnLiveTiktok
| OnDisconnect.

#[global] Instance Handler_eq_dec : EqDecision Handler.
Proof. solve_decision. Defined.

(** Modelled from the spec: a Socket is its identifier, the set of room
    names it has joined and the ordered mapping from event name to the
    ordered list of its handlers.  The transport handle it owns is
    identified with the socket: frames written to it are recorded in
    [wire] under the socket's identifier. *)
Record Socket := mkSocket {
  sock_id : string;
  sock_rooms : gset string;
  sock_handlers : gmap string (list Handler)
}.

(** A listener that the [live:tiktok] handler puts on the shared emitter:
    it captures the username and the socket, and re-emits [lis_emit]. *)
Record Listener := mkListener {
  lis_emit : string;
  lis_user : string;
  lis_socket : string
}.

(** A closure of [src/platforms/tiktoklive.ts] passed to [connection.on]
    or [connection.off].  [clo_id] is its identity as an object: two
    closures made by two evaluations of the same function expression are
    different objects. *)
Record Closure := mkClosure {
  clo_id : nat;
  clo_user : string;
  clo_event : string;
  clo_event_type : bool
}.

Inductive ConnStatus : Type := Connecting | Connected | Failed | Disconnected.

(** A [TikTokLiveConnection] as this repository sees it: the username it
    was built for, where its connection stands, the room it answers for
    [roomId], and the listeners given to [on], oldest first. *)
Record Connection := mkConnection {
  conn_user : string;
  conn_status : ConnStatus;
  conn_roomId : jsval;
  conn_on : list (string * Closure)
}.

(** An invocation of the [live:tiktok] handler suspended at
    [await connection.connect()]. *)
Record Task := mkTask {
  task_socket : string;
  task_user : string;
  task_conn : nat
}.

Record World := mkWorld {
  clients : gmap string Socket;          (* the Registry, [io.clients] *)
  rooms : gmap string (gset string);     (* the Room Index *)
  next_id : N;                           (* identifiers handed out so far *)
  wire : list (string * string);         (* frames written, oldest first *)
  console : list (list jsval);           (* lines of index.ts and tiktoklive.ts *)
  listeners : list (string * Listener);  (* the shared emitter, oldest first *)
  emitted : list (string * jsval);       (* calls of [emitter.emit] *)
  CurrentLiveMap : gmap string nat;
  conns : list Connection;               (* the connection objects made *)
  next_closure : nat;                    (* closures made so far *)
  pending : list Task
}.

Definition init : World :=
  {| clients := ∅; rooms := ∅; next_id := 0; wire := []; console := [];
     listeners := []; emitted := []; CurrentLiveMap := ∅; conns := [];
     next_closure := 0; pending := [] |}.

Definition with_clients (f : gmap string Socket -> gmap string Socket) (w : World) : World :=
  {| clients := f (clients w); rooms := rooms w; next_id := next_id w;
     wire := wire w; console := console w; listeners := listeners w;
     emitted := emitted w; CurrentLiveMap := CurrentLiveMap w;
     conns := conns w; next_closure := next_closure w; pending := pending w |}.

Definition with_rooms (f : gmap string (gset string) -> gmap string (gset string))
  (w : World) : World :=
  {| clients := clients w; rooms := f (rooms w); next_id := next_id w;
     wire := wire w; console := console w; listeners := listeners w;
     emitted := emitted w; CurrentLiveMap := CurrentLiveMap w;
     conns := conns w; next_closure := next_closure w; pending := pending w |}.

Definition with_next_id (n : N) (w : World) : World :=
  {| clients := clients w; rooms := rooms w; next_id := n;
     wire := wire w; console := console w; listeners := listeners w;
     emitted := emitted w; CurrentLiveMap := CurrentLiveMap w;
     conns := conns w; next_closure := next_closure w; pending := pending w |}.

Definition with_wire (f : list (string * string) -> list (string * string))
  (w : World) : World :=
  {| clients := clients w; rooms := rooms w; next_id := next_id w;
     wire := f (wire w); console := console w; listeners := listeners w;
     emitted := emitted w; CurrentLiveMap := CurrentLiveMap w;
     conns := conns w; next_closure := next_closure w; pending := pending w |}.

Definition with_console (f : list (list jsval) -> list (list jsval)) (w : World) : World :=
  {| clients := clients w; rooms := rooms w; next_id := next_id w;
     wire := wire w; console := f (console w); listeners := listeners w;
     emitted := emitted w; CurrentLiveMap := CurrentLiveMap w;
     conns := conns w; next_closure := next_closure w; pending := pending w |}.

Definition with_listeners (f : list (string * Listener) -> list (string * Listener))
  (w : World) : World :=
  {| clients := clients w; rooms := rooms w; next_id := next_id w;
     wire := wire w; console := console w; listeners := f (listeners w);
     emitted := emitted w; CurrentLiveMap := CurrentLiveMap w;
     conns := conns w; next_closure := next_closure w; pending := pending w |}.

Definition with_emitted (f : list (string * jsval) -> list (string * jsval))
  (w : World) : World :=
  {| clients := clients w; rooms := rooms w; next_id := next_id w;
     wire := wire w; console := console w; listeners := listeners w;
     emitted := f (emitted w); CurrentLiveMap := CurrentLiveMap w;
     conns := conns w; next_closure := next_closure w; pending := pending w |}.

Definition with_live (f : gmap string nat -> gmap string nat) (w : World) : World :=
  {| clients := clients w; rooms := rooms w; next_id := next_id w;
     wire := wire w; console := console w; listeners := listeners w;
     emitted := emitted w; CurrentLiveMap := f (CurrentLiveMap w);
     conns := conns w; next_closure := next_closure w; pending := pending w |}.

Definition with_conns (f : list Connection -> list Connection) (w : World) : World :=
  {| clients := clients w; rooms := rooms w; next_id := next_id w;
     wire := wire w; console := console w; listeners := listeners w;
     emitted := emitted w; CurrentLiveMap := CurrentLiveMap w;
     conns := f (conns w); next_closure := next_closure w; pending := pending w |}.

Definition with_next_closure (n : nat) (w : World) : World :=
  {| clients := clients w; rooms := rooms w; next_id := next_id w;
     wire := wire w; console := console w; listeners := listeners w;
     emitted := emitted w; CurrentLiveMap := CurrentLiveMap w;
     conns := conns w; next_closure := n; pending := pending w |}.

Definition with_pending (f : list Task -> list Task) (w : World) : World :=
  {| clients := clients w; rooms := rooms w; next_id := next_id w;
     wire := wire w; console := console w; listeners := listeners w;
     emitted := emitted w; CurrentLiveMap := CurrentLiveMap w;
     conns := conns w; next_closure := next_closure w; pending := f (pending w) |}.

(** What a call leaves behind: the world, and the value thrown if the
    call ended by an exception. *)
Inductive result (A : Type) : Type :=
| Ok (a : A) (w : World)
| Throw (err : jsval) (w : World).
Arguments Ok {A} a w.
Arguments Throw {A} err w.

Definition world_of {A} (r : result A) : World :=
  match r with
  | Ok _ w => w
  | Throw _ w => w
  end.

Definition TypeError : jsval := JStr "TypeError".

Definition log (line : list jsval) (w : World) : World :=
  with_console (fun c => c ++ [line]) w.

(** ** The websocket adapter

    Modelled from the spec: the hub of [src/websocket-adapter] (Connection
    Registry, Room Manager, Socket Handle and lifecycle, sections 4.2 to
    4.6), which is not among the sources.  Each definition below follows
    the sentence of the specification quoted at it. *)

(** "Connection Identifier: opaque unique value, generated at registration
    time, never reused while the process runs." *)
Definition fresh_id (n : N) : string := pretty n.

(** "[register]: generates a fresh unique identifier, creates a Socket
    wrapping the transport, stores it, returns the identifier." *)
Definition register (w : World) : string * World :=
  let id := fresh_id (next_id w) in
  (id,
   with_next_id (N.succ (next_id w))
     (with_clients
        (insert id {| sock_id := id; sock_rooms := ∅; sock_handlers := ∅ |}) w)).

(** "[remove(id)]: idempotent; removing an already-absent id is a no-op." *)
Definition remove (id : string) (w : World) : World :=
  with_clients (delete id) w.

(** "[membersOf(room)]"; a room exists as long as it has a member. *)
Definition members_of (room : string) (w : World) : gset string :=
  default ∅ (rooms w !! room).

Definition sock_with_rooms (f : gset string -> gset string) (s : Socket) : Socket :=
  {| sock_id := sock_id s; sock_rooms := f (sock_rooms s);
     sock_handlers := sock_handlers s |}.

(** "[join(id, room)]: adds id to room's member set; creates the Room if
    absent.  No-op if already a member." *)
Definition join (id room : string) (w : World) : World :=
  with_clients (alter (sock_with_rooms (fun rs => {[room]} ∪ rs)) id)
    (with_rooms (insert room ({[id]} ∪ members_of room w)) w).

(** "[leave(id, room)]: removes id from room's member set; no-op if not a
    member.  If the resulting member set is empty the Room may be
    dropped." *)
Definition leave (id room : string) (w : World) : World :=
  let rest := members_of room w ∖ {[id]} in
  with_clients (alter (sock_with_rooms (fun rs => rs ∖ {[room]})) id)
    (with_rooms
       (fun rs => if decide (rest = ∅) then delete room rs else <[room := rest]> rs)
       w).

(** Removal of an id from all rooms, on entering Closed. *)
Definition leave_all (id : string) (w : World) : World :=
  with_rooms
    (omap (fun members =>
             let rest := members ∖ {[id]} in
             if decide (rest = ∅) then None else Some rest))
    w.

(** A write to the transport of [id]; "the write is simply dropped if
    the underlying connection is gone". *)
Definition deliver (id frame : string) (w : World) : World :=
  match clients w !! id with
  | Some _ => with_wire (fun l => l ++ [(id, frame)]) w
  | None => w
  end.

(** "[emit(event, ...args)]: encodes and writes directly to this
    socket's own transport." *)
Definition socket_emit (id ev : string) (args : list jsval) (w : World) : World :=
  deliver id (encode ev args) w.

(** "[broadcast(room, envelope, excludeId?)]: delivers the encoded
    envelope to every current member of [room] except [excludeId] if
    supplied", from a snapshot of the membership. *)
Definition broadcast (room frame : string) (exclude : option string) (w : World)
  : World :=
  let snapshot := members_of room w in
  let targets :=
    match exclude with
    | Some id => snapshot ∖ {[id]}
    | None => snapshot
    end in
  foldl (fun w id => deliver id frame w) w (elements targets).

(** "[to(room)] -> a send-only proxy whose [emit(event, ...args)] calls
    Room Manager [broadcast(room, envelope, excludeId=thisSocket.id)]". *)
Definition to_emit (id room ev : string) (args : list jsval) (w : World) : World :=
  broadcast room (encode ev args) (Some id) w.

(** "[on(event, handler)]: appends handler to the ordered list for that
    event name on this socket"; no de-duplication. *)
Definition socket_on (id ev : string) (h : Handler) (w : World) : World :=
  with_clients
    (alter (fun s =>
              {| sock_id := sock_id s; sock_rooms := sock_rooms s;
                 sock_handlers :=
                   <[ev := default [] (sock_handlers s !! ev) ++ [h]]>
                     (sock_handlers s) |}) id)
    w.

Definition handlers_for (id ev : string) (w : World) : list Handler :=
  match clients w !! id with
  | Some s => default [] (sock_handlers s !! ev)
  | None => []
  end.

(** "[broadcastAll(message)]: delivers [message] to every connection
    currently in the default room", under the event name [broadcast]. *)
Definition broadcastAll (message : string) (w : World) : World :=
  broadcast "general" (encode "broadcast" [JStr message]) None w.

(** ** The shared emitter

    Modelled from the spec: [src/Emitter], the process-wide event emitter
    that bridges the external event source into socket emits, is not
    among the sources.  [on] appends a listener; [emit] calls the
    listeners registered for the event, oldest first. *)

Definition emitter_on (ev : string) (l : Listener) (w : World) : World :=
  with_listeners (fun ls => ls ++ [(ev, l)]) w.

(** The body of the three listeners of [src/index.ts], lines 52-66:
    [if (data.tiktokUsername === tiktokUsername) socket.emit(name, data)]. *)
Definition run_listener (l : Listener) (payload : jsval) (w : World) : World :=
  match get_prop payload "tiktokUsername" with
  | JStr u =>
      if String.eqb u (lis_user l)
      then socket_emit (lis_socket l) (lis_emit l) [payload] w
      else w
  | _ => w
  end.

Definition listeners_for (ev : string) (w : World) : list Listener :=
  snd <$> filter (fun el => el.1 = ev) (listeners w).

Definition emitter_emit (ev : string) (payload : jsval) (w : World) : World :=
  foldl (fun w l => run_listener l payload w)
    (with_emitted (fun es => es ++ [(ev, payload)]) w)
    (listeners_for ev w).

(** ** The connection objects of tiktok-live-connector *)

Definition conn_update (ref : nat) (f : Connection -> Connection) (w : World) : World :=
  with_conns (alter f ref) w.

Definition conn_with_on (f : list (string * Closure) -> list (string * Closure))
  (c : Connection) : Connection :=
  {| conn_user := conn_user c; conn_status := conn_status c;
     conn_roomId := conn_roomId c; conn_on := f (conn_on c) |}.

Definition conn_with_status (st : ConnStatus) (c : Connection) : Connection :=
  {| conn_user := conn_user c; conn_status := st;
     conn_roomId := conn_roomId c; conn_on := conn_on c |}.

Definition conn_with_roomId (r : jsval) (c : Connection) : Connection :=
  {| conn_user := conn_user c; conn_status := conn_status c;
     conn_roomId := r; conn_on := conn_on c |}.

(** [connection.on(event, listener)]: the listener is added at the end. *)
Definition connection_on (ref : nat) (ev : string) (clo : Closure) (w : World) : World :=
  conn_update ref (conn_with_on (fun ls => ls ++ [(ev, clo)])) w.

Definition same_listener (ev : string) (clo : Closure) (entry : string * Closure) : bool :=
  String.eqb entry.1 ev && Nat.eqb (clo_id entry.2) (clo_id clo).

Fixpoint remove_first {A} (p : A -> bool) (l : list A) : list A :=
  match l with
  | [] => []
  | x :: l' => if p x then l' else x :: remove_first p l'
  end.

(** [connection.off(event, listener)]: the most recently added listener
    of [event] that is the object [listener] is removed, if there is one. *)
Definition connection_off (ref : nat) (ev : string) (clo : Closure) (w : World) : World :=
  conn_update ref
    (conn_with_on (fun ls => rev (remove_first (same_listener ev clo) (rev ls)))) w.

(** [connection.disconnect()]. *)
Definition connection_disconnect (ref : nat) (w : World) : World :=
  conn_update ref (conn_with_status Disconnected) w.

(** How [await connection.connect()] ends: with the state object of the
    room (its properties), or with the value thrown. *)
Inductive Outcome : Type :=
| Resolved (state : list (string * jsval))
| Rejected (err : jsval).

Definition nullish (v : jsval) : bool :=
  match v with
  | JUndefined | JNull => true
  | _ => false
  end.

(** ** src/platforms/tiktoklive.ts *)

Section Bridge.

(** [Object.values(WebcastEvent)]: the table of the library's event
    names, a constant of a package that is not among the sources. *)
Variable TiktokEventsArray : list string.

(** [createLive], up to [await connection.connect()]:
    [new TikTokLiveConnection(tiktokUsername)]. *)
Definition createLive_begin (tiktokUsername : string) (w : World) : nat * World :=
  (length (conns w),
   with_conns (fun cs => cs ++ [ {| conn_user := tiktokUsername;
                                    conn_status := Connecting;
                                    conn_roomId := JUndefined;
                                    conn_on := [] |} ]) w).

(** The [catch] block of [createLive]. *)
Definition createLive_catch (tiktokUsername : string) (err : jsval) (w : World)
  : result nat :=
  let w := log [JStr "Failed to connect:"; err] w in
  let w := emitter_emit "tiktok:disconnected"
             (JObj [("tiktokUsername", JStr tiktokUsername);
                    ("state", JStr "DISCONNECTED")]) w in
  Throw err w.

(** The closure of lines 25-32, made once per event name. *)
Definition register_event (tiktokUsername : string) (connection : nat)
  (w : World) (event : string) : World :=
  let clo := {| clo_id := next_closure w; clo_user := tiktokUsername;
                clo_event := event; clo_event_type := true |} in
  connection_on connection event clo (with_next_closure (S (next_closure w)) w).

(** [createLive], from the point where [connection.connect()] settles. *)
Definition createLive_settle (tiktokUsername : string) (connection : nat)
  (o : Outcome) (w : World) : result nat :=
  match o with
  | Rejected err =>
      createLive_catch tiktokUsername err
        (conn_update connection (conn_with_status Failed) w)
  | Resolved state =>
      let roomId := get_prop (JObj state) "roomId" in
      let w := conn_update connection
                 (fun c => conn_with_roomId roomId (conn_with_status Connected c)) w in
      let w := log [JStr ("Connected to roomId " +:+ js_string roomId)] w in
      let w := emitter_emit "tiktok:connected"
                 (JObj [("tiktokUsername", JStr tiktokUsername);
                        ("roomId", roomId);
                        ("state", JObj state)]) w in
      let w := foldl (register_event tiktokUsername connection) w
                 TiktokEventsArray in
      Ok connection w
  end.

Definition getLive (tiktokUsername : string) (w : World) : option nat :=
  CurrentLiveMap w !! tiktokUsername.

(** Where a call of [createLiveIfNotExist] stands when it first gives
    control back: finished, or suspended on a connection. *)
Inductive Started : Type :=
| Done (w : World)
| Awaiting (connection : nat) (w : World).

Definition createLiveIfNotExist_begin (tiktokUsername : string) (w : World) : Started :=
  match CurrentLiveMap w !! tiktokUsername with
  | Some _ => Done w
  | None =>
      let '(connection, w) := createLive_begin tiktokUsername w in
      Awaiting connection w
  end.

Definition createLiveIfNotExist_settle (tiktokUsername : string) (connection : nat)
  (o : Outcome) (w : World) : result unit :=
  match createLive_settle tiktokUsername connection o w with
  | Ok connection w => Ok tt (with_live (insert tiktokUsername connection) w)
  | Throw err w => Throw err w
  end.

(** A call of [createLiveIfNotExist] that nothing interleaves with. *)
Definition createLiveIfNotExist (tiktokUsername : string) (o : Outcome) (w : World)
  : result unit :=
  match createLiveIfNotExist_begin tiktokUsername w with
  | Done w => Ok tt w
  | Awaiting connection w => createLiveIfNotExist_settle tiktokUsername connection o w
  end.

(** The closure of lines 80-86, made once per event name and given to
    [connection.off]. *)
Definition unregister_event (tiktokUsername : string) (connection : nat)
  (w : World) (event : string) : World :=
  let clo := {| clo_id := next_closure w; clo_user := tiktokUsername;
                clo_event := event; clo_event_type := false |} in
  connection_off connection event clo (with_next_closure (S (next_closure w)) w).

Definition disconnectLive (tiktokUsername : string) (w : World) : World :=
  match getLive tiktokUsername w with
  | Some connection =>
      let w := connection_disconnect connection w in
      let w := with_live (delete tiktokUsername) w in
      let roomId :=
        match conns w !! connection with
        | Some c => conn_roomId c
        | None => JUndefined
        end in
      let w := emitter_emit "tiktok:disconnected"
                 (JObj [("tiktokUsername", JStr tiktokUsername);
                        ("roomId", roomId)]) w in
      foldl (unregister_event tiktokUsername connection) w TiktokEventsArray
  | None => w
  end.

(** A webcast event of the library reaching the listeners of a
    connection: each closure emits [tiktok:event] on the shared emitter. *)
Definition run_closure (clo : Closure) (payload : jsval) (w : World) : World :=
  emitter_emit "tiktok:event"
    (JObj ([("tiktokUsername", JStr (clo_user clo)); ("event", JStr (clo_event clo))]
           ++ (if clo_event_type clo then [("eventType", JStr (clo_event clo))] else [])
           ++ [("data", payload)])) w.

Definition webcast (connection : nat) (event : string) (payload : jsval) (w : World)
  : World :=
  match conns w !! connection with
  | Some c =>
      foldl (fun w clo => run_closure clo payload w) w
        (snd <$> filter (fun el => el.1 = event) (conn_on c))
  | None => w
  end.

(** ** src/index.ts *)

Definition arg (i : nat) (args : list jsval) : jsval :=
  default JUndefined (args !! i).

(** Lines 52-66: the three listeners put on the shared emitter. *)
Definition subscribe (id tiktokUsername : string) (w : World) : World :=
  let _ := getLive tiktokUsername w in
  let bridge (name : string) :=
    emitter_on name
      {| lis_emit := name; lis_user := tiktokUsername; lis_socket := id |} in
  bridge "tiktok:disconnected" (bridge "tiktok:event" (bridge "tiktok:connected" w)).

(** The handlers registered in the connection hook, lines 23-71.  An
    argument is typed by the handler's signature ([room: string],
    [tiktokUsername: string]); a frame that gives such a parameter a value
    of another type is outside the model and leaves the world as it is. *)
Definition run_handler (h : Handler) (id : string) (args : list jsval) (w : World)
  : result unit :=
  match h with
  | OnMessage =>
      let data := arg 0 args in
      let w := log [JStr ("Message from " +:+ id +:+ ":"); data] w in
      let w := socket_emit id "echo" [data] w in
      let w := to_emit id "general" "broadcast"
                 [JStr (id +:+ " says: " +:+ js_string data)] w in
      Ok tt w
  | OnJoinRoom =>
      match arg 0 args with
      | JStr room =>
          let w := leave id "general" w in
          let w := join id room w in
          let w := socket_emit id "joined" [JStr ("You joined room: " +:+ room)] w in
          let w := to_emit id room "user-joined"
                     [JStr (id +:+ " joined the room")] w in
          Ok tt w
      | _ => Ok tt w
      end
  | OnPrivateMessage =>
      if nullish (arg 0 args) then
        (* destructuring [undefined] or [null] *)
        Throw TypeError w
      else
        let targetSocketId := get_prop (arg 0 args) "targetSocketId" in
        let message := get_prop (arg 0 args) "message" in
        let targetSocket :=
          match targetSocketId with
          | JStr t => if decide (is_Some (clients w !! t)) then Some t else None
          | _ => None
          end in
        match targetSocket with
        | Some t =>
            Ok tt (socket_emit t "private-message"
                     [JObj [("from", JStr id); ("message", message)]] w)
        | None =>
            Ok tt (socket_emit id "error"
                     [JStr ("User " +:+ js_string targetSocketId
                            +:+ " not found or disconnected.")] w)
        end
  | OnLiveTiktok =>
      match arg 0 args with
      | JStr tiktokUsername =>
          let w := log [JStr "live:tiktok"; JStr tiktokUsername] w in
          match createLiveIfNotExist_begin tiktokUsername w with
          | Done w => Ok tt (subscribe id tiktokUsername w)
          | Awaiting connection w =>
              Ok tt (with_pending
                       (fun ts => ts ++ [ {| task_socket := id;
                                             task_user := tiktokUsername;
                                             task_conn := connection |} ]) w)
          end
      | _ => Ok tt w
      end
  | OnDisconnect =>
      Ok tt (log [JStr ("Client disconnected: " +:+ id)] w)
  end.

(** A suspended [live:tiktok] handler goes on when its connection
    settles (line 50).  When [createLiveIfNotExist] throws, the handler's
    promise is rejected and lines 51-66 are not run; the dispatch that
    started the handler has returned by then. *)
Definition settle_task (i : nat) (o : Outcome) (w : World) : World :=
  match pending w !! i with
  | Some t =>
      let w := with_pending (delete i) w in
      match createLiveIfNotExist_settle (task_user t) (task_conn t) o w with
      | Ok _ w => subscribe (task_socket t) (task_user t) w
      | Throw _ w => w
      end
  | None => w
  end.

(** The connection hook, lines 16-72. *)
Definition on_connection (id : string) (w : World) : World :=
  let w := log [JStr ("Client connected: " +:+ id)] w in
  let w := join id "general" w in
  let w := socket_on id "message" OnMessage w in
  let w := socket_on id "join-room" OnJoinRoom w in
  let w := socket_on id "private-message" OnPrivateMessage w in
  let w := socket_on id "live:tiktok" OnLiveTiktok w in
  let w := socket_on id "disconnect" OnDisconnect w in
  w.

(** ** The transport boundary of the hub

    Modelled from the spec: [handleOpen], [handleMessage] and
    [handleClose] of [src/websocket-adapter] (sections 4.4, 4.5 and 6). *)

Fixpoint run_handlers (hs : list Handler) (id : string) (args : list jsval)
  (w : World) : result unit :=
  match hs with
  | [] => Ok tt w
  | h :: hs' =>
      match run_handler h id args w with
      | Ok _ w => run_handlers hs' id args w
      | Throw err w => Throw err w
      end
  end.

(** "Hub creates a Socket Handle, assigns an identifier, registers it, and
    fires a [connection] hook with the handle." *)
Definition handleOpen (w : World) : string * World :=
  let '(id, w) := register w in
  (id, on_connection id w).

(** "On a decoded envelope, invoke every handler registered for [event]
    on this socket"; a frame that does not decode is dropped, and so is a
    frame for an identifier absent from the Registry. *)
Definition handleMessage (id raw : string) (w : World) : result unit :=
  match clients w !! id with
  | Some _ =>
      match decode raw with
      | Some e => run_handlers (handlers_for id (event e) w) id (arguments (data e)) w
      | None => Ok tt w
      end
  | None => Ok tt w
  end.

(** "On entering Closed: fire every handler registered for [disconnect] on
    this socket exactly once, then atomically remove the id from all rooms
    and from the Registry"; "a second trigger while already Closed is
    ignored". *)
Definition handleClose (id : string) (w : World) : result unit :=
  match clients w !! id with
  | Some _ =>
      match run_handlers (handlers_for id "disconnect" w) id [] w with
      | Ok _ w => Ok tt (remove id (leave_all id w))
      | Throw err w => Throw err (remove id (leave_all id w))
      end
  | None => Ok tt w
  end.

(** ** Event traces *)

(** What can happen to the process: a transport opens, delivers a frame
    or closes; the HTTP layer asks for a broadcast; a pending connection
    settles; the library reports a webcast event; [disconnectLive] is
    called. *)
Inductive Event : Type :=
| EOpen
| EMessage (id raw : string)
| EClose (id : string)
| EBroadcastAll (message : string)
| ESettle (task : nat) (o : Outcome)
| EWebcast (connection : nat) (event : string) (payload : jsval)
| EDisconnectLive (tiktokUsername : string).

Definition step (w : World) (e : Event) : World :=
  match e with
  | EOpen => (handleOpen w).2
  | EMessage id raw => world_of (handleMessage id raw w)
  | EClose id => world_of (handleClose id w)
  | EBroadcastAll message => broadcastAll message w
  | ESettle task o => settle_task task o w
  | EWebcast connection event payload => webcast connection event payload w
  | EDisconnectLive tiktokUsername => disconnectLive tiktokUsername w
  end.

Definition run (tr : list Event) : World := foldl step init tr.

End Bridge.

(** ** Predicates used by the statements *)

(** Two worlds with the same Registry, Room Index and identifier supply. *)
Definition hub_same (w w' : World) : Prop :=
  clients w' = clients w /\ rooms w' = rooms w /\ next_id w' = next_id w.

(** The handler table of a socket once the connection hook has run. *)
Definition app_handlers : gmap string (list Handler) :=
  <["disconnect" := [OnDisconnect]]>
    (<["live:tiktok" := [OnLiveTiktok]]>
       (<["private-message" := [OnPrivateMessage]]>
          (<["join-room" := [OnJoinRoom]]>
             (<["message" := [OnMessage]]> ∅)))).

(** What holds of the hub in every world an event trace leads to. *)
Record hub_inv (w : World) : Prop := mk_hub_inv {
  inv_members : forall room, members_of room w ⊆ dom (clients w);
  inv_issued :
    forall id, id ∈ dom (clients w) ->
               exists k, (k < next_id w)%N /\ id = fresh_id k;
  inv_handlers :
    forall id s, clients w !! id = Some s -> sock_handlers s = app_handlers
}.

(** Every listener of every connection is a closure made earlier. *)
Definition closures_known (w : World) : Prop :=
  Forall (fun c => Forall (fun el => clo_id el.2 < next_closure w) (conn_on c))
    (conns w).


(** An observation [f] of the world ignores the field that [upd] writes. *)
Definition ignores {A B : Type} (f : World -> A) (upd : (B -> B) -> World -> World)
  : Prop :=
  forall g w, f (upd g w) = f w.

(** The three listeners one completed [live:tiktok] request leaves on the
    shared emitter. *)
Definition bridge_listeners (id tiktokUsername : string) : list (string * Listener) :=
  [ ("tiktok:connected",
     {| lis_emit := "tiktok:connected"; lis_user := tiktokUsername; lis_socket := id |});
    ("tiktok:event",
     {| lis_emit := "tiktok:event"; lis_user := tiktokUsername; lis_socket := id |});
    ("tiktok:disconnected",
     {| lis_emit := "tiktok:disconnected"; lis_user := tiktokUsername; lis_socket := id |}) ].







(** What the closure store looks like to the connections. *)
Definition known (n : nat) (c : Connection) : Prop :=
  Forall (fun el : string * Closure => clo_id el.2 < n) (conn_on c).

Definition heap (w : World) : list Connection * nat := (conns w, next_closure w).

(** Of a connection, what the count of live connections looks at. *)
Definition shape (c : Connection) : string * ConnStatus := (conn_user c, conn_status c).

Definition shapes (w : World) : list (string * ConnStatus) := shape <$> conns w.




Definition set_status (st : ConnStatus) (p : string * ConnStatus) : string * ConnStatus :=
  (p.1, st).


(** ** Observations used by the further properties *)

#[global] Instance Listener_eq_dec : EqDecision Listener.
Proof. solve_decision. Defined.

(** The frames written to the transports between [w] and a later world. *)
Definition written (w w' : World) : list (string * string) :=
  drop (length (wire w)) (wire w').

(** The frames among [frames] that went to the socket [id]. *)
Definition frames_to (id : string) (frames : list (string * string)) : list string :=
  snd <$> filter (fun p => p.1 = id) frames.

(** What one listener of [src/index.ts] writes when the shared emitter
    calls it with [payload] in the world [w]. *)
Definition forwards (payload : jsval) (w : World) (l : Listener)
  : list (string * string) :=
  match get_prop payload "tiktokUsername" with
  | JStr u =>
      if String.eqb u (lis_user l)
      then match clients w !! lis_socket l with
           | Some _ => [(lis_socket l, encode (lis_emit l) [payload])]
           | None => []
           end
      else []
  | _ => []
  end.

Definition forwarded (ev : string) (payload : jsval) (w : World)
  : list (string * string) :=
  listeners_for ev w ≫= forwards payload w.

(** The listeners that lines 24-33 of [tiktoklive.ts] put on a
    connection: one closure per entry of the event table, in the order of
    the table, made one after the other from the closure [base] on. *)
Definition registered (u : string) (evs : list string) (base : nat)
  : list (string * Closure) :=
  imap (fun i ev => (ev, {| clo_id := base + i; clo_user := u;
                            clo_event := ev; clo_event_type := true |})) evs.

(** The payload of the [tiktok:event] emission of lines 26-31. *)
Definition event_payload (u ev : string) (data : jsval) : jsval :=
  JObj [("tiktokUsername", JStr u); ("event", JStr ev);
        ("eventType", JStr ev); ("data", data)].

(** A connection whose [connect()] has resolved. *)
Definition settled (st : ConnStatus) : bool :=
  match st with
  | Connected | Disconnected => true
  | Connecting | Failed => false
  end.

(** What [tiktoklive.ts] and the suspended handlers hold of the
    connections. *)
Definition bridge_state (w : World)
  : list Connection * list Task * gmap string nat :=
  (conns w, pending w, CurrentLiveMap w).

(** What holds of the connections in every world an event trace leads
    to: a connection carries the listeners of [createLive] once its
    [connect()] has resolved and none before; a suspended request waits
    for a connection of its username that is still connecting, no two
    for the same one; and a stored connection is a connected connection
    of the username it is stored under. *)
Record links (evs : list string) (cs : list Connection) (ps : list Task)
  (m : gmap string nat) : Prop := mk_links {
  inv_shape :
    forall c conn, cs !! c = Some conn ->
      if settled (conn_status conn)
      then exists base, conn_on conn = registered (conn_user conn) evs base
      else conn_on conn = [];
  inv_pending :
    forall i t, ps !! i = Some t ->
      exists conn, cs !! task_conn t = Some conn
                   /\ conn_status conn = Connecting
                   /\ conn_user conn = task_user t;
  inv_distinct : NoDup (task_conn <$> ps);
  inv_stored :
    forall u c, m !! u = Some c ->
      exists conn, cs !! c = Some conn
                   /\ conn_status conn = Connected
                   /\ conn_user conn = u
}.

Definition conn_inv (evs : list string) (w : World) : Prop :=
  links evs (conns w) (pending w) (CurrentLiveMap w).

(** How often the event name [ev] stands in the event table. *)
Definition occurrences (ev : string) (evs : list string) : nat :=
  length (filter (fun e => e = ev) evs).

(** The listeners on the shared emitter are the ones [src/index.ts]
    puts there: each re-emits the event it is registered for. *)
Definition bridged (ls : list (string * Listener)) : Prop :=
  Forall (fun el => lis_emit el.2 = el.1) ls.

(** A trace: one socket, one request for [u], and its connection
    resolved. *)
Definition one_live : list Event :=
  [EOpen;
   EMessage "0" (client_frame "live:tiktok" [JStr "u"]);
   ESettle 0 (Resolved [("roomId", JStr "7")])].

(** No connection of the list has been disconnected. *)
Definition never_closed (cs : list Connection) : Prop :=
  Forall (fun conn => conn_status conn <> Disconnected) cs.

(** ** test/ws.test.ts: the test client *)

Module TestClient.

(** The promise that a call of [waitForMessage] returns. *)
Inductive Promise : Type :=
| Pending
| Fulfilled (args : list jsval)
| Rejected (reason : string).

(** One call of [waitForMessage]: the event it waits for, its promise,
    and whether its timeout is still set.  The [handler] closure of the
    call is an object of its own; it is named by the index of the call. *)
Record Wait := mkWait {
  wait_event : string;
  wait_promise : Promise;
  wait_timer : bool
}.

(** The fields of a [TestClient].  The callbacks in [listeners] are the
    [handler] closures of [waitForMessage], the only functions that the
    file gives to [on]. *)
Record Client := mkClient {
  ws : bool;                           (* [this.ws] is set *)
  connected : bool;
  listeners : gmap string (list nat);
  messageQueue : list jsval;
  waits : list Wait;                   (* the calls of [waitForMessage] *)
  sent : list string;                  (* frames given to [ws.send] *)
  console : list (list jsval)
}.

(** [new TestClient()] *)
Definition new_client : Client :=
  {| ws := false; connected := false; listeners := ∅; messageQueue := [];
     waits := []; sent := []; console := [] |}.

Definition with_ws (b : bool) (c : Client) : Client :=
  {| ws := b; connected := connected c; listeners := listeners c;
     messageQueue := messageQueue c; waits := waits c; sent := sent c;
     console := console c |}.

Definition with_connected (b : bool) (c : Client) : Client :=
  {| ws := ws c; connected := b; listeners := listeners c;
     messageQueue := messageQueue c; waits := waits c; sent := sent c;
     console := console c |}.

Definition with_listeners (f : gmap string (list nat) -> gmap string (list nat))
  (c : Client) : Client :=
  {| ws := ws c; connected := connected c; listeners := f (listeners c);
     messageQueue := messageQueue c; waits := waits c; sent := sent c;
     console := console c |}.

Definition with_messageQueue (f : list jsval -> list jsval) (c : Client) : Client :=
  {| ws := ws c; connected := connected c; listeners := listeners c;
     messageQueue := f (messageQueue c); waits := waits c; sent := sent c;
     console := console c |}.

Definition with_waits (f : list Wait -> list Wait) (c : Client) : Client :=
  {| ws := ws c; connected := connected c; listeners := listeners c;
     messageQueue := messageQueue c; waits := f (waits c); sent := sent c;
     console := console c |}.

Definition with_sent (f : list string -> list string) (c : Client) : Client :=
  {| ws := ws c; connected := connected c; listeners := listeners c;
     messageQueue := messageQueue c; waits := waits c; sent := f (sent c);
     console := console c |}.

Definition log (line : list jsval) (c : Client) : Client :=
  {| ws := ws c; connected := connected c; listeners := listeners c;
     messageQueue := messageQueue c; waits := waits c; sent := sent c;
     console := console c ++ [line] |}.

(** [connect()], as far as the fields go: [this.ws = new WebSocket(url)]. *)
Definition connect (c : Client) : Client := with_ws true c.

(** [ws.onopen], lines 19-23. *)
Definition onopen (c : Client) : Client :=
  log [JStr "Test client connected"] (with_connected true c).

(** [emit], lines 58-64. *)
Definition emit (event : string) (args : list jsval) (c : Client) : Client :=
  if connected c && ws c then
    let data := client_frame event args in
    with_sent (fun l => l ++ [data]) (log [JStr "Test client sending:"; JStr data] c)
  else c.

(** [on], lines 66-71. *)
Definition on (event : string) (callback : nat) (c : Client) : Client :=
  with_listeners
    (fun m => <[event := default [] (m !! event) ++ [callback]]> m) c.

(** [resolve(args)] and [reject(error)]: a promise settles once. *)
Definition resolve (args : list jsval) (w : Wait) : Wait :=
  {| wait_event := wait_event w;
     wait_promise := match wait_promise w with
                     | Pending => Fulfilled args
                     | settled => settled
                     end;
     wait_timer := wait_timer w |}.

Definition reject (reason : string) (w : Wait) : Wait :=
  {| wait_event := wait_event w;
     wait_promise := match wait_promise w with
                     | Pending => Rejected reason
                     | settled => settled
                     end;
     wait_timer := wait_timer w |}.

Definition wait_with_timer (b : bool) (w : Wait) : Wait :=
  {| wait_event := wait_event w; wait_promise := wait_promise w; wait_timer := b |}.

(** The [handler] of the [p]-th call of [waitForMessage], lines 85-96:
    it clears the timeout, takes itself out of the listeners of its
    event ([indexOf], [splice]) and resolves the promise. *)
Definition handler (p : nat) (args : list jsval) (c : Client) : Client :=
  match waits c !! p with
  | Some w =>
      let c := with_waits (alter (wait_with_timer false) p) c in
      let c :=
        match listeners c !! wait_event w with
        | Some l =>
            with_listeners
              (insert (wait_event w) (remove_first (Nat.eqb p) l)) c
        | None => c
        end in
      with_waits (alter (resolve args) p) c
  | None => c
  end.

(** [waitForMessage], lines 79-100; the result is the index that names
    the promise. *)
Definition waitForMessage (event : string) (c : Client) : nat * Client :=
  let p := length (waits c) in
  (p,
   on event p
     (with_waits
        (fun l => l ++ [ {| wait_event := event; wait_promise := Pending;
                            wait_timer := true |} ]) c)).

(** The timeout of line 81 running out, if it has not been cleared. *)
Definition timeout (p : nat) (c : Client) : Client :=
  match waits c !! p with
  | Some w =>
      if wait_timer w then
        with_waits
          (alter (fun w => reject ("Timeout waiting for event: " +:+ wait_event w)
                             (wait_with_timer false w)) p) c
      else c
  | None => c
  end.

(** [eventListeners.forEach((cb) => cb(...args))] on the array stored
    under [event]: the length is read once, and at each index the
    callback that stands there at that moment is called, if the array
    still reaches that far. *)
Fixpoint forEach_from (n k : nat) (event : string) (args : list jsval)
  (c : Client) : Client :=
  match n with
  | 0 => c
  | S n' =>
      forEach_from n' (S k) event args
        (match default [] (listeners c !! event) !! k with
         | Some cb => handler cb args c
         | None => c
         end)
  end.

Definition forEach (event : string) (args : list jsval) (c : Client) : Client :=
  forEach_from (length (default [] (listeners c !! event))) 0 event args c.

(** The spread [...v] of a call: the elements of an array, the
    characters of a string; anything else is not iterable. *)
Definition spread (v : jsval) : option (list jsval) :=
  match v with
  | JArr l => Some l
  | JStr s => Some ((fun a => JStr (String a EmptyString)) <$> list_ascii_of_string s)
  | _ => None
  end.

(** The [catch] block of [ws.onmessage], lines 36-39. *)
Definition onmessage_catch (raw : string) (c : Client) : Client :=
  with_messageQueue (fun q => q ++ [JObj [("raw", JStr raw)]])
    (log [JStr "Test client received raw:"; JStr raw] c).

(** [ws.onmessage], lines 25-40.  Inside the [try]: [JSON.parse] throws
    on text that is not JSON, [data.event] throws on [null], and the
    spread throws on a value that is not iterable, when the first
    callback is about to be called. *)
Definition onmessage (raw : string) (c : Client) : Client :=
  match parse raw with
  | Some data =>
      let c := log [JStr "Test client received:"; data] c in
      let c := with_messageQueue (fun q => q ++ [data]) c in
      if nullish data then onmessage_catch raw c
      else
        match get_prop data "event" with
        | JStr event =>
            match listeners c !! event with
            | Some [] => c
            | Some (_ :: _) =>
                match spread (get_prop data "data") with
                | Some args => forEach event args c
                | None => onmessage_catch raw c
                end
            | None => c
            end
        | _ => c
        end
  | None => onmessage_catch raw c
  end.

(** [ws.onclose], lines 42-49. *)
Definition onclose (c : Client) : Client :=
  let c := log [JStr "Test client disconnected"] (with_connected false c) in
  match listeners c !! "disconnect" with
  | Some _ => forEach "disconnect" [] c
  | None => c
  end.



(** [clearMessageQueue] and [isConnected]. *)
Definition clearMessageQueue (c : Client) : Client :=
  with_messageQueue (fun _ => []) c.

Definition isConnected (c : Client) : bool := connected c.

(** What happens to a test client: the calls of its methods, the events
    of its socket, and its timeouts. *)
Inductive Op : Type :=
| Connect
| Open
| Message (raw : string)
| Close
| Emit (event : string) (args : list jsval)
| WaitForMessage (event : string)
| Timeout (p : nat)
| ClearMessageQueue.

Definition step (c : Client) (o : Op) : Client :=
  match o with
  | Connect => connect c
  | Open => onopen c
  | Message raw => onmessage raw c
  | Close => onclose c
  | Emit event args => emit event args c
  | WaitForMessage event => (waitForMessage event c).2
  | Timeout p => timeout p c
  | ClearMessageQueue => clearMessageQueue c
  end.

Definition run (ops : list Op) : Client := foldl step new_client ops.

(** The callbacks that one [forEach] calls, and the ones it passes
    over, when every callback takes itself out of the array: every
    second one, from the first on. *)
Fixpoint alternate (called : bool) (l : list nat) : list nat :=
  match l with
  | [] => []
  | p :: l' => if called then p :: alternate false l' else alternate true l'
  end.

(** What the [handler] of a call does to the call. *)
Definition served (args : list jsval) (w : Wait) : Wait :=
  resolve args (wait_with_timer false w).

Definition serve_all (args : list jsval) (ps : list nat) (ws : list Wait) : list Wait :=
  foldl (fun ws p => alter (served args) p ws) ws ps.

(** Every callback stands once in the list of the event of its call. *)
Definition client_inv (c : Client) : Prop :=
  forall ev l, listeners c !! ev = Some l ->
    NoDup l /\ forall p, p ∈ l -> exists w, waits c !! p = Some w /\ wait_event w = ev.

End TestClient.

(** * Proofs *)

(** ** The parser reads what the printer writes *)

Module JsonFacts.
Import Json.

Lemma length_append (s t : string) :
  String.length (s +:+ t) = String.length s + String.length t.
Proof. induction s as [|c s IH]; simpl; [reflexivity | now rewrite IH]. Qed.

(** **** String literals *)

Lemma parse_chars_escape (c : ascii) (r t rest : string) :
  parse_chars r = Some (t, rest) ->
  parse_chars (escape_char c r) = Some (String c t, rest).
Proof.
  intros H.
  destruct c as [[|] [|] [|] [|] [|] [|] [|] [|]]; simpl; rewrite H; reflexivity.
Qed.

Lemma parse_chars_quote (s k : string) :
  parse_chars (escape_to s (String "034"%char k)) = Some (s, k).
Proof.
  induction s as [|c s IH]; [reflexivity|].
  simpl. now apply parse_chars_escape.
Qed.

Lemma length_escape_char (c : ascii) (k : string) :
  S (String.length k) <= String.length (escape_char c k).
Proof.
  destruct c as [[|] [|] [|] [|] [|] [|] [|] [|]]; simpl; lia.
Qed.

Lemma length_escape_to (s k : string) :
  String.length k <= String.length (escape_to s k).
Proof.
  induction s as [|c s IH]; simpl; [lia|].
  pose proof (length_escape_char c (escape_to s k)). lia.
Qed.

(** **** Numbers *)

Lemma span_digits_uint (d : uint) (k : string) :
  delimited k = true ->
  span_digits (NilEmpty.string_of_uint d +:+ k) = (NilEmpty.string_of_uint d, k).
Proof.
  intros Hk. induction d; simpl; rewrite ?IHd; try reflexivity.
  destruct k as [|c k]; [reflexivity|]. simpl in *.
  now destruct (is_digit c).
Qed.

Lemma unorm_to_uint (n : N) : unorm (N.to_uint n) = N.to_uint n.
Proof. now rewrite <- DecimalN.Unsigned.to_of, DecimalN.Unsigned.of_to. Qed.

Lemma parse_digits_print (n : N) (k : string) :
  delimited k = true ->
  parse_digits (NilEmpty.string_of_uint (N.to_uint n) +:+ k) = Some (n, k).
Proof.
  intros Hk. unfold parse_digits.
  rewrite span_digits_uint by assumption.
  rewrite NilEmpty.usu, unorm_to_uint.
  rewrite (internal_uint_dec_lb _ _ eq_refl).
  now rewrite DecimalN.Unsigned.of_to.
Qed.

Lemma to_uint_head (n : N) :
  exists c r, NilEmpty.string_of_uint (N.to_uint n) = String c r /\ is_digit c = true.
Proof.
  pose proof (unorm_nonnil (N.to_uint n)) as Hn. rewrite unorm_to_uint in Hn.
  destruct (N.to_uint n); [congruence| ..]; simpl; eauto.
Qed.

Lemma digit_not_minus (c : ascii) : is_digit c = true -> Ascii.eqb c "-" = false.
Proof. destruct c as [[|] [|] [|] [|] [|] [|] [|] [|]]; vm_compute; congruence. Qed.

Lemma parse_number_nonneg (n : N) (k : string) :
  delimited k = true ->
  parse_number (NilEmpty.string_of_uint (N.to_uint n) +:+ k)
  = Some (JNum (Z.of_N n), k).
Proof.
  intros Hk. destruct (to_uint_head n) as (c & r & E & Hc).
  pose proof (parse_digits_print n k Hk) as Hd.
  rewrite E in *. change (String c r +:+ k) with (String c (r +:+ k)) in *.
  unfold parse_number. now rewrite (digit_not_minus c Hc), Hd.
Qed.

Lemma parse_number_print (z : Z) (k : string) :
  delimited k = true -> parse_number (print_Z z k) = Some (JNum z, k).
Proof.
  intros Hk. destruct z as [|p|p]; unfold print_Z.
  - now rewrite parse_number_nonneg.
  - now rewrite parse_number_nonneg.
  - unfold parse_number. rewrite Ascii.eqb_refl.
    now rewrite parse_digits_print.
Qed.

(** **** The first character of a printed value *)

Lemma print_Z_head (z : Z) (k : string) :
  exists c r, print_Z z k = String c r /\ (is_digit c || Ascii.eqb c "-") = true.
Proof.
  assert (forall n, exists c r,
    NilEmpty.string_of_uint (N.to_uint n) +:+ k = String c r
    /\ (is_digit c || Ascii.eqb c "-") = true) as Hn.
  { intros n. destruct (to_uint_head n) as (c & r & E & Hc).
    exists c, (r +:+ k). rewrite E, Hc. split; reflexivity. }
  destruct z as [|p|p]; unfold print_Z; [apply Hn | apply Hn |].
  eexists _, _. split; reflexivity.
Qed.

Lemma print_head (v : jsval) (k : string) :
  exists c r, print_to v k = String c r /\ value_start c = true.
Proof.
  destruct v as [| |[|]|z|s|l|fs]; try (eexists _, _; split; reflexivity).
  destruct (print_Z_head z k) as (c & r & E & Hc).
  exists c, r. split; [exact E|]. unfold value_start. now rewrite Hc.
Qed.

Lemma value_start_facts (c : ascii) :
  value_start c = true ->
  is_ws c = false /\ Ascii.eqb c "]" = false /\ Ascii.eqb c "}" = false
  /\ Ascii.eqb c "," = false.
Proof.
  destruct c as [[|] [|] [|] [|] [|] [|] [|] [|]]; vm_compute; intuition congruence.
Qed.

(** **** Unfolding the parser one step *)

Lemma parse_value_numeric (fuel : nat) (c : ascii) (r : string) :
  (is_digit c || Ascii.eqb c "-") = true ->
  parse_value (S fuel) (String c r) = parse_number (String c r).
Proof.
  intros H.
  destruct c as [[|] [|] [|] [|] [|] [|] [|] [|]];
    try (vm_compute in H; discriminate H); reflexivity.
Qed.

Lemma parse_elems_step (fuel : nat) (first : bool) (s : string) :
  parse_elems (S fuel) first s =
  match skip_ws s with
  | EmptyString => None
  | String c r =>
      if Ascii.eqb c "]" then Some ([], r)
      else if first then
        match parse_value fuel (String c r) with
        | Some (x, s1) =>
            match parse_elems fuel false s1 with
            | Some (l, rest) => Some (x :: l, rest)
            | None => None
            end
        | None => None
        end
      else if Ascii.eqb c "," then
        match parse_value fuel r with
        | Some (x, s1) =>
            match parse_elems fuel false s1 with
            | Some (l, rest) => Some (x :: l, rest)
            | None => None
            end
        | None => None
        end
      else None
  end.
Proof. reflexivity. Qed.

Lemma parse_members_step (fuel : nat) (first : bool) (s : string) :
  parse_members (S fuel) first s =
  match skip_ws s with
  | EmptyString => None
  | String c r =>
      if Ascii.eqb c "}" then Some ([], r)
      else if first then parse_member fuel (String c r)
      else if Ascii.eqb c "," then parse_member fuel r
      else None
  end.
Proof. reflexivity. Qed.

Lemma print_to_arr (l : list jsval) (k : string) :
  print_to (JArr l) k = String "[" (print_elems k true l).
Proof. reflexivity. Qed.

Lemma print_to_obj (fs : list (string * jsval)) (k : string) :
  print_to (JObj fs) k = String "{" (print_members k true fs).
Proof. reflexivity. Qed.

Lemma print_elems_cons (k : string) (first : bool) (x : jsval) (l : list jsval) :
  print_elems k first (x :: l) =
  if first then print_to x (print_elems k false l)
  else String "," (print_to x (print_elems k false l)).
Proof. reflexivity. Qed.

Lemma print_members_cons (k : string) (first : bool) (key : string) (x : jsval)
  (fs : list (string * jsval)) :
  is_undefined x = false ->
  print_members k first ((key, x) :: fs) =
  if first then quote_to key (String ":" (print_to x (print_members k false fs)))
  else String "," (quote_to key (String ":" (print_to x (print_members k false fs)))).
Proof. intros H. simpl. now rewrite H. Qed.

Lemma depth_arr (l : list jsval) : depth (JArr l) = S (depth_elems l).
Proof. reflexivity. Qed.

Lemma depth_obj (fs : list (string * jsval)) : depth (JObj fs) = S (depth_members fs).
Proof. reflexivity. Qed.

Lemma delimited_elems (k : string) (l : list jsval) :
  delimited (print_elems k false l) = true.
Proof. destruct l; reflexivity. Qed.

Lemma delimited_members (k : string) (fs : list (string * jsval)) :
  Forall (fun kv => is_undefined (snd kv) = false) fs ->
  delimited (print_members k false fs) = true.
Proof.
  intros H. destruct H as [|[key x] fs Hx Hfs]; [reflexivity|].
  simpl in Hx. now rewrite print_members_cons.
Qed.

Lemma serializable_defined (v : jsval) :
  serializable v = true -> is_undefined v = false.
Proof. now destruct v. Qed.

(** **** Objects built from distinct members *)

Lemma obj_set_fresh (k : string) (v : jsval) (acc : list (string * jsval)) :
  existsb (String.eqb k) (map fst acc) = false ->
  obj_set k v acc = (acc ++ [(k, v)])%list.
Proof.
  induction acc as [|[k' v'] acc IH]; simpl; [reflexivity|].
  intros H. apply orb_false_iff in H as [-> H]. now rewrite IH.
Qed.

Lemma obj_of_members_distinct (ms : list (string * jsval)) :
  distinct (map fst ms) = true -> obj_of_members ms = ms.
Proof.
  unfold obj_of_members.
  enough (forall acc,
    distinct (map fst (acc ++ ms)%list) = true ->
    fold_left (fun a kv => obj_set (fst kv) (snd kv) a) ms acc = (acc ++ ms)%list) as H
    by (intros Hd; exact (H [] Hd)).
  induction ms as [|[k v] ms IH]; intros acc Hd; simpl.
  - now rewrite app_nil_r.
  - rewrite obj_set_fresh.
    + rewrite IH; rewrite <- app_assoc; [reflexivity | exact Hd].
    + clear IH. induction acc as [|[k' v'] acc IHacc]; [reflexivity|].
      simpl in Hd. apply andb_true_iff in Hd as [Hk Hd].
      simpl. rewrite (IHacc Hd), orb_false_r.
      apply negb_true_iff in Hk. rewrite map_app, existsb_app in Hk.
      apply orb_false_iff in Hk as [_ Hk]. simpl in Hk.
      apply orb_false_iff in Hk as [Hk _].
      now rewrite String.eqb_sym.
Qed.

(** **** Parsing a printed value *)

Lemma parse_value_start (v : jsval) (k : string) :
  exists c r, print_to v k = String c r /\ is_ws c = false
    /\ Ascii.eqb c "]" = false /\ Ascii.eqb c "}" = false.
Proof.
  destruct (print_head v k) as (c & r & E & Hc).
  destruct (value_start_facts c Hc) as (? & ? & ? & _). eauto 10.
Qed.

Lemma parse_print_elems (k : string) (l : list jsval) :
  Forall (fun v => serializable v = true ->
            forall fuel k, depth v <= fuel -> delimited k = true ->
            parse_value fuel (print_to v k) = Some (v, k)) l ->
  forallb serializable l = true ->
  forall fuel first, depth_elems l <= fuel ->
  parse_elems fuel first (print_elems k first l) = Some (l, k).
Proof.
  induction 1 as [|x l Hx _ IH]; intros Hs fuel first Hfuel.
  - destruct fuel as [|fuel]; [simpl in Hfuel; lia|]. reflexivity.
  - simpl in Hs. apply andb_true_iff in Hs as [Hsx Hsl].
    destruct fuel as [|fuel]; [simpl in Hfuel; lia|].
    simpl in Hfuel.
    assert (parse_value fuel (print_to x (print_elems k false l))
            = Some (x, print_elems k false l)) as Ex
      by (apply Hx; [assumption | lia | apply delimited_elems]).
    assert (parse_elems fuel false (print_elems k false l) = Some (l, k)) as El
      by (apply IH; [assumption | lia]).
    rewrite parse_elems_step, print_elems_cons.
    destruct first.
    + destruct (parse_value_start x (print_elems k false l))
        as (c & r & E & Hws & Hc & _).
      rewrite E in *. simpl skip_ws. rewrite Hws, Hc, Ex, El. reflexivity.
    + simpl. now rewrite Ex, El.
Qed.

Lemma parse_print_members (k : string) (fs : list (string * jsval)) :
  Forall (fun kv => serializable (snd kv) = true ->
            forall fuel k, depth (snd kv) <= fuel -> delimited k = true ->
            parse_value fuel (print_to (snd kv) k) = Some (snd kv, k)) fs ->
  forallb (fun kv => serializable (snd kv)) fs = true ->
  forall fuel first, depth_members fs <= fuel ->
  parse_members fuel first (print_members k first fs) = Some (fs, k).
Proof.
  induction 1 as [|[key x] fs Hx _ IH]; intros Hs fuel first Hfuel.
  - destruct fuel as [|fuel]; [simpl in Hfuel; lia|]. reflexivity.
  - simpl in Hs. apply andb_true_iff in Hs as [Hsx Hsl].
    destruct fuel as [|fuel]; [simpl in Hfuel; lia|].
    simpl in Hfuel, Hx.
    assert (Forall (fun kv => is_undefined (snd kv) = false) fs) as Hdef.
    { apply Forall_forall. intros kv Hin. apply serializable_defined.
      rewrite forallb_forall in Hsl. apply Hsl.
      now apply list_elem_of_In. }
    assert (parse_value fuel (print_to x (print_members k false fs))
            = Some (x, print_members k false fs)) as Ex
      by (apply Hx; [assumption | lia | now apply delimited_members]).
    assert (parse_members fuel false (print_members k false fs) = Some (fs, k)) as El
      by (apply IH; [assumption | lia]).
    assert (parse_member fuel
              (quote_to key (String ":" (print_to x (print_members k false fs))))
            = Some ((key, x) :: fs, k)) as Em.
    { unfold parse_member, quote_to. simpl skip_ws. simpl Ascii.eqb.
      cbv iota. rewrite parse_chars_quote. simpl skip_ws. simpl Ascii.eqb.
      cbv iota. now rewrite Ex, El. }
    rewrite parse_members_step, print_members_cons
      by now apply serializable_defined.
    destruct first; [exact Em|]. simpl. exact Em.
Qed.

Theorem parse_print (v : jsval) :
  serializable v = true ->
  forall fuel k, depth v <= fuel -> delimited k = true ->
  parse_value fuel (print_to v k) = Some (v, k).
Proof.
  induction v as [| |b|z|s|l IH|fs IH] using jsval_ind;
    intros Hs fuel k Hfuel Hk;
    (destruct fuel as [|fuel]; [simpl in Hfuel; lia|]).
  - discriminate Hs.
  - reflexivity.
  - now destruct b.
  - simpl print_to.
    destruct (print_Z_head z k) as (c & r & E & Hc).
    rewrite E, parse_value_numeric, <- E by assumption.
    now apply parse_number_print.
  - simpl. unfold quote_to. simpl. now rewrite parse_chars_quote.
  - rewrite print_to_arr. rewrite depth_arr in Hfuel.
    change (parse_value (S fuel) (String "[" (print_elems k true l)))
      with (match parse_elems fuel true (print_elems k true l) with
            | Some (l, rest) => Some (JArr l, rest)
            | None => None
            end).
    rewrite (parse_print_elems k l IH) by (assumption || lia). reflexivity.
  - rewrite print_to_obj. rewrite depth_obj in Hfuel.
    simpl in Hs. apply andb_true_iff in Hs as [Hd Hs].
    change (parse_value (S fuel) (String "{" (print_members k true fs)))
      with (match parse_members fuel true (print_members k true fs) with
            | Some (ms, rest) => Some (JObj (obj_of_members ms), rest)
            | None => None
            end).
    rewrite (parse_print_members k fs IH) by (assumption || lia).
    now rewrite obj_of_members_distinct.
Qed.

(** **** The text is long enough to serve as fuel *)

Lemma depth_pos (v : jsval) : 1 <= depth v.
Proof. destruct v; simpl; lia. Qed.

Lemma length_print_Z (z : Z) (k : string) :
  S (String.length k) <= String.length (print_Z z k).
Proof.
  assert (forall n, S (String.length k)
    <= String.length (NilEmpty.string_of_uint (N.to_uint n) +:+ k)) as Hn.
  { intros n. destruct (to_uint_head n) as (c & r & E & _).
    rewrite E. simpl. rewrite length_append. lia. }
  destruct z as [|p|p]; unfold print_Z; try apply Hn.
  specialize (Hn (N.pos p)). cbn [String.length]. lia.
Qed.

Lemma length_quote_to (s k : string) :
  2 + String.length k <= String.length (quote_to s k).
Proof.
  unfold quote_to. simpl.
  pose proof (length_escape_to s (String "034"%char k)) as H. simpl in H. lia.
Qed.

Lemma depth_le_length (v : jsval) :
  serializable v = true ->
  forall k, depth v + String.length k <= String.length (print_to v k).
Proof.
  induction v as [| |b|z|s|l IH|fs IH] using jsval_ind; intros Hs k.
  - discriminate Hs.
  - cbn [depth print_to]. rewrite length_append. simpl. lia.
  - destruct b; cbn [depth print_to]; rewrite length_append; simpl; lia.
  - simpl. pose proof (length_print_Z z k). lia.
  - simpl depth. simpl print_to. pose proof (length_quote_to s k). lia.
  - rewrite print_to_arr, depth_arr. simpl String.length.
    enough (forall first, depth_elems l + String.length k
                          <= String.length (print_elems k first l)) as H
      by (specialize (H true); lia).
    simpl in Hs. induction IH as [|x l Hx _ IHl]; intros first; [simpl; lia|].
    simpl in Hs. apply andb_true_iff in Hs as [Hsx Hsl].
    specialize (IHl Hsl false). specialize (Hx Hsx (print_elems k false l)).
    rewrite print_elems_cons.
    change (depth_elems (x :: l)) with (S (Nat.max (depth x) (depth_elems l))).
    pose proof (depth_pos x).
    assert (1 <= depth_elems l) by (destruct l; simpl; lia).
    destruct first; simpl String.length; lia.
  - rewrite print_to_obj, depth_obj. simpl String.length.
    simpl in Hs. apply andb_true_iff in Hs as [_ Hs].
    enough (forall first, depth_members fs + String.length k
                          <= String.length (print_members k first fs)) as H
      by (specialize (H true); lia).
    induction IH as [|[key x] fs Hx _ IHl]; intros first; [simpl; lia|].
    simpl in Hs, Hx. apply andb_true_iff in Hs as [Hsx Hsl].
    specialize (IHl Hsl false). specialize (Hx Hsx (print_members k false fs)).
    rewrite print_members_cons by now apply serializable_defined.
    change (depth_members ((key, x) :: fs))
      with (S (Nat.max (depth x) (depth_members fs))).
    pose proof (depth_pos x).
    assert (1 <= depth_members fs) by (destruct fs; simpl; lia).
    pose proof (length_quote_to key
      (String ":" (print_to x (print_members k false fs)))) as Hq.
    simpl String.length in Hq.
    destruct first; simpl String.length; lia.
Qed.

(** [JSON.parse (JSON.stringify v)] gives [v] back. *)
Theorem parse_stringify (v : jsval) :
  serializable v = true -> parse (stringify v) = Some v.
Proof.
  intros Hs. unfold parse, stringify.
  rewrite (parse_print v Hs _ "") ; [reflexivity| |reflexivity].
  pose proof (depth_le_length v Hs ""). lia.
Qed.

End JsonFacts.

Import JsonFacts.

(** ** Frame properties: what an operation leaves alone *)

Lemma hub_same_refl w : hub_same w w.
Proof. by repeat split. Qed.

Lemma hub_same_trans w1 w2 w3 : hub_same w1 w2 -> hub_same w2 w3 -> hub_same w1 w3.
Proof. intros (?&?&?) (?&?&?). repeat split; congruence. Qed.

Lemma foldl_invariant {A B} (P : A -> Prop) (f : A -> B -> A) (l : list B) (a : A) :
  P a -> (forall a b, P a -> P (f a b)) -> P (foldl f a l).
Proof. intros Ha Hf. revert a Ha. induction l; simpl; auto. Qed.

Lemma foldl_hub_same {B} (f : World -> B -> World) (l : list B) (w : World) :
  (forall w b, hub_same w (f w b)) -> hub_same w (foldl f w l).
Proof.
  intros Hf. apply (foldl_invariant (hub_same w)); [apply hub_same_refl|].
  intros a b Ha. eapply hub_same_trans; [exact Ha | apply Hf].
Qed.

Lemma hub_same_log line w : hub_same w (log line w).
Proof. by repeat split. Qed.

Lemma hub_same_deliver id f w : hub_same w (deliver id f w).
Proof. unfold deliver. destruct (clients w !! id); by repeat split. Qed.

Lemma hub_same_socket_emit id ev args w : hub_same w (socket_emit id ev args w).
Proof. apply hub_same_deliver. Qed.

Lemma hub_same_broadcast room f ex w : hub_same w (broadcast room f ex w).
Proof. unfold broadcast. apply foldl_hub_same. intros. apply hub_same_deliver. Qed.

Lemma hub_same_to_emit id room ev args w : hub_same w (to_emit id room ev args w).
Proof. apply hub_same_broadcast. Qed.

Lemma hub_same_broadcastAll m w : hub_same w (broadcastAll m w).
Proof. apply hub_same_broadcast. Qed.

Lemma hub_same_run_listener l p w : hub_same w (run_listener l p w).
Proof.
  unfold run_listener. repeat case_match; try apply hub_same_refl.
  apply hub_same_socket_emit.
Qed.

Lemma hub_same_emitter_emit ev p w : hub_same w (emitter_emit ev p w).
Proof.
  unfold emitter_emit.
  eapply hub_same_trans; [|apply foldl_hub_same; intros; apply hub_same_run_listener].
  by repeat split.
Qed.

Lemma hub_same_conn_update ref f w : hub_same w (conn_update ref f w).
Proof. by repeat split. Qed.

Lemma hub_same_register_event u c w ev : hub_same w (register_event u c w ev).
Proof. by repeat split. Qed.

Lemma hub_same_unregister_event u c w ev : hub_same w (unregister_event u c w ev).
Proof. by repeat split. Qed.

Lemma hub_same_createLive_catch u err w : hub_same w (world_of (createLive_catch u err w)).
Proof.
  unfold createLive_catch. simpl.
  eapply hub_same_trans; [eapply hub_same_log|apply hub_same_emitter_emit].
Qed.

Lemma hub_same_createLive_settle evs u c o w :
  hub_same w (world_of (createLive_settle evs u c o w)).
Proof.
  unfold createLive_settle. destruct o as [state|err].
  - simpl. eapply hub_same_trans; [eapply (hub_same_conn_update c)|].
    eapply hub_same_trans; [apply hub_same_log|].
    eapply hub_same_trans; [apply hub_same_emitter_emit|].
    apply foldl_hub_same. intros. apply hub_same_register_event.
  - eapply hub_same_trans; [eapply (hub_same_conn_update c)|].
    apply hub_same_createLive_catch.
Qed.

Lemma hub_same_settle evs u c o w :
  hub_same w (world_of (createLiveIfNotExist_settle evs u c o w)).
Proof.
  unfold createLiveIfNotExist_settle.
  pose proof (hub_same_createLive_settle evs u c o w) as H.
  destruct (createLive_settle evs u c o w); simpl in *; [|exact H].
  eapply hub_same_trans; [exact H|]. by repeat split.
Qed.

Lemma hub_same_disconnectLive evs u w : hub_same w (disconnectLive evs u w).
Proof.
  unfold disconnectLive. destruct (getLive u w); [|apply hub_same_refl].
  eapply hub_same_trans; [|apply foldl_hub_same; intros; apply hub_same_unregister_event].
  eapply hub_same_trans; [|apply hub_same_emitter_emit]. by repeat split.
Qed.

Lemma hub_same_webcast c ev p w : hub_same w (webcast c ev p w).
Proof.
  unfold webcast. destruct (conns w !! c); [|apply hub_same_refl].
  apply foldl_hub_same. intros. apply hub_same_emitter_emit.
Qed.

Lemma hub_same_subscribe id u w : hub_same w (subscribe id u w).
Proof. by repeat split. Qed.

Lemma hub_same_settle_task evs i o w : hub_same w (settle_task evs i o w).
Proof.
  unfold settle_task. destruct (pending w !! i) as [t|]; [|apply hub_same_refl].
  pose proof (hub_same_settle evs (task_user t) (task_conn t) o
                (with_pending (delete i) w)) as H.
  destruct (createLiveIfNotExist_settle _ _ _ _ _); simpl in H.
  - eapply hub_same_trans; [|apply hub_same_subscribe].
    eapply hub_same_trans; [|exact H]. by repeat split.
  - eapply hub_same_trans; [|exact H]. by repeat split.
Qed.

(** ** Room membership *)

Lemma members_of_join id room w r :
  members_of r (join id room w)
  = if decide (r = room) then {[id]} ∪ members_of room w else members_of r w.
Proof.
  unfold members_of at 1. unfold join. simpl.
  case_decide.
  - subst. by rewrite lookup_insert_eq.
  - by rewrite lookup_insert_ne.
Qed.

Lemma members_of_leave id room w r :
  members_of r (leave id room w)
  = if decide (r = room) then members_of room w ∖ {[id]} else members_of r w.
Proof.
  unfold members_of at 1. unfold leave. simpl.
  destruct (decide (r = room)) as [->|E].
  - destruct (decide (members_of room w ∖ {[id]} = ∅)) as [Hm|Hm].
    + by rewrite lookup_delete_eq, Hm.
    + by rewrite lookup_insert_eq.
  - case_decide; [by rewrite lookup_delete_ne | by rewrite lookup_insert_ne].
Qed.

Lemma members_of_leave_all id w r :
  members_of r (leave_all id w) = members_of r w ∖ {[id]}.
Proof.
  unfold members_of, leave_all. simpl. rewrite lookup_omap.
  destruct (rooms w !! r) as [m|]; simpl.
  - destruct (decide (m ∖ {[id]} = ∅)) as [Hm|Hm]; simpl; [by rewrite Hm | done].
  - set_solver.
Qed.

Lemma clients_join id room w :
  clients (join id room w)
  = alter (sock_with_rooms (fun rs => {[room]} ∪ rs)) id (clients w).
Proof. reflexivity. Qed.

Lemma clients_leave id room w :
  clients (leave id room w)
  = alter (sock_with_rooms (fun rs => rs ∖ {[room]})) id (clients w).
Proof. reflexivity. Qed.

(** ** The invariant of the hub *)

Lemma hub_inv_same w w' : hub_same w w' -> hub_inv w -> hub_inv w'.
Proof.
  intros (Hc & Hr & Hn) [H1 H2 H3]. split.
  - intros room. unfold members_of. rewrite Hr, Hc. apply H1.
  - intros id. rewrite Hc, Hn. apply H2.
  - intros id s. rewrite Hc. apply H3.
Qed.

Lemma hub_inv_init : hub_inv init.
Proof.
  split.
  - intros room. unfold members_of. simpl. rewrite lookup_empty. set_solver.
  - intros id. simpl. set_solver.
  - intros id s. simpl. by rewrite lookup_empty.
Qed.

Lemma hub_inv_join id room w :
  id ∈ dom (clients w) -> hub_inv w -> hub_inv (join id room w).
Proof.
  intros Hid [H1 H2 H3]. split.
  - intros r. rewrite members_of_join, clients_join, dom_alter_L.
    case_decide; [|apply H1]. pose proof (H1 room). set_solver.
  - intros i. rewrite clients_join, dom_alter_L. apply H2.
  - intros i s. rewrite clients_join, lookup_alter. case_decide.
    + subst. destruct (clients w !! i) as [s0|] eqn:E; simpl; [|done].
      intros [= <-]. simpl. by apply (H3 i).
    + apply H3.
Qed.

Lemma hub_inv_leave id room w : hub_inv w -> hub_inv (leave id room w).
Proof.
  intros [H1 H2 H3]. split.
  - intros r. rewrite members_of_leave, clients_leave, dom_alter_L.
    case_decide; [|apply H1]. pose proof (H1 room). set_solver.
  - intros i. rewrite clients_leave, dom_alter_L. apply H2.
  - intros i s. rewrite clients_leave, lookup_alter. case_decide.
    + subst. destruct (clients w !! i) as [s0|] eqn:E; simpl; [|done].
      intros [= <-]. simpl. by apply (H3 i).
    + apply H3.
Qed.

Lemma clients_handleOpen w :
  clients (handleOpen w).2
  = <[fresh_id (next_id w) :=
        {| sock_id := fresh_id (next_id w);
           sock_rooms := {["general"]} ∪ ∅;
           sock_handlers := app_handlers |}]> (clients w).
Proof.
  unfold handleOpen, register, on_connection, socket_on, join, log. simpl.
  rewrite !alter_insert_eq. reflexivity.
Qed.

Lemma rooms_handleOpen w :
  rooms (handleOpen w).2
  = <["general" := {[fresh_id (next_id w)]} ∪ members_of "general" w]> (rooms w).
Proof. reflexivity. Qed.

Lemma next_id_handleOpen w : next_id (handleOpen w).2 = N.succ (next_id w).
Proof. reflexivity. Qed.

Lemma members_of_handleOpen w r :
  members_of r (handleOpen w).2
  = if decide (r = "general")
    then {[fresh_id (next_id w)]} ∪ members_of "general" w
    else members_of r w.
Proof.
  unfold members_of at 1. rewrite rooms_handleOpen.
  case_decide; [subst; by rewrite lookup_insert_eq | by rewrite lookup_insert_ne].
Qed.

Lemma hub_inv_handleOpen w : hub_inv w -> hub_inv (handleOpen w).2.
Proof.
  intros [H1 H2 H3]. split.
  - intros r. rewrite members_of_handleOpen, clients_handleOpen, dom_insert_L.
    case_decide; [pose proof (H1 "general") | pose proof (H1 r)]; set_solver.
  - intros i. rewrite clients_handleOpen, dom_insert_L, next_id_handleOpen.
    intros [Hi|Hi]%elem_of_union.
    + apply elem_of_singleton in Hi. exists (next_id w). split; [lia | done].
    + destruct (H2 i Hi) as (k & Hk & ->). exists k. split; [lia | done].
  - intros i s. rewrite clients_handleOpen.
    destruct (decide (fresh_id (next_id w) = i)) as [<-|E].
    + rewrite lookup_insert_eq. by intros [= <-].
    + rewrite lookup_insert_ne by done. apply H3.
Qed.

(** ** The handlers of index.ts and the hub *)

Lemma hub_same_begin u w :
  hub_same w (match createLiveIfNotExist_begin u w with
              | Done w' => w'
              | Awaiting _ w' => w'
              end).
Proof.
  unfold createLiveIfNotExist_begin.
  destruct (CurrentLiveMap w !! u); by repeat split.
Qed.

Lemma hub_same_run_handler h id args w :
  h <> OnJoinRoom -> hub_same w (world_of (run_handler h id args w)).
Proof.
  intros Hh. destruct h; try done; simpl; try apply hub_same_log.
  - eapply hub_same_trans; [|apply hub_same_to_emit].
    eapply hub_same_trans; [|apply hub_same_socket_emit]. apply hub_same_log.
  - destruct (nullish (arg 0 args)); [apply hub_same_refl|].
    repeat case_match; simpl; apply hub_same_socket_emit.
  - destruct (arg 0 args); try apply hub_same_refl.
    pose proof (hub_same_begin s (log [JStr "live:tiktok"; JStr s] w)) as H.
    destruct (createLiveIfNotExist_begin _ _); simpl.
    + eapply hub_same_trans; [|apply hub_same_subscribe].
      eapply hub_same_trans; [apply hub_same_log | exact H].
    + eapply hub_same_trans; [apply hub_same_log|].
      eapply hub_same_trans; [exact H | by repeat split].
Qed.

Lemma dom_clients_run_handler h id args w :
  dom (clients (world_of (run_handler h id args w))) = dom (clients w).
Proof.
  destruct (decide (h = OnJoinRoom)) as [->|Hh].
  - simpl. destruct (arg 0 args); try done. simpl.
    match goal with |- context [to_emit ?a ?b ?c ?d ?w0] =>
      destruct (hub_same_to_emit a b c d w0) as (-> & _) end.
    match goal with |- context [socket_emit ?a ?b ?c ?w0] =>
      destruct (hub_same_socket_emit a b c w0) as (-> & _) end.
    by rewrite clients_join, dom_alter_L, clients_leave, dom_alter_L.
  - by destruct (hub_same_run_handler h id args w Hh) as (-> & _).
Qed.

Lemma hub_inv_run_handler h id args w :
  id ∈ dom (clients w) -> hub_inv w -> hub_inv (world_of (run_handler h id args w)).
Proof.
  intros Hid Hw. destruct (decide (h = OnJoinRoom)) as [->|Hh].
  - simpl. destruct (arg 0 args); try done. simpl.
    eapply hub_inv_same; [apply hub_same_to_emit|].
    eapply hub_inv_same; [apply hub_same_socket_emit|].
    apply hub_inv_join; [|by apply hub_inv_leave].
    by rewrite clients_leave, dom_alter_L.
  - eapply hub_inv_same; [by apply hub_same_run_handler | done].
Qed.

Lemma run_handlers_invariant (P : World -> Prop) hs id args w :
  (forall h w, P w -> P (world_of (run_handler h id args w))) ->
  P w -> P (world_of (run_handlers hs id args w)).
Proof.
  intros Hstep. revert w. induction hs as [|h hs IH]; intros w Hw; [done|].
  simpl. specialize (Hstep h w Hw).
  destruct (run_handler h id args w); simpl in *; [by apply IH | done].
Qed.

Lemma hub_inv_run_handlers hs id args w :
  id ∈ dom (clients w) -> hub_inv w ->
  hub_inv (world_of (run_handlers hs id args w))
  /\ dom (clients (world_of (run_handlers hs id args w))) = dom (clients w).
Proof.
  intros Hid Hw.
  apply (run_handlers_invariant
           (fun w' => hub_inv w' /\ dom (clients w') = dom (clients w))); [|done].
  intros h w' [Hw' Hd]. split.
  - apply hub_inv_run_handler; [by rewrite Hd | done].
  - by rewrite dom_clients_run_handler.
Qed.

Lemma hub_inv_handleMessage id raw w :
  hub_inv w -> hub_inv (world_of (handleMessage id raw w)).
Proof.
  intros Hw. unfold handleMessage.
  destruct (clients w !! id) eqn:E; [|done].
  destruct (decode raw); [|done].
  apply hub_inv_run_handlers; [|done]. apply elem_of_dom. by eexists.
Qed.

Lemma world_of_handleClose id w :
  world_of (handleClose id w)
  = match clients w !! id with
    | Some _ =>
        remove id (leave_all id
          (world_of (run_handlers (handlers_for id "disconnect" w) id [] w)))
    | None => w
    end.
Proof.
  unfold handleClose. destruct (clients w !! id); [|done].
  by destruct (run_handlers _ _ _ _).
Qed.

Lemma hub_inv_remove id w : hub_inv w -> hub_inv (remove id (leave_all id w)).
Proof.
  intros [H1 H2 H3]. split.
  - intros r. unfold remove. simpl. rewrite dom_delete_L.
    change (members_of r (with_clients (delete id) (leave_all id w)))
      with (members_of r (leave_all id w)).
    rewrite members_of_leave_all. pose proof (H1 r). set_solver.
  - intros i. simpl. rewrite dom_delete_L. intros Hi. apply H2. set_solver.
  - intros i s. simpl. intros Hi. apply lookup_delete_Some in Hi as [_ Hi].
    by apply (H3 i).
Qed.

Lemma hub_inv_handleClose id w :
  hub_inv w -> hub_inv (world_of (handleClose id w)).
Proof.
  intros Hw. rewrite world_of_handleClose.
  destruct (clients w !! id) eqn:E; [|done].
  apply hub_inv_remove, hub_inv_run_handlers; [|done].
  apply elem_of_dom. by eexists.
Qed.

Lemma hub_inv_step evs w e : hub_inv w -> hub_inv (step evs w e).
Proof.
  intros Hw. destruct e; simpl.
  - by apply hub_inv_handleOpen.
  - by apply hub_inv_handleMessage.
  - by apply hub_inv_handleClose.
  - eapply hub_inv_same; [apply hub_same_broadcastAll | done].
  - eapply hub_inv_same; [apply hub_same_settle_task | done].
  - eapply hub_inv_same; [apply hub_same_webcast | done].
  - eapply hub_inv_same; [apply hub_same_disconnectLive | done].
Qed.

Lemma run_snoc evs tr e : run evs (tr ++ [e]) = step evs (run evs tr) e.
Proof. unfold run. by rewrite foldl_snoc. Qed.

Lemma hub_inv_run evs tr : hub_inv (run evs tr).
Proof.
  induction tr as [|e tr IH] using rev_ind; [apply hub_inv_init|].
  rewrite run_snoc. by apply hub_inv_step.
Qed.

(** ** Writes to the transports *)

Lemma with_wire_nil w : with_wire (fun l => l ++ []) w = w.
Proof. destruct w. unfold with_wire. simpl. by rewrite app_nil_r. Qed.

Lemma with_wire_app l1 l2 w :
  with_wire (fun l => l ++ l2) (with_wire (fun l => l ++ l1) w)
  = with_wire (fun l => l ++ (l1 ++ l2)) w.
Proof. destruct w. unfold with_wire. simpl. by rewrite app_assoc. Qed.

Lemma deliver_wire id frame w :
  deliver id frame w
  = with_wire (fun l => l ++ (if decide (is_Some (clients w !! id))
                              then [(id, frame)] else [])) w.
Proof.
  unfold deliver. destruct (clients w !! id) eqn:E.
  - rewrite decide_True; [done | by eexists].
  - rewrite decide_False; [by rewrite with_wire_nil | by intros [? ?]].
Qed.

Lemma foldl_deliver frame ids w :
  foldl (fun w id => deliver id frame w) w ids
  = with_wire
      (fun l => l ++ ((fun m => (m, frame))
                        <$> filter (fun m => is_Some (clients w !! m)) ids)) w.
Proof.
  revert w. induction ids as [|a ids IH]; intros w; simpl.
  - by rewrite with_wire_nil.
  - rewrite IH, deliver_wire. simpl clients. rewrite with_wire_app.
    rewrite filter_cons. by destruct (decide (is_Some (clients w !! a))).
Qed.

Lemma broadcast_wire room frame ex w :
  broadcast room frame ex w
  = with_wire
      (fun l => l ++ ((fun m => (m, frame))
         <$> filter (fun m => is_Some (clients w !! m))
               (elements (match ex with
                          | Some id => members_of room w ∖ {[id]}
                          | None => members_of room w
                          end)))) w.
Proof. unfold broadcast. by rewrite foldl_deliver. Qed.

Lemma filter_all {A} (P : A -> Prop) `{forall x, Decision (P x)} (l : list A) :
  (forall x, x ∈ l -> P x) -> filter P l = l.
Proof.
  induction l as [|a l IH]; intros Hl; [done|].
  rewrite filter_cons, decide_True by (apply Hl; left).
  f_equal. apply IH. intros x Hx. apply Hl. by right.
Qed.

Lemma broadcast_wire_inv room frame ex w :
  hub_inv w ->
  broadcast room frame ex w
  = with_wire
      (fun l => l ++ ((fun m => (m, frame))
         <$> elements (match ex with
                       | Some id => members_of room w ∖ {[id]}
                       | None => members_of room w
                       end))) w.
Proof.
  intros Hw. rewrite broadcast_wire. rewrite filter_all; [done|].
  intros m Hm%elem_of_elements. apply elem_of_dom.
  apply (inv_members w Hw room). destruct ex; set_solver.
Qed.

(** ** Closing a socket *)

Lemma handlers_for_inv id ev w :
  hub_inv w -> is_Some (clients w !! id) ->
  handlers_for id ev w = default [] (app_handlers !! ev).
Proof.
  intros Hw [s Hs]. unfold handlers_for. rewrite Hs.
  by rewrite (inv_handlers w Hw id s Hs).
Qed.

Lemma handleClose_open id w :
  hub_inv w -> is_Some (clients w !! id) ->
  handleClose id w
  = Ok tt (remove id (leave_all id (log [JStr ("Client disconnected: " +:+ id)] w))).
Proof.
  intros Hw Hid. unfold handleClose.
  rewrite (handlers_for_inv id "disconnect" w Hw Hid).
  destruct Hid as [s ->]. reflexivity.
Qed.

Lemma handleClose_closed id w :
  clients w !! id = None -> handleClose id w = Ok tt w.
Proof. intros H. unfold handleClose. by rewrite H. Qed.

Lemma clients_after_close id w : clients (world_of (handleClose id w)) !! id = None.
Proof.
  rewrite world_of_handleClose. destruct (clients w !! id) eqn:E; [|done].
  simpl. apply lookup_delete_eq.
Qed.

Lemma members_after_close id w room :
  hub_inv w -> id ∉ members_of room (world_of (handleClose id w)).
Proof.
  intros Hw. pose proof (hub_inv_handleClose id w Hw) as Hw'.
  intros Hin. apply (inv_members _ Hw' room) in Hin.
  apply elem_of_dom in Hin. rewrite clients_after_close in Hin.
  by destruct Hin.
Qed.

(** ** Identifiers are not reused *)

Lemma registry_run_handler h id args w :
  dom (clients (world_of (run_handler h id args w))) = dom (clients w)
  /\ next_id (world_of (run_handler h id args w)) = next_id w.
Proof.
  split; [apply dom_clients_run_handler|].
  destruct (decide (h = OnJoinRoom)) as [->|Hh].
  - simpl. destruct (arg 0 args); try done. simpl.
    match goal with |- context [to_emit ?a ?b ?c ?d ?w0] =>
      destruct (hub_same_to_emit a b c d w0) as (_ & _ & ->) end.
    match goal with |- context [socket_emit ?a ?b ?c ?w0] =>
      destruct (hub_same_socket_emit a b c w0) as (_ & _ & ->) end.
    reflexivity.
  - by destruct (hub_same_run_handler h id args w Hh) as (_ & _ & ->).
Qed.

Lemma registry_run_handlers hs id args w :
  dom (clients (world_of (run_handlers hs id args w))) = dom (clients w)
  /\ next_id (world_of (run_handlers hs id args w)) = next_id w.
Proof.
  apply (run_handlers_invariant
           (fun w' => dom (clients w') = dom (clients w)
                      /\ next_id w' = next_id w)); [|done].
  intros h w' [Hd Hn]. destruct (registry_run_handler h id args w') as [-> ->].
  done.
Qed.

Lemma registry_step evs w e :
  (next_id w <= next_id (step evs w e))%N
  /\ dom (clients (step evs w e)) ⊆ dom (clients w) ∪ {[fresh_id (next_id w)]}.
Proof.
  assert (forall w', hub_same w w' ->
            (next_id w <= next_id w')%N
            /\ dom (clients w') ⊆ dom (clients w) ∪ {[fresh_id (next_id w)]}) as Hsame.
  { intros w' (-> & _ & ->). split; [lia | set_solver]. }
  destruct e; cbn [step].
  - rewrite clients_handleOpen, dom_insert_L, next_id_handleOpen.
    split; [lia | set_solver].
  - unfold handleMessage. destruct (clients w !! id); [|cbn [world_of]; split; [lia | set_solver]].
    destruct (decode raw); [|cbn [world_of]; split; [lia | set_solver]].
    destruct (registry_run_handlers (handlers_for id (event e) w) id
                (arguments (data e)) w) as [-> ->].
    split; [lia | set_solver].
  - rewrite world_of_handleClose. destruct (clients w !! id); [|cbn [world_of]; split; [lia | set_solver]].
    cbn [remove leave_all with_clients with_rooms clients next_id].
    rewrite dom_delete_L.
    destruct (registry_run_handlers (handlers_for id "disconnect" w) id [] w)
      as [-> ->].
    split; [lia | set_solver].
  - apply Hsame, hub_same_broadcastAll.
  - apply Hsame, hub_same_settle_task.
  - apply Hsame, hub_same_webcast.
  - apply Hsame, hub_same_disconnectLive.
Qed.




(** ** Observations that an operation leaves alone *)

Section Frames.
Context {A : Type} (f : World -> A).

Lemma foldl_frame {B} (op : World -> B -> World) (l : list B) (w : World) :
  (forall w b, f (op w b) = f w) -> f (foldl op w l) = f w.
Proof.
  intros Hop. apply (foldl_invariant (fun w' => f w' = f w)); [done|].
  intros a b Ha. by rewrite Hop.
Qed.

Hypothesis Hwire : ignores f with_wire.

Lemma frame_deliver id frame w : f (deliver id frame w) = f w.
Proof. unfold deliver. destruct (clients w !! id); [apply Hwire | done]. Qed.

Lemma frame_socket_emit id ev args w : f (socket_emit id ev args w) = f w.
Proof. apply frame_deliver. Qed.

Lemma frame_broadcast room frame ex w : f (broadcast room frame ex w) = f w.
Proof. unfold broadcast. apply foldl_frame. intros. apply frame_deliver. Qed.

Lemma frame_to_emit id room ev args w : f (to_emit id room ev args w) = f w.
Proof. apply frame_broadcast. Qed.

Lemma frame_run_listener l p w : f (run_listener l p w) = f w.
Proof. unfold run_listener. repeat case_match; try done; apply frame_socket_emit. Qed.

Hypothesis Hemitted : ignores f with_emitted.

Lemma frame_emitter_emit ev p w : f (emitter_emit ev p w) = f w.
Proof.
  unfold emitter_emit. rewrite foldl_frame; [apply Hemitted|].
  intros. apply frame_run_listener.
Qed.

Lemma frame_run_closure clo p w : f (run_closure clo p w) = f w.
Proof. apply frame_emitter_emit. Qed.

Lemma frame_webcast c ev p w : f (webcast c ev p w) = f w.
Proof.
  unfold webcast. destruct (conns w !! c); [|done].
  apply foldl_frame. intros. apply frame_run_closure.
Qed.

Hypothesis Hconsole : ignores f with_console.

Lemma frame_log line w : f (log line w) = f w.
Proof. apply Hconsole. Qed.

Lemma frame_createLive_catch u err w : f (world_of (createLive_catch u err w)) = f w.
Proof. unfold createLive_catch. simpl. by rewrite frame_emitter_emit, frame_log. Qed.

Hypothesis Hconns : ignores f with_conns.
Hypothesis Hclosure : forall n w, f (with_next_closure n w) = f w.

Lemma frame_conn_update c g w : f (conn_update c g w) = f w.
Proof. apply Hconns. Qed.

Lemma frame_register_event u c w ev : f (register_event u c w ev) = f w.
Proof. unfold register_event, connection_on. by rewrite frame_conn_update, Hclosure. Qed.

Lemma frame_unregister_event u c w ev : f (unregister_event u c w ev) = f w.
Proof. unfold unregister_event, connection_off. by rewrite frame_conn_update, Hclosure. Qed.

Lemma frame_createLive_settle evs u c o w :
  f (world_of (createLive_settle evs u c o w)) = f w.
Proof.
  unfold createLive_settle. destruct o as [state|err].
  - simpl. rewrite foldl_frame by (intros; apply frame_register_event).
    by rewrite frame_emitter_emit, frame_log, frame_conn_update.
  - by rewrite frame_createLive_catch, frame_conn_update.
Qed.

Hypothesis Hlive : ignores f with_live.

Lemma frame_settle evs u c o w :
  f (world_of (createLiveIfNotExist_settle evs u c o w)) = f w.
Proof.
  unfold createLiveIfNotExist_settle.
  pose proof (frame_createLive_settle evs u c o w) as H.
  destruct (createLive_settle evs u c o w); simpl in *; [|done].
  by rewrite Hlive.
Qed.

Lemma frame_disconnectLive evs u w : f (disconnectLive evs u w) = f w.
Proof.
  unfold disconnectLive. destruct (getLive u w); [|done].
  rewrite foldl_frame by (intros; apply frame_unregister_event).
  rewrite frame_emitter_emit, Hlive. apply frame_conn_update.
Qed.
End Frames.

(** ** Closures on the connection objects *)

Lemma known_mono n m c : n <= m -> known n c -> known m c.
Proof.
  intros Hnm H. eapply Forall_impl; [exact H|]. intros el Hel. simpl in *. lia.
Qed.

Lemma closures_known_same w w' :
  conns w' = conns w -> next_closure w' = next_closure w ->
  closures_known w -> closures_known w'.
Proof. unfold closures_known. by intros -> ->. Qed.

Lemma closures_known_update c g w :
  (forall x, conn_on (g x) = conn_on x) ->
  closures_known w -> closures_known (conn_update c g w).
Proof.
  intros Hg Hw. unfold closures_known, conn_update. simpl.
  apply Forall_alter; [exact Hw|]. intros x _ Hx. unfold known in *. by rewrite Hg.
Qed.

Lemma closures_known_register u c w ev :
  closures_known w -> closures_known (register_event u c w ev).
Proof.
  intros Hw. unfold closures_known, register_event, connection_on, conn_update.
  simpl. apply Forall_alter.
  - eapply Forall_impl; [exact Hw|]. intros x. apply known_mono. lia.
  - intros x _ Hx. simpl. apply Forall_app. split; [exact Hx|].
    apply Forall_singleton. simpl. lia.
Qed.

Lemma remove_first_none {A} (p : A -> bool) (l : list A) :
  Forall (fun x => p x = false) l -> remove_first p l = l.
Proof. induction 1 as [|x l Hx _ IH]; simpl; [done|]. by rewrite Hx, IH. Qed.

Lemma alter_fixed {A} (g : A -> A) (l : list A) (i : nat) :
  Forall (fun x => g x = x) l -> alter g i l = l.
Proof.
  intros Hl. revert i. induction Hl as [|x l Hx _ IH]; intros i; [done|].
  destruct i as [|i]; simpl; f_equal; [exact Hx | apply IH].
Qed.

Lemma conn_with_on_same g c : g (conn_on c) = conn_on c -> conn_with_on g c = c.
Proof. intros H. destruct c. unfold conn_with_on. simpl in *. by rewrite H. Qed.

(** A closure made after every listener was registered is none of them:
    [off] removes nothing. *)
Lemma connection_off_fresh n c ev clo w :
  Forall (known n) (conns w) -> n <= clo_id clo ->
  connection_off c ev clo w = w.
Proof.
  intros Hw Hclo. unfold connection_off, conn_update.
  assert (alter (conn_with_on (fun ls =>
             rev (remove_first (same_listener ev clo) (rev ls)))) c (conns w)
          = conns w) as Hc.
  { apply alter_fixed. eapply Forall_impl; [exact Hw|].
    intros x Hx. apply conn_with_on_same.
    rewrite remove_first_none, rev_involutive; [done|].
    apply Forall_rev. eapply Forall_impl; [exact Hx|].
    intros el Hel. unfold same_listener. apply andb_false_intro2.
    apply Nat.eqb_neq. simpl in Hel. lia. }
  destruct w. unfold with_conns. simpl in *. by rewrite Hc.
Qed.

Lemma unregister_event_fresh u c w ev :
  closures_known w ->
  unregister_event u c w ev = with_next_closure (S (next_closure w)) w.
Proof.
  intros Hw. unfold unregister_event.
  apply (connection_off_fresh (next_closure w)); [exact Hw | simpl; lia].
Qed.

Lemma closures_known_bump n w :
  next_closure w <= n -> closures_known w -> closures_known (with_next_closure n w).
Proof.
  intros Hn Hw. unfold closures_known. simpl.
  eapply Forall_impl; [exact Hw|]. intros x. by apply known_mono.
Qed.

Lemma foldl_unregister_fresh u c evs w :
  closures_known w ->
  foldl (unregister_event u c) w evs
  = with_next_closure (next_closure w + length evs) w.
Proof.
  revert w. induction evs as [|ev evs IH]; intros w Hw; simpl.
  - rewrite Nat.add_0_r. by destruct w.
  - rewrite unregister_event_fresh by done.
    rewrite IH by (apply closures_known_bump; [simpl; lia | done]).
    simpl. unfold with_next_closure. simpl. f_equal. lia.
Qed.

Lemma closures_known_unregister u c w ev :
  closures_known w -> closures_known (unregister_event u c w ev).
Proof.
  intros Hw. rewrite unregister_event_fresh by done.
  apply closures_known_bump; [lia | done].
Qed.

Lemma closures_known_foldl {B} (op : World -> B -> World) (l : list B) w :
  (forall w b, closures_known w -> closures_known (op w b)) ->
  closures_known w -> closures_known (foldl op w l).
Proof. intros Hop Hw. by apply (foldl_invariant closures_known). Qed.

Lemma heap_wire : ignores heap with_wire. Proof. by intros g w. Qed.
Lemma heap_emitted : ignores heap with_emitted. Proof. by intros g w. Qed.
Lemma heap_console : ignores heap with_console. Proof. by intros g w. Qed.
Lemma closures_known_heap w w' : heap w' = heap w -> closures_known w -> closures_known w'.
Proof. intros [= Hc Hn]. by apply closures_known_same. Qed.

Lemma closures_known_createLive_settle evs u c o w :
  closures_known w -> closures_known (world_of (createLive_settle evs u c o w)).
Proof.
  intros Hw. unfold createLive_settle. destruct o as [state|err].
  - set (w1 := conn_update c _ w).
    assert (closures_known w1) as Hw1 by by apply closures_known_update.
    clearbody w1. simpl. apply closures_known_foldl.
    { intros. by apply closures_known_register. }
    eapply closures_known_heap; [|exact Hw1].
    rewrite (frame_emitter_emit heap heap_wire heap_emitted).
    apply heap_console.
  - set (w1 := conn_update c _ w).
    assert (closures_known w1) as Hw1 by by apply closures_known_update.
    clearbody w1.
    eapply closures_known_heap; [|exact Hw1].
    apply (frame_createLive_catch heap heap_wire heap_emitted heap_console).
Qed.

Lemma closures_known_settle evs u c o w :
  closures_known w ->
  closures_known (world_of (createLiveIfNotExist_settle evs u c o w)).
Proof.
  intros Hw. unfold createLiveIfNotExist_settle.
  pose proof (closures_known_createLive_settle evs u c o w Hw) as H.
  by destruct (createLive_settle evs u c o w).
Qed.

Lemma closures_known_settle_task evs i o w :
  closures_known w -> closures_known (settle_task evs i o w).
Proof.
  intros Hw. unfold settle_task. destruct (pending w !! i) as [t|]; [|done].
  pose proof (closures_known_settle evs (task_user t) (task_conn t) o
                (with_pending (delete i) w) Hw) as H.
  by destruct (createLiveIfNotExist_settle _ _ _ _ _).
Qed.

Lemma closures_known_disconnectLive evs u w :
  closures_known w -> closures_known (disconnectLive evs u w).
Proof.
  intros Hw. unfold disconnectLive. destruct (getLive u w) as [c|]; [|done].
  apply closures_known_foldl. { intros. by apply closures_known_unregister. }
  eapply closures_known_heap.
  { apply (frame_emitter_emit heap heap_wire heap_emitted). }
  change (closures_known (connection_disconnect c w)).
  by apply closures_known_update.
Qed.

Lemma closures_known_begin u w :
  closures_known w ->
  closures_known (match createLiveIfNotExist_begin u w with
                  | Done w' => w'
                  | Awaiting _ w' => w'
                  end).
Proof.
  intros Hw. unfold createLiveIfNotExist_begin.
  destruct (CurrentLiveMap w !! u); [done|]. simpl.
  unfold closures_known. simpl. apply Forall_app. split; [done|].
  apply Forall_singleton. by apply Forall_nil.
Qed.

Lemma closures_known_run_handler h id args w :
  closures_known w -> closures_known (world_of (run_handler h id args w)).
Proof.
  intros Hw. destruct h; simpl.
  - eapply closures_known_heap; [|exact Hw].
    rewrite (frame_to_emit heap heap_wire), (frame_socket_emit heap heap_wire).
    done.
  - destruct (arg 0 args); try done. simpl.
    eapply closures_known_heap; [|exact Hw].
    rewrite (frame_to_emit heap heap_wire), (frame_socket_emit heap heap_wire).
    done.
  - destruct (nullish (arg 0 args)); [done|].
    repeat case_match; simpl; (eapply closures_known_heap; [|exact Hw]);
      by rewrite (frame_socket_emit heap heap_wire).
  - destruct (arg 0 args); try done.
    pose proof (closures_known_begin s (log [JStr "live:tiktok"; JStr s] w) Hw) as H.
    by destruct (createLiveIfNotExist_begin _ _).
  - done.
Qed.

Lemma closures_known_run_handlers hs id args w :
  closures_known w -> closures_known (world_of (run_handlers hs id args w)).
Proof.
  apply (run_handlers_invariant closures_known).
  intros. by apply closures_known_run_handler.
Qed.

Lemma closures_known_step evs w e :
  closures_known w -> closures_known (step evs w e).
Proof.
  intros Hw. destruct e; cbn [step].
  - done.
  - unfold handleMessage. destruct (clients w !! id); [|done].
    destruct (decode raw); [|done]. by apply closures_known_run_handlers.
  - rewrite world_of_handleClose. destruct (clients w !! id); [|done].
    change (closures_known
              (world_of (run_handlers (handlers_for id "disconnect" w) id [] w))).
    by apply closures_known_run_handlers.
  - eapply closures_known_heap; [|exact Hw].
    apply (frame_broadcast heap heap_wire).
  - by apply closures_known_settle_task.
  - eapply closures_known_heap; [|exact Hw].
    apply (frame_webcast heap heap_wire heap_emitted).
  - by apply closures_known_disconnectLive.
Qed.

Lemma closures_known_run evs tr : closures_known (run evs tr).
Proof.
  induction tr as [|e tr IH] using rev_ind; [by apply Forall_nil|].
  rewrite run_snoc. by apply closures_known_step.
Qed.

(** ** One connection per username, for calls that do not overlap *)











Lemma shapes_wire : ignores shapes with_wire. Proof. by intros g w. Qed.
Lemma shapes_emitted : ignores shapes with_emitted. Proof. by intros g w. Qed.
Lemma live_wire : ignores CurrentLiveMap with_wire. Proof. by intros g w. Qed.
Lemma live_emitted : ignores CurrentLiveMap with_emitted. Proof. by intros g w. Qed.
Lemma live_conns : ignores CurrentLiveMap with_conns. Proof. by intros g w. Qed.

Lemma shapes_conn_update c g h w :
  (forall x, shape (g x) = h (shape x)) ->
  shapes (conn_update c g w) = alter h c (shapes w).
Proof.
  intros Hg. unfold shapes, conn_update. simpl.
  apply list_fmap_alter. apply Forall_forall. intros x _. apply Hg.
Qed.


Lemma shapes_unregister_event u c w ev : shapes (unregister_event u c w ev) = shapes w.
Proof.
  unfold unregister_event, connection_off.
  rewrite (shapes_conn_update _ _ id) by done.
  unfold shapes. simpl. by apply list_alter_id.
Qed.




Lemma conns_disconnectLive evs u w c :
  getLive u w = Some c ->
  shapes (disconnectLive evs u w) = alter (set_status Disconnected) c (shapes w)
  /\ CurrentLiveMap (disconnectLive evs u w) = delete u (CurrentLiveMap w).
Proof.
  intros Hc. unfold disconnectLive. rewrite Hc. split.
  - rewrite foldl_frame by (intros; apply shapes_unregister_event).
    rewrite (frame_emitter_emit shapes shapes_wire shapes_emitted).
    change (shapes (with_live ?g ?w0)) with (shapes w0).
    by apply shapes_conn_update.
  - rewrite foldl_frame
      by (intros; apply (frame_unregister_event CurrentLiveMap live_conns); by intros).
    by rewrite (frame_emitter_emit CurrentLiveMap live_wire live_emitted).
Qed.






(** ** The properties of the specification *)

(** C1.  Membership consistency: in every world an event trace leads to,
    every identifier in the member set of any room is in the Registry;
    and once the hub has closed an identifier, it is in the Registry no
    more and in the member set of no room. *)
Theorem membership_consistency (evs : list string) (tr : list Event) :
  let w := run evs tr in
  (forall room, members_of room w ⊆ dom (clients w))
  /\ (forall id,
        let w' := world_of (handleClose id w) in
        clients w' !! id = None /\ forall room, id ∉ members_of room w').
Proof.
  intros w. pose proof (hub_inv_run evs tr) as Hw. fold w in Hw. split.
  - apply (inv_members w Hw).
  - intros id w'. split; [apply clients_after_close|].
    intros room. by apply members_after_close.
Qed.


(** C3.  [s.to(R).emit(event, args)] writes the encoded envelope once to
    every member of [R] other than [s], writes nothing to [s] or to
    anyone else, and changes nothing but the transports. *)
Theorem room_emit_excludes_sender (evs : list string) (tr : list Event)
  (s R ev : string) (args : list jsval) :
  let w := run evs tr in
  exists frames,
    to_emit s R ev args w = with_wire (fun l => l ++ frames) w
    /\ NoDup frames
    /\ forall m f, (m, f) ∈ frames
                   <-> m ∈ members_of R w /\ m <> s /\ f = encode ev args.
Proof.
  intros w. pose proof (hub_inv_run evs tr) as Hw. fold w in Hw.
  exists ((fun m => (m, encode ev args)) <$> elements (members_of R w ∖ {[s]})).
  split; [|split].
  - unfold to_emit. by rewrite broadcast_wire_inv.
  - apply NoDup_fmap_2; [by intros ?? [= ->] | apply NoDup_elements].
  - intros m f. rewrite list_elem_of_fmap. split.
    + intros (x & [= -> ->] & Hx). apply elem_of_elements in Hx. set_solver.
    + intros (Hm & Hne & ->). exists m. split; [done|].
      apply elem_of_elements. set_solver.
Qed.

Lemma handleMessage_dispatch id raw e w :
  hub_inv w -> is_Some (clients w !! id) -> decode raw = Some e ->
  handleMessage id raw w
  = run_handlers (default [] (app_handlers !! event e)) id (arguments (data e)) w.
Proof.
  intros Hw Hid He. unfold handleMessage.
  pose proof (handlers_for_inv id (event e) w Hw Hid) as Hh.
  destruct Hid as [s Hs]. by rewrite Hs, He, Hh.
Qed.


Lemma app_handlers_join : app_handlers !! "join-room" = Some [OnJoinRoom].
Proof. reflexivity. Qed.

Lemma members_of_wire g w r : members_of r (with_wire g w) = members_of r w.
Proof. reflexivity. Qed.

Lemma deliver_registered id frame w :
  is_Some (clients w !! id) ->
  deliver id frame w = with_wire (fun l => l ++ [(id, frame)]) w.
Proof. intros [s Hs]. unfold deliver. by rewrite Hs. Qed.


(** C6.  A [join-room] frame with the room name [R], from an open
    socket: the socket leaves [general] and joins [R], it is written a
    [joined] envelope whose payload ends with [R], and then every other
    member of [R] is written a [user-joined] envelope that starts with
    the identifier of the socket. *)
Theorem join_room_handler (evs : list string) (tr : list Event)
  (sender raw R : string) (d : jsval) (rest : list jsval) :
  let w := run evs tr in
  is_Some (clients w !! sender) ->
  decode raw = Some {| event := "join-room"; data := d |} ->
  arguments d = JStr R :: rest ->
  exists w',
    handleMessage sender raw w = Ok tt w'
    /\ members_of R w' = {[sender]} ∪ members_of R w
    /\ (R <> "general" ->
        members_of "general" w' = members_of "general" w ∖ {[sender]})
    /\ (forall r, r <> R -> r <> "general" -> members_of r w' = members_of r w)
    /\ wire w'
       = wire w
         ++ (sender, encode "joined" [JStr ("You joined room: " +:+ R)])
            :: ((fun m => (m, encode "user-joined" [JStr (sender +:+ " joined the room")]))
                  <$> elements (members_of R w ∖ {[sender]})).
Proof.
  intros w Hs Hraw Hargs.
  pose proof (hub_inv_run evs tr) as Hw. fold w in Hw.
  rewrite (handleMessage_dispatch sender raw _ w Hw Hs Hraw). simpl event.
  rewrite app_handlers_join. simpl data. rewrite Hargs.
  simpl. unfold arg. simpl.
  set (w2 := join sender R (leave sender "general" w)).
  assert (is_Some (clients w2 !! sender)) as Hs2.
  { apply elem_of_dom. unfold w2.
    rewrite clients_join, dom_alter_L, clients_leave, dom_alter_L.
    by apply elem_of_dom. }
  assert (hub_inv w2) as Hw2.
  { apply hub_inv_join; [|by apply hub_inv_leave].
    rewrite clients_leave, dom_alter_L. by apply elem_of_dom. }
  assert (members_of R w2 = {[sender]} ∪ members_of R w) as HmR.
  { unfold w2. rewrite members_of_join, members_of_leave.
    destruct (decide (R = R)); [|done].
    destruct (decide (R = "general")) as [->|]; [|done].
    apply set_eq. intros x. destruct (decide (x = sender)); set_solver. }
  assert (forall r, r <> R ->
            members_of r w2
            = if decide (r = "general") then members_of "general" w ∖ {[sender]}
              else members_of r w) as Hm.
  { intros r Hr. unfold w2. rewrite members_of_join.
    destruct (decide (r = R)); [done|]. rewrite members_of_leave.
    by destruct (decide (r = "general")) as [->|]. }
  unfold socket_emit. rewrite (deliver_registered sender _ w2 Hs2).
  unfold to_emit. rewrite broadcast_wire_inv
    by (eapply hub_inv_same; [|exact Hw2]; by repeat split).
  eexists. split; [reflexivity|].
  rewrite !members_of_wire.
  split; [|split; [|split]].
  - exact HmR.
  - intros HR. rewrite Hm by congruence. by destruct (decide ("general" = "general")).
  - intros r HrR Hrg. rewrite !members_of_wire, Hm by done.
    destruct (decide (r = "general")); [congruence | done].
  - assert (members_of R w2 ∖ {[sender]} = members_of R w ∖ {[sender]}) as Hset.
    { rewrite HmR. apply set_eq. intros x. set_solver. }
    cbn [wire with_wire].
    change (members_of R (with_wire ?g w2)) with (members_of R w2).
    rewrite Hset, <- app_assoc. reflexivity.
Qed.

(** ** The codec *)

Lemma decode_encode_envelope (e : Envelope) :
  serializable (data e) = true -> decode (encode_envelope e) = Some e.
Proof.
  intros Hs. unfold decode, encode_envelope.
  rewrite parse_stringify by (simpl; by rewrite Hs).
  destruct e as [ev d]. reflexivity.
Qed.

(** The frame of the test client always carries a sequence. *)
Lemma decode_client_frame (ev : string) (args : list jsval) :
  forallb serializable args = true ->
  decode (client_frame ev args) = Some {| event := ev; data := JArr args |}.
Proof. intros Hs. apply (decode_encode_envelope {| event := ev; data := JArr args |} Hs). Qed.



(** A payload that is not JSON-serializable does not come back. *)
Lemma undefined_not_round_trip :
  decode (encode "x" [JArr [JUndefined]])
  = Some {| event := "x"; data := JArr [JNull] |}.
Proof. vm_compute. reflexivity. Qed.

(** ** Emissions on the shared emitter *)

Lemma emitted_wire : ignores emitted with_wire. Proof. by intros g w. Qed.
Lemma emitted_emitter_emit ev p w :
  emitted (emitter_emit ev p w) = emitted w ++ [(ev, p)].
Proof.
  unfold emitter_emit.
  by rewrite foldl_frame by (intros; apply frame_run_listener, emitted_wire).
Qed.

Lemma live_emitter_emit ev p w :
  CurrentLiveMap (emitter_emit ev p w) = CurrentLiveMap w.
Proof. apply (frame_emitter_emit CurrentLiveMap live_wire live_emitted). Qed.

(** C9.  When [connection.connect()] throws inside [createLive]:
    [createLive] throws the same value again after one emission of
    [tiktok:disconnected] for the username and none of
    [tiktok:connected]; [CurrentLiveMap] is as before, and
    [createLiveIfNotExist] throws as well, storing no entry. *)
Theorem failed_connect_is_atomic (evs : list string) (u : string) (c : nat)
  (err : jsval) (w : World) :
  let gone_event :=
    ("tiktok:disconnected",
     JObj [("tiktokUsername", JStr u); ("state", JStr "DISCONNECTED")]) in
  exists w',
    createLive_settle evs u c (Rejected err) w = Throw err w'
    /\ createLiveIfNotExist_settle evs u c (Rejected err) w = Throw err w'
    /\ emitted w' = emitted w ++ [gone_event]
    /\ CurrentLiveMap w' = CurrentLiveMap w
    /\ (CurrentLiveMap w !! u = None ->
        exists w'',
          createLiveIfNotExist evs u (Rejected err) w = Throw err w''
          /\ emitted w'' = emitted w ++ [gone_event]
          /\ CurrentLiveMap w'' = CurrentLiveMap w
          /\ getLive u w'' = None).
Proof.
  intros gone_event.
  assert (forall w0 v,
    exists w', createLive_settle evs u v (Rejected err) w0 = Throw err w'
      /\ createLiveIfNotExist_settle evs u v (Rejected err) w0 = Throw err w'
      /\ emitted w' = emitted w0 ++ [gone_event]
      /\ CurrentLiveMap w' = CurrentLiveMap w0) as Hsettle.
  { intros w0 v. eexists. split; [reflexivity|]. split; [reflexivity|].
    split; [by rewrite emitted_emitter_emit | by rewrite live_emitter_emit]. }
  destruct (Hsettle w c) as (w' & H1 & H2 & H3 & H4).
  exists w'. repeat (split; [assumption|]).
  intros Hu. unfold createLiveIfNotExist, createLiveIfNotExist_begin.
  rewrite Hu. simpl.
  destruct (Hsettle (createLive_begin u w).2 (length (conns w)))
    as (w'' & _ & H2' & H3' & H4').
  exists w''. split; [exact H2'|]. split; [exact H3'|]. split; [exact H4'|].
  unfold getLive. by rewrite H4'.
Qed.

(** ** Listeners on the shared emitter *)

Lemma listeners_wire : ignores listeners with_wire. Proof. by intros g w. Qed.
Lemma listeners_emitted : ignores listeners with_emitted. Proof. by intros g w. Qed.
Lemma listeners_console : ignores listeners with_console. Proof. by intros g w. Qed.
Lemma listeners_conns : ignores listeners with_conns. Proof. by intros g w. Qed.
Lemma listeners_live : ignores listeners with_live. Proof. by intros g w. Qed.

Lemma listeners_subscribe id u w :
  listeners (subscribe id u w) = listeners w ++ bridge_listeners id u.
Proof. unfold subscribe, emitter_on. simpl. by rewrite <- !app_assoc. Qed.

Lemma listeners_settle evs u c o w :
  listeners (world_of (createLiveIfNotExist_settle evs u c o w)) = listeners w.
Proof.
  apply (frame_settle listeners listeners_wire listeners_emitted listeners_console
           listeners_conns); [done | apply listeners_live].
Qed.

Lemma listeners_run_handler h id args w :
  exists l, listeners (world_of (run_handler h id args w)) = listeners w ++ l.
Proof.
  destruct h; simpl.
  - exists []. rewrite app_nil_r.
    by rewrite (frame_to_emit listeners listeners_wire),
               (frame_socket_emit listeners listeners_wire).
  - exists []. rewrite app_nil_r. destruct (arg 0 args); try done. simpl.
    by rewrite (frame_to_emit listeners listeners_wire),
               (frame_socket_emit listeners listeners_wire).
  - exists []. rewrite app_nil_r. destruct (nullish (arg 0 args)); [done|].
    repeat case_match; simpl; by rewrite (frame_socket_emit listeners listeners_wire).
  - destruct (arg 0 args); try (exists []; by rewrite app_nil_r).
    unfold createLiveIfNotExist_begin.
    change (CurrentLiveMap (log ?l w)) with (CurrentLiveMap w).
    destruct (CurrentLiveMap w !! s); cbn [world_of].
    + eexists. by rewrite listeners_subscribe.
    + exists []. by rewrite app_nil_r.
  - exists []. by rewrite app_nil_r.
Qed.

Lemma listeners_run_handlers hs id args w :
  exists l, listeners (world_of (run_handlers hs id args w)) = listeners w ++ l.
Proof.
  apply (run_handlers_invariant (fun w' => exists l, listeners w' = listeners w ++ l)).
  - intros h w' [l Hl]. destruct (listeners_run_handler h id args w') as [l' Hl'].
    exists (l ++ l'). by rewrite Hl', Hl, app_assoc.
  - exists []. by rewrite app_nil_r.
Qed.

Lemma listeners_handleClose id w :
  hub_inv w -> listeners (world_of (handleClose id w)) = listeners w.
Proof.
  intros Hw. destruct (clients w !! id) eqn:E.
  - rewrite (handleClose_open id w Hw); [done | eexists; exact E].
  - by rewrite handleClose_closed.
Qed.

Lemma listeners_step evs w e :
  exists l, listeners (step evs w e) = listeners w ++ l.
Proof.
  destruct e; cbn [step].
  - exists []. by rewrite app_nil_r.
  - unfold handleMessage. destruct (clients w !! id);
      [|exists []; by rewrite app_nil_r].
    destruct (decode raw); [|exists []; by rewrite app_nil_r].
    apply listeners_run_handlers.
  - rewrite world_of_handleClose. destruct (clients w !! id);
      [|exists []; by rewrite app_nil_r].
    apply (listeners_run_handlers (handlers_for id "disconnect" w) id [] w).
  - exists []. rewrite app_nil_r. apply (frame_broadcast listeners listeners_wire).
  - unfold settle_task. destruct (pending w !! task) as [t|];
      [|exists []; by rewrite app_nil_r].
    pose proof (listeners_settle evs (task_user t) (task_conn t) o
                  (with_pending (delete task) w)) as H.
    destruct (createLiveIfNotExist_settle _ _ _ _ _); simpl in H.
    + eexists. by rewrite listeners_subscribe, H.
    + exists []. by rewrite app_nil_r.
  - exists []. rewrite app_nil_r.
    apply (frame_webcast listeners listeners_wire listeners_emitted).
  - exists []. rewrite app_nil_r.
    apply (frame_disconnectLive listeners listeners_wire listeners_emitted
             listeners_conns); [done | apply listeners_live].
Qed.

Lemma run_handler_live_stored id u c rest w :
  CurrentLiveMap w !! u = Some c ->
  run_handler OnLiveTiktok id (JStr u :: rest) w
  = Ok tt (subscribe id u (log [JStr "live:tiktok"; JStr u] w)).
Proof.
  intros Hc. unfold run_handler.
  change (arg 0 (JStr u :: rest)) with (JStr u). cbv beta iota zeta.
  unfold createLiveIfNotExist_begin.
  change (CurrentLiveMap (log [JStr "live:tiktok"; JStr u] w)) with (CurrentLiveMap w).
  by rewrite Hc.
Qed.

Lemma run_handler_live_fresh id u rest w :
  CurrentLiveMap w !! u = None ->
  run_handler OnLiveTiktok id (JStr u :: rest) w
  = Ok tt (with_pending
             (fun ts => ts ++ [ {| task_socket := id; task_user := u;
                                   task_conn := length (conns w) |} ])
             (createLive_begin u (log [JStr "live:tiktok"; JStr u] w)).2).
Proof.
  intros Hc. unfold run_handler.
  change (arg 0 (JStr u :: rest)) with (JStr u). cbv beta iota zeta.
  unfold createLiveIfNotExist_begin.
  change (CurrentLiveMap (log [JStr "live:tiktok"; JStr u] w)) with (CurrentLiveMap w).
  by rewrite Hc.
Qed.

(** C7, as amended.  A [live:tiktok] request that gets its connection
    (the username is stored already, or [connect()] resolves) appends
    three listeners to the shared emitter, for [tiktok:connected],
    [tiktok:event] and [tiktok:disconnected], after all the listeners
    that were there.  A request that has to connect appends nothing
    before [connect()] settles, and nothing at all when it throws.
    No event removes a listener, and the close of a socket leaves the
    listeners exactly as they were. *)
Theorem bridge_listeners_accumulate (evs : list string) (tr : list Event) :
  let w := run evs tr in
  (forall id u c rest,
      CurrentLiveMap w !! u = Some c ->
      listeners (world_of (run_handler OnLiveTiktok id (JStr u :: rest) w))
      = listeners w ++ bridge_listeners id u)
  /\ (forall id u rest,
        CurrentLiveMap w !! u = None ->
        listeners (world_of (run_handler OnLiveTiktok id (JStr u :: rest) w))
        = listeners w)
  /\ (forall i t state,
        pending w !! i = Some t ->
        listeners (settle_task evs i (Resolved state) w)
        = listeners w ++ bridge_listeners (task_socket t) (task_user t))
  /\ (forall i err, listeners (settle_task evs i (Rejected err) w) = listeners w)
  /\ (forall e, exists l, listeners (step evs w e) = listeners w ++ l)
  /\ (forall id, listeners (step evs w (EClose id)) = listeners w).
Proof.
  intros w. split; [|split; [|split; [|split; [|split]]]].
  - intros id u c rest Hc. rewrite (run_handler_live_stored id u c rest w Hc).
    cbn [world_of]. by rewrite listeners_subscribe.
  - intros id u rest Hc. by rewrite (run_handler_live_fresh id u rest w Hc).
  - intros i t state Ht. unfold settle_task. rewrite Ht.
    pose proof (listeners_settle evs (task_user t) (task_conn t) (Resolved state)
                  (with_pending (delete i) w)) as H.
    unfold createLiveIfNotExist_settle in *. cbn [createLive_settle world_of] in *.
    by rewrite listeners_subscribe, H.
  - intros i err. unfold settle_task. destruct (pending w !! i) as [t|]; [|done].
    pose proof (listeners_settle evs (task_user t) (task_conn t) (Rejected err)
                  (with_pending (delete i) w)) as H.
    unfold createLiveIfNotExist_settle in *. simpl in *. by rewrite H.
  - intros e. apply listeners_step.
  - intros id. cbn [step]. apply listeners_handleClose, hub_inv_run.
Qed.

(** C7, as stated, fails: this request for [u] ends with [connect()]
    throwing, and leaves no listener on the emitter. *)
Lemma failed_request_registers_nothing :
  let tr := [EOpen;
             EMessage "0" (client_frame "live:tiktok" [JStr "u"]);
             ESettle 0 (Rejected (JStr "offline"))] in
  console (run [] tr)
  = [[JStr "Client connected: 0"]; [JStr "live:tiktok"; JStr "u"];
     [JStr "Failed to connect:"; JStr "offline"]]
  /\ pending (run [] tr) = []
  /\ listeners (run [] tr) = []
  /\ ~ (exists l, length l = 3 /\ listeners (run [] tr) = listeners (run [] [EOpen]) ++ l).
Proof.
  intros tr. assert (listeners (run [] tr) = []) as H by (vm_compute; reflexivity).
  split; [vm_compute; reflexivity|]. split; [vm_compute; reflexivity|].
  split; [exact H|]. intros (l & Hl & Heq). rewrite H in Heq.
  change (listeners (run [] [EOpen])) with (@nil (string * Listener)) in Heq.
  simpl in Heq. subst l. simpl in Hl. lia.
Qed.




(** ** [disconnectLive] *)

Lemma conn_on_alter_status (st : ConnStatus) (c : nat) (cs : list Connection) :
  (conn_on <$> alter (conn_with_status st) c cs) = (conn_on <$> cs).
Proof.
  rewrite (list_fmap_alter conn_on _ id) by (apply Forall_forall; by intros).
  by apply list_alter_id.
Qed.

(** C10.  For a stored username, in any world a trace leads to: the
    closures that [disconnectLive] gives to [connection.off] are new
    objects, so no listener is removed and every listener put by
    [createLive] is still on the connection.  What the call does is to
    disconnect the connection, delete the username from
    [CurrentLiveMap] and emit [tiktok:disconnected] once. *)
Theorem disconnectLive_effects (evs : list string) (tr : list Event)
  (u : string) (c : nat) :
  getLive u (run evs tr) = Some c ->
  let w := run evs tr in
  let roomId := default JUndefined (conn_roomId <$> conns w !! c) in
  let gone_event :=
    ("tiktok:disconnected", JObj [("tiktokUsername", JStr u); ("roomId", roomId)]) in
  disconnectLive evs u w
  = with_next_closure (next_closure w + length evs)
      (emitter_emit gone_event.1 gone_event.2
         (with_live (delete u) (connection_disconnect c w)))
  /\ (conn_on <$> conns (disconnectLive evs u w)) = (conn_on <$> conns w)
  /\ conns (disconnectLive evs u w) = alter (conn_with_status Disconnected) c (conns w)
  /\ CurrentLiveMap (disconnectLive evs u w) = delete u (CurrentLiveMap w)
  /\ emitted (disconnectLive evs u w) = emitted w ++ [gone_event].
Proof.
  intros Hc w roomId gone_event. fold w in Hc.
  pose proof (closures_known_run evs tr) as Hw. fold w in Hw.
  assert (disconnectLive evs u w
          = with_next_closure (next_closure w + length evs)
              (emitter_emit gone_event.1 gone_event.2
                 (with_live (delete u) (connection_disconnect c w)))) as Heq.
  { unfold disconnectLive. rewrite Hc.
    set (w1 := with_live (delete u) (connection_disconnect c w)).
    assert (match conns w1 !! c with
            | Some x => conn_roomId x
            | None => JUndefined
            end = roomId) as ->.
    { unfold w1, roomId. simpl. rewrite list_lookup_alter_eq.
      by destruct (conns w !! c). }
    rewrite foldl_unregister_fresh.
    - by rewrite (frame_emitter_emit next_closure).
    - eapply closures_known_heap; [apply (frame_emitter_emit heap); by intros|].
      change (closures_known (connection_disconnect c w)).
      by apply closures_known_update. }
  split; [exact Heq|]. rewrite Heq.
  assert (conns (with_next_closure (next_closure w + length evs)
            (emitter_emit gone_event.1 gone_event.2
               (with_live (delete u) (connection_disconnect c w))))
          = alter (conn_with_status Disconnected) c (conns w)) as Hconns.
  { change (conns (with_next_closure ?n ?w0)) with (conns w0).
    by rewrite (frame_emitter_emit conns). }
  split; [by rewrite Hconns, conn_on_alter_status|].
  split; [exact Hconns|].
  split.
  - change (CurrentLiveMap (with_next_closure ?n ?w0)) with (CurrentLiveMap w0).
    by rewrite live_emitter_emit.
  - change (emitted (with_next_closure ?n ?w0)) with (emitted w0).
    by rewrite emitted_emitter_emit.
Qed.

(** ** The theorems at work on concrete traces *)


Lemma join_room_handler_witness :
  let w := run [] [EOpen; EOpen; EMessage "1" (client_frame "join-room" [JStr "r"])] in
  exists w',
    handleMessage "0" (client_frame "join-room" [JStr "r"]) w = Ok tt w'
    /\ members_of "r" w' = {["0"]} ∪ members_of "r" w
    /\ ("r" <> "general" ->
        members_of "general" w' = members_of "general" w ∖ {["0"]})
    /\ (forall r, r <> "r" -> r <> "general" -> members_of r w' = members_of r w)
    /\ wire w'
       = wire w
         ++ ("0", encode "joined" [JStr "You joined room: r"])
            :: ((fun m => (m, encode "user-joined" [JStr "0 joined the room"]))
                  <$> elements (members_of "r" w ∖ {["0"]})).
Proof.
  apply (join_room_handler []
           [EOpen; EOpen; EMessage "1" (client_frame "join-room" [JStr "r"])]
           "0" (client_frame "join-room" [JStr "r"]) "r" (JArr [JStr "r"]) []).
  - eexists. vm_compute. reflexivity.
  - vm_compute. reflexivity.
  - reflexivity.
Defined.

Lemma disconnectLive_effects_witness :
  let evs := ["chat"; "gift"] in
  let tr := [EOpen; EMessage "0" (client_frame "live:tiktok" [JStr "u"]);
             ESettle 0 (Resolved [("roomId", JStr "7")])] in
  let w := run evs tr in
  let roomId := default JUndefined (conn_roomId <$> conns w !! 0) in
  let gone_event :=
    ("tiktok:disconnected", JObj [("tiktokUsername", JStr "u"); ("roomId", roomId)]) in
  disconnectLive evs "u" w
  = with_next_closure (next_closure w + length evs)
      (emitter_emit gone_event.1 gone_event.2
         (with_live (delete "u") (connection_disconnect 0 w)))
  /\ (conn_on <$> conns (disconnectLive evs "u" w)) = (conn_on <$> conns w)
  /\ conns (disconnectLive evs "u" w)
     = alter (conn_with_status Disconnected) 0 (conns w)
  /\ CurrentLiveMap (disconnectLive evs "u" w) = delete "u" (CurrentLiveMap w)
  /\ emitted (disconnectLive evs "u" w) = emitted w ++ [gone_event].
Proof.
  exact (disconnectLive_effects ["chat"; "gift"]
           [EOpen; EMessage "0" (client_frame "live:tiktok" [JStr "u"]);
            ESettle 0 (Resolved [("roomId", JStr "7")])] "u" 0
           ltac:(vm_compute; reflexivity)).
Defined.


(** * Further properties of the code *)

(** ** What the listeners of the bridge forward *)

Lemma written_with_wire l w : written w (with_wire (fun x => x ++ l) w) = l.
Proof. unfold written. simpl. by rewrite drop_app_length. Qed.

Lemma written_refl w : written w w = [].
Proof. unfold written. by rewrite drop_all. Qed.

Lemma run_listener_wire l p w :
  run_listener l p w = with_wire (fun x => x ++ forwards p w l) w.
Proof.
  unfold run_listener, forwards.
  destruct (get_prop p "tiktokUsername"); try by rewrite with_wire_nil.
  destruct (String.eqb s (lis_user l)); [|by rewrite with_wire_nil].
  unfold socket_emit, deliver.
  destruct (clients w !! lis_socket l); [done | by rewrite with_wire_nil].
Qed.

Lemma forwards_wire p g w l : forwards p (with_wire g w) l = forwards p w l.
Proof. reflexivity. Qed.

Lemma foldl_run_listener p ls w :
  foldl (fun w l => run_listener l p w) w ls
  = with_wire (fun x => x ++ (ls ≫= forwards p w)) w.
Proof.
  revert w. induction ls as [|l ls IH]; intros w; simpl.
  - by rewrite with_wire_nil.
  - rewrite IH, run_listener_wire, with_wire_app. f_equal.
Qed.

Lemma emitter_emit_wire ev p w :
  emitter_emit ev p w
  = with_wire (fun x => x ++ forwarded ev p w)
      (with_emitted (fun es => es ++ [(ev, p)]) w).
Proof. unfold emitter_emit. by rewrite foldl_run_listener. Qed.

Lemma elem_of_forwards p w l id f :
  (id, f) ∈ forwards p w l
  <-> lis_socket l = id /\ is_Some (clients w !! id)
      /\ get_prop p "tiktokUsername" = JStr (lis_user l)
      /\ f = encode (lis_emit l) [p].
Proof.
  unfold forwards. split.
  - destruct (get_prop p "tiktokUsername") eqn:E; try by intros ?%elem_of_nil.
    destruct (String.eqb s (lis_user l)) eqn:Es; [|by intros ?%elem_of_nil].
    apply String.eqb_eq in Es. subst s.
    destruct (clients w !! lis_socket l) eqn:Ec; [|by intros ?%elem_of_nil].
    intros [= -> ->]%list_elem_of_singleton. rewrite Ec. eauto.
  - intros (<- & [s Hs] & -> & ->). rewrite String.eqb_refl, Hs.
    by apply list_elem_of_singleton.
Qed.

Lemma elem_of_listeners_for ev w l :
  l ∈ listeners_for ev w <-> (ev, l) ∈ listeners w.
Proof.
  unfold listeners_for. rewrite list_elem_of_fmap. split.
  - intros ([e l'] & -> & [He Hin]%list_elem_of_filter). simpl in *. by subst.
  - intros Hin. exists (ev, l). split; [done|]. by apply list_elem_of_filter.
Qed.

Lemma elem_of_forwarded ev p w id f :
  (id, f) ∈ forwarded ev p w
  <-> exists l, (ev, l) ∈ listeners w /\ lis_socket l = id
                /\ is_Some (clients w !! id)
                /\ get_prop p "tiktokUsername" = JStr (lis_user l)
                /\ f = encode (lis_emit l) [p].
Proof.
  unfold forwarded. rewrite list_elem_of_bind. split.
  - intros (l & Hf%elem_of_forwards & Hl%elem_of_listeners_for). eauto.
  - intros (l & Hl & Hrest). exists l. split; [by apply elem_of_forwards|].
    by apply elem_of_listeners_for.
Qed.


Lemma forwarded_same ev p w w' :
  listeners w' = listeners w -> clients w' = clients w ->
  forwarded ev p w' = forwarded ev p w.
Proof.
  intros Hl Hc. unfold forwarded, listeners_for. rewrite Hl.
  apply list_bind_ext; [|done]. intros l. unfold forwards. by rewrite Hc.
Qed.






Lemma frames_to_app id l1 l2 :
  frames_to id (l1 ++ l2) = frames_to id l1 ++ frames_to id l2.
Proof. unfold frames_to. by rewrite filter_app, fmap_app. Qed.

Lemma written_emitter_emit ev p w :
  written w (emitter_emit ev p w) = forwarded ev p w.
Proof. rewrite emitter_emit_wire. unfold written. simpl. by rewrite drop_app_length. Qed.

Lemma forwarded_subscribe ev p id u w :
  ev ∈ ["tiktok:connected"; "tiktok:event"; "tiktok:disconnected"] ->
  forwarded ev p (subscribe id u w)
  = forwarded ev p w
    ++ forwards p w {| lis_emit := ev; lis_user := u; lis_socket := id |}.
Proof.
  intros Hev. unfold forwarded, listeners_for.
  rewrite listeners_subscribe, filter_app, fmap_app, bind_app.
  change (forwards p (subscribe id u w)) with (forwards p w). f_equal.
  unfold bridge_listeners.
  repeat (apply elem_of_cons in Hev as [->|Hev]); [| | |by apply elem_of_nil in Hev];
    vm_compute filter; simpl; by rewrite app_nil_r.
Qed.

(** X3.  The listeners pile up, and with them the copies: a
    [live:tiktok] request of an open socket for a username that is
    stored writes nothing itself, and from then on every emission for
    this username on one of the three bridged events is written to the
    socket once more than before.  The other sockets get what they got
    before. *)
Theorem repeated_requests_duplicate_frames (w : World) (id u : string) (c : nat)
  (rest : list jsval) (ev : string) (payload : jsval) :
  CurrentLiveMap w !! u = Some c ->
  is_Some (clients w !! id) ->
  ev ∈ ["tiktok:connected"; "tiktok:event"; "tiktok:disconnected"] ->
  get_prop payload "tiktokUsername" = JStr u ->
  let w' := world_of (run_handler OnLiveTiktok id (JStr u :: rest) w) in
  wire w' = wire w
  /\ frames_to id (written w' (emitter_emit ev payload w'))
     = frames_to id (written w (emitter_emit ev payload w)) ++ [encode ev [payload]]
  /\ (forall id', id' <> id ->
        frames_to id' (written w' (emitter_emit ev payload w'))
        = frames_to id' (written w (emitter_emit ev payload w))).
Proof.
  intros Hc [s Hs] Hev Hu w'. subst w'.
  rewrite (run_handler_live_stored id u c rest w Hc). cbn [world_of].
  split; [done|].
  rewrite !written_emitter_emit, (forwarded_subscribe _ _ _ _ _ Hev).
  rewrite (forwarded_same ev payload w (log _ w)) by done.
  assert (forwards payload (log [JStr "live:tiktok"; JStr u] w)
            {| lis_emit := ev; lis_user := u; lis_socket := id |}
          = [(id, encode ev [payload])]) as ->.
  { unfold forwards. simpl. by rewrite Hu, String.eqb_refl, Hs. }
  split.
  - rewrite frames_to_app. f_equal. unfold frames_to.
    rewrite filter_cons, decide_True by done. done.
  - intros id' Hne. rewrite frames_to_app. unfold frames_to at 2.
    rewrite filter_cons, decide_False by (simpl; congruence).
    simpl. by rewrite app_nil_r.
Qed.

(** ** The listeners that [createLive] puts on a connection *)

Lemma registered_cons u e evs base :
  registered u (e :: evs) base
  = (e, {| clo_id := base; clo_user := u; clo_event := e; clo_event_type := true |})
    :: registered u evs (S base).
Proof.
  unfold registered. rewrite imap_cons, Nat.add_0_r. f_equal.
  apply imap_ext. intros i x _. simpl. do 2 f_equal. lia.
Qed.

Lemma length_registered u evs base : length (registered u evs base) = length evs.
Proof. unfold registered. apply length_imap. Qed.

Lemma alter_app_last {A} (f : A -> A) (l : list A) (x : A) :
  alter f (length l) (l ++ [x]) = l ++ [f x].
Proof.
  pose proof (alter_app_r f l [x] 0) as H. by rewrite Nat.add_0_r in H.
Qed.

Lemma foldl_register_event u c evs w :
  foldl (register_event u c) w evs
  = with_next_closure (next_closure w + length evs)
      (with_conns
         (alter (conn_with_on (fun ls => ls ++ registered u evs (next_closure w))) c)
         w).
Proof.
  revert w. induction evs as [|e evs IH]; intros w.
  - simpl. destruct w. unfold with_next_closure, with_conns. simpl. f_equal.
    + symmetry. apply list_alter_id. intros [? ? ? on]. unfold conn_with_on. simpl.
      by rewrite app_nil_r.
    + lia.
  - cbn [foldl]. rewrite IH. rewrite registered_cons.
    destruct w. unfold register_event, connection_on, conn_update,
      with_next_closure, with_conns. simpl. f_equal.
    + rewrite list_alter_alter_eq. apply list_alter_ext; [|done].
      intros [? ? ? on] _. unfold conn_with_on. simpl. by rewrite <- app_assoc.
    + lia.
Qed.

(** X4.  The success path of [createLive] and [createLiveIfNotExist]:
    for a username that is not stored, when [connect()] resolves with
    [state], the call returns normally; the new connection is stored
    under the username and [getLive] returns it; the connection carries
    one listener per entry of the event table, in the order of the
    table and each a closure of its own; [tiktok:connected] is emitted
    once, with the username, [state.roomId] and [state]; one line goes
    to the console; and the connections and usernames that were there
    are untouched. *)
Theorem createLive_success (evs : list string) (u : string)
  (state : list (string * jsval)) (w : World) :
  CurrentLiveMap w !! u = None ->
  let roomId := get_prop (JObj state) "roomId" in
  let c := length (conns w) in
  exists w',
    createLiveIfNotExist evs u (Resolved state) w = Ok tt w'
    /\ getLive u w' = Some c
    /\ CurrentLiveMap w' = <[u := c]> (CurrentLiveMap w)
    /\ conns w'
       = conns w ++ [ {| conn_user := u; conn_status := Connected;
                         conn_roomId := roomId;
                         conn_on := registered u evs (next_closure w) |} ]
    /\ NoDup (clo_id <$> (snd <$> registered u evs (next_closure w)))
    /\ emitted w'
       = emitted w ++ [("tiktok:connected",
                        JObj [("tiktokUsername", JStr u); ("roomId", roomId);
                              ("state", JObj state)])]
    /\ console w'
       = console w ++ [[JStr ("Connected to roomId " +:+ js_string roomId)]].
Proof.
  intros Hu roomId c.
  unfold createLiveIfNotExist, createLiveIfNotExist_begin. rewrite Hu.
  cbn [createLive_begin]. unfold createLiveIfNotExist_settle.
  cbn [createLive_settle]. fold roomId. fold c.
  set (payload := JObj [("tiktokUsername", JStr u); ("roomId", roomId);
                        ("state", JObj state)]).
  set (w0 := emitter_emit "tiktok:connected" payload _).
  assert (conns w0
          = conns w ++ [ {| conn_user := u; conn_status := Connected;
                            conn_roomId := roomId; conn_on := [] |} ]) as Hconns.
  { subst w0. rewrite (frame_emitter_emit conns) by done.
    cbn [conns log with_console conn_update with_conns].
    unfold c. by rewrite alter_app_last. }
  assert (next_closure w0 = next_closure w) as Hnext.
  { subst w0. by rewrite (frame_emitter_emit next_closure) by done. }
  assert (CurrentLiveMap w0 = CurrentLiveMap w) as Hlive.
  { subst w0. by rewrite (frame_emitter_emit CurrentLiveMap) by done. }
  assert (emitted w0 = emitted w ++ [("tiktok:connected", payload)]) as Hem.
  { subst w0. by rewrite emitted_emitter_emit. }
  assert (console w0
          = console w ++ [[JStr ("Connected to roomId " +:+ js_string roomId)]])
    as Hcon.
  { subst w0. by rewrite (frame_emitter_emit console) by done. }
  clearbody w0. rewrite foldl_register_event.
  eexists. split; [reflexivity|].
  cbn [getLive CurrentLiveMap conns emitted console with_live with_next_closure
         with_conns].
  rewrite Hconns, Hnext, Hlive, Hem, Hcon.
  split; [apply lookup_insert_eq|]. split; [done|].
  split; [|split; [|done]].
  - unfold c. by rewrite alter_app_last.
  - unfold registered. rewrite <- list_fmap_compose, fmap_imap.
    apply NoDup_alt. intros i j x Hi Hj.
    rewrite list_lookup_imap in Hi. rewrite list_lookup_imap in Hj.
    destruct (evs !! i); [|done]. destruct (evs !! j); [|done].
    simpl in *. injection Hi as <-. injection Hj as Hj. lia.
Qed.

(** ** The connections along an event trace *)

Section Links.
Variable evs : list string.

Lemma links_empty : links evs [] [] ∅.
Proof. split; try done. simpl. apply NoDup_nil_2. Qed.

Lemma links_new cs ps m s u :
  links evs cs ps m ->
  links evs
    (cs ++ [ {| conn_user := u; conn_status := Connecting;
                conn_roomId := JUndefined; conn_on := [] |} ])
    (ps ++ [ {| task_socket := s; task_user := u; task_conn := length cs |} ])
    m.
Proof.
  intros [Hshape Hpend Hdist Hstored]. split.
  - intros c conn Hc. apply lookup_app_Some in Hc as [Hc|[_ Hc]].
    + by apply (Hshape c).
    + apply list_lookup_singleton_Some in Hc as [_ Heq]. by subst conn.
  - intros i t Ht. apply lookup_app_Some in Ht as [Ht|[_ Ht]].
    + destruct (Hpend i t Ht) as (conn & Hc & Hrest). exists conn.
      split; [|done]. by apply lookup_app_l_Some.
    + apply list_lookup_singleton_Some in Ht as [_ Heq]. subst t. simpl.
      eexists. split; [rewrite lookup_app_r by done; by rewrite Nat.sub_diag | done].
  - rewrite fmap_app. apply NoDup_app. split; [done|]. split.
    + intros c Hc Hin. apply list_elem_of_singleton in Hin. simpl in Hin. subst c.
      apply list_elem_of_fmap in Hc as (t & Ht & Hin).
      apply list_elem_of_lookup in Hin as [i Hi].
      destruct (Hpend i t Hi) as (conn & Hc & _).
      apply lookup_lt_Some in Hc. lia.
    + apply NoDup_singleton.
  - intros u' c Hu. destruct (Hstored u' c Hu) as (conn & Hc & Hrest).
    exists conn. split; [|done]. by apply lookup_app_l_Some.
Qed.

Lemma lookup_delete_elsewhere {A} (l : list A) i j x :
  delete i l !! j = Some x -> exists j', j' <> i /\ l !! j' = Some x.
Proof.
  rewrite list_lookup_delete. case_decide; intros Hx; eexists; (split; [|exact Hx]); lia.
Qed.

Lemma links_other_task cs ps m i t j t' :
  links evs cs ps m -> ps !! i = Some t -> delete i ps !! j = Some t' ->
  task_conn t' <> task_conn t.
Proof.
  intros Hl Ht Ht' Heq.
  apply lookup_delete_elsewhere in Ht' as (j' & Hne & Hj').
  apply Hne. eapply (NoDup_lookup _ j' i (task_conn t)); [apply (inv_distinct _ _ _ _ Hl)| |].
  - by rewrite list_lookup_fmap, Hj', <- Heq.
  - by rewrite list_lookup_fmap, Ht.
Qed.

Lemma links_settle cs ps m i t (F : Connection -> Connection) (m' : gmap string nat) :
  links evs cs ps m -> ps !! i = Some t ->
  (forall conn, conn_status conn = Connecting -> conn_on conn = [] ->
                conn_user conn = task_user t ->
                conn_user (F conn) = conn_user conn
                /\ if settled (conn_status (F conn))
                   then exists base, conn_on (F conn) = registered (conn_user conn) evs base
                   else conn_on (F conn) = []) ->
  (forall u c, m' !! u = Some c ->
               m !! u = Some c
               \/ (u = task_user t /\ c = task_conn t
                   /\ forall conn, conn_status (F conn) = Connected)) ->
  links evs (alter F (task_conn t) cs) (delete i ps) m'.
Proof.
  intros Hl Ht HF Hm. pose proof Hl as [Hshape Hpend Hdist Hstored].
  destruct (Hpend i t Ht) as (conn0 & Hc0 & Hst0 & Hu0).
  pose proof (Hshape _ _ Hc0) as Hon0. rewrite Hst0 in Hon0. simpl in Hon0.
  destruct (HF conn0 Hst0 Hon0 Hu0) as [HFu HFon].
  split.
  - intros c conn Hc. destruct (decide (c = task_conn t)) as [->|Hne].
    + rewrite list_lookup_alter_eq, Hc0 in Hc. simpl in Hc.
      injection Hc as Heq. subst conn. by rewrite HFu.
    + rewrite list_lookup_alter_ne in Hc by done. by apply (Hshape c).
  - intros j t' Ht'.
    pose proof (links_other_task _ _ _ _ _ _ _ Hl Ht Ht') as Hne.
    apply lookup_delete_elsewhere in Ht' as (j' & _ & Hj').
    destruct (Hpend j' t' Hj') as (conn & Hc & Hrest). exists conn.
    split; [|done]. by rewrite list_lookup_alter_ne.
  - rewrite list_fmap_delete. apply (sublist_NoDup _ (task_conn <$> ps)); [exact Hdist | apply sublist_delete].
  - intros u c Hu. destruct (Hm u c Hu) as [Hold|(-> & -> & HFst)].
    + destruct (Hstored u c Hold) as (conn & Hc & Hst & Hcu). exists conn.
      split; [|done]. rewrite list_lookup_alter_ne; [done|].
      intros <-. rewrite Hc0 in Hc. injection Hc as Heq. subst conn. congruence.
    + exists (F conn0). split; [by rewrite list_lookup_alter_eq, Hc0|].
      split; [apply HFst | congruence].
Qed.

Lemma links_disconnect cs ps m u c :
  links evs cs ps m -> m !! u = Some c ->
  links evs (alter (conn_with_status Disconnected) c cs) ps (delete u m).
Proof.
  intros Hl Hu. pose proof Hl as [Hshape Hpend Hdist Hstored].
  destruct (Hstored u c Hu) as (conn0 & Hc0 & Hst0 & Hu0).
  pose proof (Hshape _ _ Hc0) as Hon0. rewrite Hst0 in Hon0. simpl in Hon0.
  split.
  - intros c' conn Hc. destruct (decide (c' = c)) as [->|Hne].
    + rewrite list_lookup_alter_eq, Hc0 in Hc. simpl in Hc.
      injection Hc as Heq. subst conn. done.
    + rewrite list_lookup_alter_ne in Hc by done. by apply (Hshape c').
  - intros j t' Ht'. destruct (Hpend j t' Ht') as (conn & Hc & Hst & Hcu).
    exists conn. split; [|done]. rewrite list_lookup_alter_ne; [done|].
    intros ->. rewrite Hc0 in Hc. injection Hc as Heq. subst conn. congruence.
  - done.
  - intros u' c' Hu'. apply lookup_delete_Some in Hu' as [Hne Hu'].
    destruct (Hstored u' c' Hu') as (conn & Hc & Hst & Hcu). exists conn.
    split; [|done]. rewrite list_lookup_alter_ne; [done|].
    intros <-. rewrite Hc0 in Hc. injection Hc as Heq. subst conn. congruence.
Qed.

End Links.

Lemma bridge_state_wire : ignores bridge_state with_wire. Proof. by intros g w. Qed.
Lemma bridge_state_emitted : ignores bridge_state with_emitted. Proof. by intros g w. Qed.
Lemma bridge_state_console : ignores bridge_state with_console. Proof. by intros g w. Qed.

Lemma conn_inv_same evs w w' :
  bridge_state w' = bridge_state w -> conn_inv evs w -> conn_inv evs w'.
Proof. unfold conn_inv. by intros [= -> -> ->]. Qed.

Lemma conn_inv_init evs : conn_inv evs init.
Proof. apply links_empty. Qed.

Lemma conn_inv_run_handler evs h id args w :
  conn_inv evs w -> conn_inv evs (world_of (run_handler h id args w)).
Proof.
  intros Hw. destruct h; simpl.
  - eapply conn_inv_same; [|exact Hw].
    by rewrite (frame_to_emit bridge_state bridge_state_wire),
               (frame_socket_emit bridge_state bridge_state_wire).
  - destruct (arg 0 args); try done. simpl.
    eapply conn_inv_same; [|exact Hw].
    by rewrite (frame_to_emit bridge_state bridge_state_wire),
               (frame_socket_emit bridge_state bridge_state_wire).
  - destruct (nullish (arg 0 args)); [done|].
    repeat case_match; simpl; (eapply conn_inv_same; [|exact Hw]);
      by rewrite (frame_socket_emit bridge_state bridge_state_wire).
  - destruct (arg 0 args); try done.
    unfold createLiveIfNotExist_begin.
    change (CurrentLiveMap (log ?l w)) with (CurrentLiveMap w).
    destruct (CurrentLiveMap w !! s); cbn [world_of]; [done|].
    by apply links_new.
  - done.
Qed.

Lemma conn_inv_run_handlers evs hs id args w :
  conn_inv evs w -> conn_inv evs (world_of (run_handlers hs id args w)).
Proof.
  apply (run_handlers_invariant (conn_inv evs)).
  intros. by apply conn_inv_run_handler.
Qed.

Lemma bridge_state_settle_task evs i t o w :
  pending w !! i = Some t ->
  bridge_state (settle_task evs i o w)
  = match o with
    | Resolved state =>
        (alter (fun conn =>
                  conn_with_on
                    (fun ls => ls ++ registered (task_user t) evs (next_closure w))
                    (conn_with_roomId (get_prop (JObj state) "roomId")
                       (conn_with_status Connected conn)))
           (task_conn t) (conns w),
         delete i (pending w),
         <[task_user t := task_conn t]> (CurrentLiveMap w))
    | Rejected err =>
        (alter (conn_with_status Failed) (task_conn t) (conns w),
         delete i (pending w), CurrentLiveMap w)
    end.
Proof.
  intros Ht. unfold settle_task. rewrite Ht. cbv zeta.
  unfold createLiveIfNotExist_settle. destruct o as [state|err].
  - cbn [createLive_settle]. rewrite foldl_register_event.
    unfold bridge_state.
    cbn [subscribe emitter_on getLive conns pending CurrentLiveMap with_listeners
           with_live with_next_closure with_conns].
    rewrite !(frame_emitter_emit conns), !(frame_emitter_emit pending),
      !(frame_emitter_emit CurrentLiveMap), !(frame_emitter_emit next_closure)
      by done.
    cbn [conns pending CurrentLiveMap next_closure log with_console conn_update
           with_conns with_pending].
    by rewrite list_alter_alter_eq.
  - cbn [createLive_settle createLive_catch]. unfold bridge_state.
    rewrite !(frame_emitter_emit conns), !(frame_emitter_emit pending),
      !(frame_emitter_emit CurrentLiveMap) by done.
    done.
Qed.

Lemma conn_inv_settle_task evs i o w :
  conn_inv evs w -> conn_inv evs (settle_task evs i o w).
Proof.
  intros Hw. destruct (pending w !! i) as [t|] eqn:Ht;
    [|unfold settle_task; by rewrite Ht].
  unfold conn_inv.
  pose proof (bridge_state_settle_task evs i t o w Ht) as Hb.
  destruct o as [state|err]; injection Hb as -> -> ->.
  - apply (links_settle evs _ _ (CurrentLiveMap w)); [done..| |].
    + intros [cu cst cr con] Hst Hon Hu. simpl in *. subst.
      split; [done|]. by eexists.
    + intros u c Hu. destruct (decide (u = task_user t)) as [->|Hne].
      * rewrite lookup_insert_eq in Hu. injection Hu as <-. right.
        repeat split; try done.
      * rewrite lookup_insert_ne in Hu by done. by left.
  - apply (links_settle evs _ _ (CurrentLiveMap w)); [done..| |].
    + intros [cu cst cr con] Hst Hon Hu. simpl in *. by subst.
    + intros u c Hu. by left.
Qed.

Lemma disconnectLive_fresh evs u c w :
  closures_known w -> getLive u w = Some c ->
  disconnectLive evs u w
  = with_next_closure (next_closure w + length evs)
      (emitter_emit "tiktok:disconnected"
         (JObj [("tiktokUsername", JStr u);
                ("roomId", default JUndefined (conn_roomId <$> conns w !! c))])
         (with_live (delete u) (connection_disconnect c w))).
Proof.
  intros Hk Hc. unfold disconnectLive. rewrite Hc.
  rewrite foldl_unregister_fresh.
  - rewrite (frame_emitter_emit next_closure) by done.
    cbn [next_closure with_live connection_disconnect conn_update with_conns conns].
    do 4 f_equal. rewrite list_lookup_alter_eq.
    by destruct (conns w !! c).
  - eapply closures_known_heap.
    { apply (frame_emitter_emit heap heap_wire heap_emitted). }
    change (closures_known (connection_disconnect c w)).
    by apply closures_known_update.
Qed.

Lemma bridge_state_disconnectLive evs u c w :
  closures_known w -> getLive u w = Some c ->
  bridge_state (disconnectLive evs u w)
  = (alter (conn_with_status Disconnected) c (conns w), pending w,
     delete u (CurrentLiveMap w)).
Proof.
  intros Hk Hc. rewrite (disconnectLive_fresh evs u c w Hk Hc).
  unfold bridge_state.
  cbn [conns pending CurrentLiveMap with_next_closure].
  by rewrite !(frame_emitter_emit conns), !(frame_emitter_emit pending),
    !(frame_emitter_emit CurrentLiveMap) by done.
Qed.

Lemma conn_inv_disconnectLive evs u w :
  closures_known w -> conn_inv evs w -> conn_inv evs (disconnectLive evs u w).
Proof.
  intros Hk Hw. destruct (getLive u w) as [c|] eqn:Hc;
    [|unfold disconnectLive; by rewrite Hc].
  unfold conn_inv.
  pose proof (bridge_state_disconnectLive evs u c w Hk Hc) as Hb.
  injection Hb as -> -> ->. by apply links_disconnect.
Qed.

Lemma conn_inv_step evs w e :
  closures_known w -> conn_inv evs w -> conn_inv evs (step evs w e).
Proof.
  intros Hk Hw. destruct e; cbn [step].
  - done.
  - unfold handleMessage. destruct (clients w !! id); [|done].
    destruct (decode raw); [|done]. by apply conn_inv_run_handlers.
  - rewrite world_of_handleClose. destruct (clients w !! id); [|done].
    change (conn_inv evs
              (world_of (run_handlers (handlers_for id "disconnect" w) id [] w))).
    by apply conn_inv_run_handlers.
  - eapply conn_inv_same; [|exact Hw].
    apply (frame_broadcast bridge_state bridge_state_wire).
  - by apply conn_inv_settle_task.
  - eapply conn_inv_same; [|exact Hw].
    apply (frame_webcast bridge_state bridge_state_wire bridge_state_emitted).
  - by apply conn_inv_disconnectLive.
Qed.

Lemma conn_inv_run evs tr : conn_inv evs (run evs tr).
Proof.
  induction tr as [|e tr IH] using rev_ind; [apply conn_inv_init|].
  rewrite run_snoc. apply conn_inv_step; [apply closures_known_run | done].
Qed.

(** ** Webcast events, from the connection to the sockets *)

Lemma filter_registered u ev evs base :
  Forall (fun clo => clo_user clo = u /\ clo_event clo = ev
                     /\ clo_event_type clo = true)
    (snd <$> filter (fun el : string * Closure => el.1 = ev) (registered u evs base))
  /\ length (snd <$> filter (fun el : string * Closure => el.1 = ev)
                       (registered u evs base))
     = occurrences ev evs.
Proof.
  revert base. induction evs as [|e evs IH]; intros base.
  - split; [apply Forall_nil_2 | done].
  - rewrite registered_cons. destruct (IH (S base)) as [IH1 IH2].
    unfold occurrences in *. rewrite !filter_cons. cbn [fst].
    destruct (decide (e = ev)) as [->|Hne].
    + rewrite fmap_cons. split; [by apply Forall_cons|].
      cbn [length]. by rewrite IH2.
    + done.
Qed.

Lemma foldl_same_closures (E : World -> World) data cls w :
  Forall (fun clo => forall w, run_closure clo data w = E w) cls ->
  foldl (fun w clo => run_closure clo data w) w cls = Nat.iter (length cls) E w.
Proof.
  intros H. revert w. induction H as [|clo cls Hclo _ IH]; intros w; [done|].
  cbn [foldl length]. rewrite IH, Hclo. by rewrite Nat.iter_succ_r.
Qed.

Lemma webcast_settled evs c conn ev data w :
  conn_inv evs w -> conns w !! c = Some conn ->
  webcast c ev data w
  = if settled (conn_status conn)
    then Nat.iter (occurrences ev evs)
           (emitter_emit "tiktok:event" (event_payload (conn_user conn) ev data)) w
    else w.
Proof.
  intros Hw Hc. unfold webcast. rewrite Hc.
  pose proof (inv_shape _ _ _ _ Hw c conn Hc) as Hon.
  destruct (settled (conn_status conn)).
  - destruct Hon as [base ->].
    destruct (filter_registered (conn_user conn) ev evs base) as [Hall Hlen].
    rewrite <- Hlen. apply foldl_same_closures.
    eapply Forall_impl; [exact Hall|].
    intros [n cu ce ct] (Hu & He & Ht) w'. simpl in *. subst.
    reflexivity.
  - by rewrite Hon.
Qed.

(** X5.  A webcast event that the library reports on a connection whose
    [connect()] has resolved is emitted on the shared emitter as
    [tiktok:event], once for each time its name stands in the event
    table, with the username of the connection, the event name as
    [event] and as [eventType], and the data; an event whose name is not
    in the table, or on a connection that is still connecting or has
    failed, does nothing.  This holds in every world an event trace leads
    to, also after [disconnectLive], which leaves the listeners on the
    connection. *)
Theorem webcast_emits_per_table_entry (evs : list string) (tr : list Event)
  (c : nat) (ev : string) (data : jsval) :
  let w := run evs tr in
  webcast c ev data w
  = match conns w !! c with
    | Some conn =>
        if settled (conn_status conn)
        then Nat.iter (occurrences ev evs)
               (emitter_emit "tiktok:event"
                  (event_payload (conn_user conn) ev data)) w
        else w
    | None => w
    end.
Proof.
  intros w. destruct (conns w !! c) as [conn|] eqn:Hc.
  - apply (webcast_settled evs); [apply conn_inv_run | done].
  - unfold webcast. by rewrite Hc.
Qed.

(** X6.  In every world an event trace leads to, what [getLive] returns
    for a username is a connection that was made for this username, whose
    [connect()] has resolved and that [disconnectLive] has not
    disconnected, and it carries the listeners of [createLive]: one per
    entry of the event table.  This holds also when requests overlap. *)
Theorem stored_connection_is_connected (evs : list string) (tr : list Event)
  (u : string) (c : nat) :
  getLive u (run evs tr) = Some c ->
  exists conn base,
    conns (run evs tr) !! c = Some conn
    /\ conn_user conn = u
    /\ conn_status conn = Connected
    /\ conn_on conn = registered u evs base.
Proof.
  intros Hc. pose proof (conn_inv_run evs tr) as Hw.
  destruct (inv_stored _ _ _ _ Hw u c Hc) as (conn & Hconn & Hst & Hu).
  pose proof (inv_shape _ _ _ _ Hw c conn Hconn) as Hon.
  rewrite Hst in Hon. simpl in Hon. destruct Hon as [base Hon].
  exists conn, base. repeat split; try done. by rewrite <- Hu.
Qed.

Lemma bridged_same w w' : listeners w' = listeners w ->
  bridged (listeners w) -> bridged (listeners w').
Proof. by intros ->. Qed.

Lemma bridged_subscribe id u w :
  bridged (listeners w) -> bridged (listeners (subscribe id u w)).
Proof.
  intros H. rewrite listeners_subscribe. apply Forall_app. split; [done|].
  unfold bridge_listeners. by repeat constructor.
Qed.

Lemma bridged_run_handler h id args w :
  bridged (listeners w) -> bridged (listeners (world_of (run_handler h id args w))).
Proof.
  intros Hw. destruct h; simpl.
  - by rewrite (frame_to_emit listeners listeners_wire),
               (frame_socket_emit listeners listeners_wire).
  - destruct (arg 0 args); try done. simpl.
    by rewrite (frame_to_emit listeners listeners_wire),
               (frame_socket_emit listeners listeners_wire).
  - destruct (nullish (arg 0 args)); [done|].
    repeat case_match; simpl; by rewrite (frame_socket_emit listeners listeners_wire).
  - destruct (arg 0 args); try done.
    unfold createLiveIfNotExist_begin.
    change (CurrentLiveMap (log ?l w)) with (CurrentLiveMap w).
    destruct (CurrentLiveMap w !! s); cbn [world_of]; [|done].
    by apply bridged_subscribe.
  - done.
Qed.

Lemma bridged_step evs w e :
  bridged (listeners w) -> bridged (listeners (step evs w e)).
Proof.
  intros Hw. destruct e; cbn [step].
  - done.
  - unfold handleMessage. destruct (clients w !! id); [|done].
    destruct (decode raw); [|done].
    apply (run_handlers_invariant (fun w => bridged (listeners w))); [|done].
    intros. by apply bridged_run_handler.
  - rewrite world_of_handleClose. destruct (clients w !! id); [|done].
    change (bridged (listeners
              (world_of (run_handlers (handlers_for id "disconnect" w) id [] w)))).
    apply (run_handlers_invariant (fun w => bridged (listeners w))); [|done].
    intros. by apply bridged_run_handler.
  - unfold broadcastAll. by rewrite (frame_broadcast listeners listeners_wire).
  - unfold settle_task. destruct (pending w !! task) as [t|]; [|done].
    pose proof (listeners_settle evs (task_user t) (task_conn t) o
                  (with_pending (delete task) w)) as H.
    destruct (createLiveIfNotExist_settle _ _ _ _ _); cbn [world_of] in H.
    + apply bridged_subscribe. by rewrite H.
    + by rewrite H.
  - by rewrite (frame_webcast listeners listeners_wire listeners_emitted).
  - rewrite (frame_disconnectLive listeners listeners_wire listeners_emitted
               listeners_conns) by (done || apply listeners_live). done.
Qed.

Lemma bridged_run evs tr : bridged (listeners (run evs tr)).
Proof.
  induction tr as [|e tr IH] using rev_ind; [apply Forall_nil_2|].
  rewrite run_snoc. by apply bridged_step.
Qed.

Lemma filter_none {A} (P : A -> Prop) `{forall x, Decision (P x)} (l : list A) :
  (forall x, x ∈ l -> ~ P x) -> filter P l = [].
Proof.
  induction l as [|a l IH]; intros Hl; [done|].
  rewrite filter_cons, decide_False by (apply Hl; left).
  apply IH. intros x Hx. apply Hl. by right.
Qed.

Lemma count_forwards ev payload w u id ls :
  get_prop payload "tiktokUsername" = JStr u ->
  is_Some (clients w !! id) -> bridged ls ->
  length (filter (fun p : string * string => p.1 = id)
            ((snd <$> filter (fun el : string * Listener => el.1 = ev) ls)
               ≫= forwards payload w))
  = length (filter (fun el => el = (ev, {| lis_emit := ev; lis_user := u;
                                           lis_socket := id |})) ls).
Proof.
  intros Hu [s Hs] Hb. induction Hb as [|[e l] ls He _ IH]; [done|].
  simpl in He. rewrite !filter_cons. cbn [fst].
  destruct (decide (e = ev)) as [->|Hne].
  - rewrite fmap_cons, bind_cons, filter_app, length_app, IH. cbn [snd].
    destruct (decide ((ev, l) = (ev, {| lis_emit := ev; lis_user := u;
                                        lis_socket := id |}))) as [Heq|Hl].
    + injection Heq as ->. unfold forwards. cbn [lis_user lis_socket lis_emit].
      rewrite Hu, String.eqb_refl, Hs, filter_cons, decide_True by done. done.
    + assert (filter (fun p : string * string => p.1 = id) (forwards payload w l) = [])
        as ->; [|done].
      apply filter_none.
      intros [a b] Hab%elem_of_forwards Ha. simpl in Ha. subst a.
      destruct Hab as (Hsock & _ & Hpu & _). rewrite Hu in Hpu. injection Hpu as Hpu.
      apply Hl. destruct l. simpl in *. by subst.
  - rewrite decide_False by congruence. apply IH.
Qed.

(** X7.  The bridge end to end.  In every world an event trace leads to,
    when the library reports an event whose name stands once in the
    event table on the connection stored for a username, [tiktok:event]
    is emitted once, and a [tiktok:event] frame with the username, the
    event name and the data is written once for every [tiktok:event]
    listener that an earlier request for this username left on the
    emitter and whose socket is still open, and to nobody else: not to
    the sockets that asked for another username only, and not to closed
    ones. *)
Theorem stored_live_events_reach_subscribers (evs : list string) (tr : list Event)
  (u : string) (c : nat) (ev : string) (data : jsval) :
  getLive u (run evs tr) = Some c ->
  occurrences ev evs = 1 ->
  let w := run evs tr in
  let w' := webcast c ev data w in
  let payload := event_payload u ev data in
  emitted w' = emitted w ++ [("tiktok:event", payload)]
  /\ wire w' = wire w ++ written w w'
  /\ (forall id f,
        (id, f) ∈ written w w'
        <-> f = encode "tiktok:event" [payload]
            /\ is_Some (clients w !! id)
            /\ ("tiktok:event",
                {| lis_emit := "tiktok:event"; lis_user := u; lis_socket := id |})
               ∈ listeners w)
  /\ (forall id,
        is_Some (clients w !! id) ->
        length (frames_to id (written w w'))
        = length (filter (fun el => el = ("tiktok:event",
                                          {| lis_emit := "tiktok:event";
                                             lis_user := u; lis_socket := id |}))
                    (listeners w))).
Proof.
  intros Hc Hocc w w' payload.
  pose proof (conn_inv_run evs tr) as Hw. fold w in Hw, Hc.
  destruct (inv_stored _ _ _ _ Hw u c Hc) as (conn & Hconn & Hst & Hu).
  assert (w' = emitter_emit "tiktok:event" payload w) as Hw'.
  { subst w'. rewrite (webcast_settled evs c conn ev data w Hw Hconn).
    by rewrite Hst, Hocc, Hu. }
  rewrite Hw', written_emitter_emit, emitter_emit_wire. simpl.
  pose proof (bridged_run evs tr) as Hb. fold w in Hb.
  split; [done|]. split; [done|]. split.
  - intros id f. rewrite elem_of_forwarded. split.
    + intros (l & Hl & Hs & Ho & Hpu & ->).
      pose proof (proj1 (Forall_forall _ _) Hb _ Hl) as He. simpl in He.
      injection Hpu as Hpu. destruct l as [le lu ls]. simpl in *. subst.
      done.
    + intros (-> & Ho & Hl). eexists. split; [exact Hl|]. done.
  - intros id Ho. unfold frames_to. rewrite length_fmap.
    by apply count_forwards.
Qed.

(** ** The handlers of the connection hook *)




Lemma app_handlers_other ev :
  ev ∉ ["message"; "join-room"; "private-message"; "live:tiktok"; "disconnect"] ->
  app_handlers !! ev = None.
Proof.
  intros H. unfold app_handlers.
  rewrite !lookup_insert_ne; [apply lookup_empty|..];
    intros <-; apply H; repeat constructor.
Qed.

(** X10.  The connection hook registers handlers for five event names,
    one handler each, and nothing registers any other: in every world an
    event trace leads to, an open socket has exactly these, and a frame
    with any other event name changes nothing at all. *)
Theorem only_five_events_are_handled (evs : list string) (tr : list Event) :
  let w := run evs tr in
  (forall id s, clients w !! id = Some s ->
     sock_handlers s
     = list_to_map [("message", [OnMessage]); ("join-room", [OnJoinRoom]);
                    ("private-message", [OnPrivateMessage]);
                    ("live:tiktok", [OnLiveTiktok]);
                    ("disconnect", [OnDisconnect])])
  /\ (forall id raw e,
        decode raw = Some e ->
        event e ∉ ["message"; "join-room"; "private-message"; "live:tiktok";
                   "disconnect"] ->
        handleMessage id raw w = Ok tt w).
Proof.
  intros w. pose proof (hub_inv_run evs tr) as Hw. fold w in Hw. split.
  - intros id s Hs. rewrite (inv_handlers w Hw id s Hs). by vm_compute.
  - intros id raw e He Hev. unfold handleMessage.
    destruct (clients w !! id) as [s|] eqn:Hs; [|done]. rewrite He.
    rewrite (handlers_for_inv id (event e) w Hw) by by eexists.
    by rewrite (app_handlers_other _ Hev).
Qed.

(** ** Rooms are joined and never left *)

Lemma members_of_same r w w' : hub_same w w' -> members_of r w' = members_of r w.
Proof. intros (_ & Hr & _). unfold members_of. by rewrite Hr. Qed.

Lemma member_run_handler id r h id' args w :
  r <> "general" -> id ∈ members_of r w ->
  id ∈ members_of r (world_of (run_handler h id' args w)).
Proof.
  intros Hr Hin. destruct (decide (h = OnJoinRoom)) as [->|Hh].
  - simpl. destruct (arg 0 args) as [| | | |room| |]; try done. simpl.
    rewrite (members_of_same r _ _ (hub_same_to_emit _ _ _ _ _)).
    rewrite (members_of_same r _ _ (hub_same_socket_emit _ _ _ _)).
    rewrite members_of_join.
    assert (members_of r (leave id' "general" w) = members_of r w) as Hl.
    { rewrite members_of_leave. by rewrite decide_False. }
    destruct (decide (r = room)) as [->|]; [|by rewrite Hl].
    rewrite Hl. set_solver.
  - by rewrite (members_of_same r _ _ (hub_same_run_handler h id' args w Hh)).
Qed.

Lemma member_run_handlers id r hs id' args w :
  r <> "general" -> id ∈ members_of r w ->
  id ∈ members_of r (world_of (run_handlers hs id' args w)).
Proof.
  intros Hr. apply (run_handlers_invariant (fun w => id ∈ members_of r w)).
  intros. by apply member_run_handler.
Qed.

Lemma member_step evs id r w e :
  r <> "general" -> id ∈ members_of r w ->
  id ∈ members_of r (step evs w e) \/ clients (step evs w e) !! id = None.
Proof.
  intros Hr Hin. destruct e; cbn [step].
  - left. rewrite members_of_handleOpen. by rewrite decide_False.
  - left. unfold handleMessage. destruct (clients w !! id0); [|done].
    destruct (decode raw); [|done]. by apply member_run_handlers.
  - destruct (decide (id0 = id)) as [->|Hne].
    + destruct (clients w !! id) eqn:Hc.
      * right. apply clients_after_close.
      * left. rewrite world_of_handleClose. by rewrite Hc.
    + left. rewrite world_of_handleClose. destruct (clients w !! id0); [|done].
      change (members_of r (remove id0 ?x)) with (members_of r x).
      rewrite members_of_leave_all.
      pose proof (member_run_handlers id r (handlers_for id0 "disconnect" w) id0 []
                    w Hr Hin).
      set_solver.
  - left. by rewrite (members_of_same r _ _ (hub_same_broadcastAll _ _)).
  - left. by rewrite (members_of_same r _ _ (hub_same_settle_task _ _ _ _)).
  - left. by rewrite (members_of_same r _ _ (hub_same_webcast _ _ _ _)).
  - left. by rewrite (members_of_same r _ _ (hub_same_disconnectLive _ _ _)).
Qed.

Lemma run_app evs tr1 tr2 : run evs (tr1 ++ tr2) = foldl (step evs) (run evs tr1) tr2.
Proof. unfold run. apply foldl_app. Qed.

Lemma next_id_run_app evs tr1 tr2 :
  (next_id (run evs tr1) <= next_id (run evs (tr1 ++ tr2)))%N.
Proof.
  induction tr2 as [|e tr2 IH] using rev_ind; [by rewrite app_nil_r|].
  rewrite app_assoc, run_snoc.
  destruct (registry_step evs (run evs (tr1 ++ tr2)) e) as [H _]. lia.
Qed.

Lemma open_before evs tr1 tr2 e id :
  id ∈ dom (clients (run evs tr1)) ->
  is_Some (clients (run evs ((tr1 ++ tr2) ++ [e])) !! id) ->
  is_Some (clients (run evs (tr1 ++ tr2)) !! id).
Proof.
  intros Hin Hopen. rewrite run_snoc in Hopen.
  apply elem_of_dom. apply elem_of_dom in Hopen.
  destruct (registry_step evs (run evs (tr1 ++ tr2)) e) as [_ Hd].
  apply Hd in Hopen. apply elem_of_union in Hopen as [Hopen|Hnew]; [done|].
  apply elem_of_singleton in Hnew.
  destruct (inv_issued _ (hub_inv_run evs tr1) id Hin) as (k & Hk & ->).
  unfold fresh_id in Hnew. apply (inj pretty) in Hnew.
  pose proof (next_id_run_app evs tr1 tr2). lia.
Qed.

(** X11.  The [join-room] handler leaves [general] and no other room,
    and nothing else takes a socket out of a room but its close: along
    every event trace, a socket that is a member of a room other than
    [general] is still a member of it at any later point at which it is
    open.  So a socket that joins one room after the other is a member
    of all of them. *)
Theorem joined_rooms_are_kept (evs : list string) (tr1 tr2 : list Event)
  (id r : string) :
  r <> "general" ->
  id ∈ members_of r (run evs tr1) ->
  is_Some (clients (run evs (tr1 ++ tr2)) !! id) ->
  id ∈ members_of r (run evs (tr1 ++ tr2)).
Proof.
  intros Hr Hin. induction tr2 as [|e tr2 IH] using rev_ind.
  - by rewrite app_nil_r.
  - rewrite app_assoc. intros Hopen.
    assert (id ∈ dom (clients (run evs tr1))) as Hdom.
    { by apply (inv_members _ (hub_inv_run evs tr1) r). }
    specialize (IH (open_before evs tr1 tr2 e id Hdom Hopen)).
    rewrite run_snoc in *.
    destruct (member_step evs id r _ e Hr IH) as [H|H]; [done|].
    rewrite H in Hopen. by destruct Hopen.
Qed.

(** ** The entries of [CurrentLiveMap] *)

Lemma live_run_handler h id args w :
  CurrentLiveMap (world_of (run_handler h id args w)) = CurrentLiveMap w.
Proof.
  destruct h; simpl.
  - by rewrite (frame_to_emit CurrentLiveMap live_wire),
               (frame_socket_emit CurrentLiveMap live_wire).
  - destruct (arg 0 args); try done. simpl.
    by rewrite (frame_to_emit CurrentLiveMap live_wire),
               (frame_socket_emit CurrentLiveMap live_wire).
  - destruct (nullish (arg 0 args)); [done|].
    repeat case_match; simpl; by rewrite (frame_socket_emit CurrentLiveMap live_wire).
  - destruct (arg 0 args); try done.
    unfold createLiveIfNotExist_begin.
    change (CurrentLiveMap (log ?l w)) with (CurrentLiveMap w).
    by destruct (CurrentLiveMap w !! s).
  - done.
Qed.

Lemma live_run_handlers hs id args w :
  CurrentLiveMap (world_of (run_handlers hs id args w)) = CurrentLiveMap w.
Proof.
  apply (run_handlers_invariant (fun w' => CurrentLiveMap w' = CurrentLiveMap w));
    [|done].
  intros h w' <-. apply live_run_handler.
Qed.

Lemma live_disconnectLive evs u w :
  CurrentLiveMap (disconnectLive evs u w) = delete u (CurrentLiveMap w).
Proof.
  destruct (getLive u w) as [c|] eqn:Hc.
  - by destruct (conns_disconnectLive evs u w c Hc) as [_ ->].
  - unfold disconnectLive. rewrite Hc. symmetry. by apply delete_id.
Qed.

Lemma stored_step evs u w e :
  e <> EDisconnectLive u ->
  is_Some (CurrentLiveMap w !! u) -> is_Some (CurrentLiveMap (step evs w e) !! u).
Proof.
  intros He Hu. destruct e; cbn [step].
  - done.
  - unfold handleMessage. destruct (clients w !! id); [|done].
    destruct (decode raw); [|done]. by rewrite live_run_handlers.
  - rewrite world_of_handleClose. destruct (clients w !! id); [|done].
    change (CurrentLiveMap (remove id (leave_all id ?x))) with (CurrentLiveMap x).
    by rewrite live_run_handlers.
  - unfold broadcastAll. by rewrite (frame_broadcast CurrentLiveMap live_wire).
  - destruct (pending w !! task) as [t|] eqn:Ht;
      [|unfold settle_task; by rewrite Ht].
    pose proof (bridge_state_settle_task evs task t o w Ht) as Hb.
    destruct o; injection Hb as _ _ ->; [|done].
    destruct (decide (task_user t = u)) as [->|Hne].
    + rewrite lookup_insert_eq. by eexists.
    + by rewrite lookup_insert_ne.
  - by rewrite (frame_webcast CurrentLiveMap live_wire live_emitted).
  - rewrite live_disconnectLive, lookup_delete_ne; [done|]. congruence.
Qed.

(** X12.  Nothing in the server takes an entry out of [CurrentLiveMap]
    but a call of [disconnectLive] for its username, and
    [src/index.ts] makes none: along every event trace without such a
    call, a username that is stored stays stored, and every later
    [live:tiktok] request for it opens no connection and waits for
    none. *)
Theorem stored_username_stays_stored (evs : list string) (tr1 tr2 : list Event)
  (u : string) :
  Forall (fun e => e <> EDisconnectLive u) tr2 ->
  is_Some (getLive u (run evs tr1)) ->
  let w := run evs (tr1 ++ tr2) in
  is_Some (getLive u w)
  /\ (forall id rest,
        let w' := world_of (run_handler OnLiveTiktok id (JStr u :: rest) w) in
        conns w' = conns w /\ pending w' = pending w
        /\ CurrentLiveMap w' = CurrentLiveMap w).
Proof.
  intros Htr Hu w.
  assert (is_Some (getLive u w)) as Hw.
  { subst w. induction tr2 as [|e tr2 IH] using rev_ind; [by rewrite app_nil_r|].
    apply Forall_app in Htr as [Htr He]. rewrite Forall_singleton in He.
    rewrite app_assoc, run_snoc. apply stored_step; [done | by apply IH]. }
  split; [done|]. intros id rest w'. destruct Hw as [c Hc].
  subst w'. by rewrite (run_handler_live_stored id u c rest w Hc).
Qed.

(** X13.  [disconnectLive] for a username that is not stored does
    nothing; after a call the username is not stored, so that a second
    call for it changes nothing more; and a call leaves the entries of
    the other usernames as they are.  This holds in every world. *)
Theorem disconnectLive_idempotent (evs : list string) (u : string) (w : World) :
  (getLive u w = None -> disconnectLive evs u w = w)
  /\ getLive u (disconnectLive evs u w) = None
  /\ disconnectLive evs u (disconnectLive evs u w) = disconnectLive evs u w
  /\ (forall u', u' <> u -> getLive u' (disconnectLive evs u w) = getLive u' w).
Proof.
  assert (getLive u (disconnectLive evs u w) = None) as Hnone.
  { unfold getLive. rewrite live_disconnectLive. apply lookup_delete_eq. }
  split; [|split; [|split]].
  - intros Hc. unfold disconnectLive. by rewrite Hc.
  - exact Hnone.
  - unfold disconnectLive at 1. by rewrite Hnone.
  - intros u' Hne. unfold getLive. rewrite live_disconnectLive.
    by apply lookup_delete_ne.
Qed.

(** ** What [disconnectLive] tells the subscribers *)



(** ** The connections are never closed by the server *)

Lemma never_closed_run_handler h id args w :
  never_closed (conns w) -> never_closed (conns (world_of (run_handler h id args w))).
Proof.
  intros Hw. destruct h; simpl.
  - by rewrite (frame_to_emit conns), (frame_socket_emit conns) by done.
  - destruct (arg 0 args); try done. simpl.
    by rewrite (frame_to_emit conns), (frame_socket_emit conns) by done.
  - destruct (nullish (arg 0 args)); [done|].
    repeat case_match; simpl; by rewrite (frame_socket_emit conns) by done.
  - destruct (arg 0 args); try done.
    unfold createLiveIfNotExist_begin.
    change (CurrentLiveMap (log ?l w)) with (CurrentLiveMap w).
    destruct (CurrentLiveMap w !! s); cbn [world_of]; [done|].
    simpl. apply Forall_app. split; [done|]. by apply Forall_singleton.
  - done.
Qed.

Lemma never_closed_alter (F : Connection -> Connection) c cs :
  (forall conn, conn_status (F conn) <> Disconnected) ->
  never_closed cs -> never_closed (alter F c cs).
Proof.
  intros HF Hcs. apply Forall_forall. intros conn Hin.
  apply list_elem_of_lookup in Hin as [i Hi].
  destruct (decide (c = i)) as [->|Hne].
  - rewrite list_lookup_alter_eq in Hi.
    destruct (cs !! i); [|done]. injection Hi as <-. apply HF.
  - rewrite list_lookup_alter_ne in Hi by done.
    apply (proj1 (Forall_forall _ _) Hcs). by eapply list_elem_of_lookup_2.
Qed.

Lemma never_closed_step evs w e :
  (forall u, e <> EDisconnectLive u) ->
  never_closed (conns w) -> never_closed (conns (step evs w e)).
Proof.
  intros He Hw. destruct e; cbn [step].
  - done.
  - unfold handleMessage. destruct (clients w !! id); [|done].
    destruct (decode raw); [|done].
    apply (run_handlers_invariant (fun w => never_closed (conns w))); [|done].
    intros. by apply never_closed_run_handler.
  - rewrite world_of_handleClose. destruct (clients w !! id); [|done].
    change (never_closed
              (conns (world_of (run_handlers (handlers_for id "disconnect" w) id [] w)))).
    apply (run_handlers_invariant (fun w => never_closed (conns w))); [|done].
    intros. by apply never_closed_run_handler.
  - unfold broadcastAll. by rewrite (frame_broadcast conns) by done.
  - destruct (pending w !! task) as [t|] eqn:Ht;
      [|unfold settle_task; by rewrite Ht].
    pose proof (bridge_state_settle_task evs task t o w Ht) as Hb.
    destruct o; injection Hb as -> _ _; by apply never_closed_alter.
  - by rewrite (frame_webcast conns) by done.
  - by destruct (He tiktokUsername).
Qed.

(** X17.  The server never closes a connection to a live:
    [connection.disconnect()] is called by [disconnectLive] alone, which
    [src/index.ts] never calls.  Along every event trace without such a
    call no connection is disconnected, whatever the sockets do: not
    when the last subscriber of a username has closed, and not when a
    later request for the username has replaced the stored connection. *)
Theorem server_never_disconnects (evs : list string) (tr : list Event) :
  Forall (fun e => forall u, e <> EDisconnectLive u) tr ->
  Forall (fun conn => conn_status conn <> Disconnected) (conns (run evs tr)).
Proof.
  induction tr as [|e tr IH] using rev_ind; intros Htr; [by apply Forall_nil_2|].
  apply Forall_app in Htr as [Htr He]. rewrite Forall_singleton in He.
  rewrite run_snoc. apply never_closed_step; [done | by apply IH].
Qed.

(** ** The connection hook *)

(** X18.  When a transport opens, in every world an event trace leads
    to: the socket gets an identifier that no socket had before; the hook
    writes one line to the console, makes the socket a member of
    [general] and of no other room, and registers the five handlers.
    The members of the other rooms are as before, and no frame is
    written: the new socket gets no greeting and the sockets in
    [general] no notice. *)
Theorem connection_hook_effects (evs : list string) (tr : list Event) :
  let w := run evs tr in
  let id := (handleOpen w).1 in
  let w' := (handleOpen w).2 in
  clients w !! id = None
  /\ (forall tr1 tr2, tr = tr1 ++ tr2 -> clients (run evs tr1) !! id = None)
  /\ clients w'
     = <[id := {| sock_id := id; sock_rooms := {["general"]};
                  sock_handlers :=
                    list_to_map
                      [("message", [OnMessage]); ("join-room", [OnJoinRoom]);
                       ("private-message", [OnPrivateMessage]);
                       ("live:tiktok", [OnLiveTiktok]);
                       ("disconnect", [OnDisconnect])] |}]> (clients w)
  /\ (forall r, members_of r w'
                = if decide (r = "general") then {[id]} ∪ members_of "general" w
                  else members_of r w)
  /\ console w' = console w ++ [[JStr ("Client connected: " +:+ id)]]
  /\ wire w' = wire w
  /\ listeners w' = listeners w
  /\ CurrentLiveMap w' = CurrentLiveMap w.
Proof.
  intros w id w'.
  assert (id = fresh_id (next_id w)) as Hid by reflexivity.
  assert (forall tr1 tr2, tr = tr1 ++ tr2 -> clients (run evs tr1) !! id = None)
    as Hfresh.
  { intros tr1 tr2 ->. apply not_elem_of_dom. intros Hin.
    destruct (inv_issued _ (hub_inv_run evs tr1) id Hin) as (k & Hk & Hk').
    rewrite Hid in Hk'. unfold fresh_id in Hk'. apply (inj pretty) in Hk'.
    pose proof (next_id_run_app evs tr1 tr2). subst w. lia. }
  split; [apply (Hfresh tr []); by rewrite app_nil_r|].
  split; [exact Hfresh|].
  split; [|split; [|done]].
  - subst w'. rewrite clients_handleOpen, <- Hid.
    rewrite union_empty_r_L. do 2 f_equal.
  - intros r. subst w'. by rewrite members_of_handleOpen, <- Hid.
Qed.

(** ** The further properties at concrete inputs *)


Lemma repeated_requests_duplicate_frames_witness :
  let w := run [] one_live in
  let payload := event_payload "u" "chat" JNull in
  let w' := world_of (run_handler OnLiveTiktok "0" (JStr "u" :: []) w) in
  wire w' = wire w
  /\ frames_to "0" (written w' (emitter_emit "tiktok:event" payload w'))
     = frames_to "0" (written w (emitter_emit "tiktok:event" payload w))
       ++ [encode "tiktok:event" [payload]]
  /\ (forall id', id' <> "0" ->
        frames_to id' (written w' (emitter_emit "tiktok:event" payload w'))
        = frames_to id' (written w (emitter_emit "tiktok:event" payload w))).
Proof.
  intros w payload.
  exact (repeated_requests_duplicate_frames w "0" "u" 0 [] "tiktok:event" payload
           ltac:(vm_compute; reflexivity)
           ltac:(eexists; vm_compute; reflexivity)
           ltac:(right; left)
           ltac:(reflexivity)).
Defined.

Lemma createLive_success_witness :
  let evs := ["chat"; "gift"] in
  let u := "u" in
  let state := [("roomId", JStr "7")] in
  let w := init in
  let roomId := get_prop (JObj state) "roomId" in
  let c := length (conns w) in
  exists w',
    createLiveIfNotExist evs u (Resolved state) w = Ok tt w'
    /\ getLive u w' = Some c
    /\ CurrentLiveMap w' = <[u := c]> (CurrentLiveMap w)
    /\ conns w'
       = conns w ++ [ {| conn_user := u; conn_status := Connected;
                         conn_roomId := roomId;
                         conn_on := registered u evs (next_closure w) |} ]
    /\ NoDup (clo_id <$> (snd <$> registered u evs (next_closure w)))
    /\ emitted w'
       = emitted w ++ [("tiktok:connected",
                        JObj [("tiktokUsername", JStr u); ("roomId", roomId);
                              ("state", JObj state)])]
    /\ console w'
       = console w ++ [[JStr ("Connected to roomId " +:+ js_string roomId)]].
Proof.
  intros evs u state w.
  exact (createLive_success evs u state w eq_refl).
Defined.

Lemma stored_connection_is_connected_witness :
  exists conn base,
    conns (run ["chat"] one_live) !! 0 = Some conn
    /\ conn_user conn = "u"
    /\ conn_status conn = Connected
    /\ conn_on conn = registered "u" ["chat"] base.
Proof.
  exact (stored_connection_is_connected ["chat"] one_live "u" 0
           ltac:(vm_compute; reflexivity)).
Defined.

Lemma stored_live_events_reach_subscribers_witness :
  let evs := ["chat"] in
  let u := "u" in
  let ev := "chat" in
  let data := JStr "hello" in
  let w := run evs one_live in
  let w' := webcast 0 ev data w in
  let payload := event_payload u ev data in
  emitted w' = emitted w ++ [("tiktok:event", payload)]
  /\ wire w' = wire w ++ written w w'
  /\ (forall id f,
        (id, f) ∈ written w w'
        <-> f = encode "tiktok:event" [payload]
            /\ is_Some (clients w !! id)
            /\ ("tiktok:event",
                {| lis_emit := "tiktok:event"; lis_user := u; lis_socket := id |})
               ∈ listeners w)
  /\ (forall id,
        is_Some (clients w !! id) ->
        length (frames_to id (written w w'))
        = length (filter (fun el => el = ("tiktok:event",
                                          {| lis_emit := "tiktok:event";
                                             lis_user := u; lis_socket := id |}))
                    (listeners w))).
Proof.
  intros evs u ev data.
  exact (stored_live_events_reach_subscribers evs one_live u 0 ev data
           ltac:(vm_compute; reflexivity) ltac:(vm_compute; reflexivity)).
Defined.


Lemma joined_rooms_are_kept_witness :
  let tr1 := [EOpen; EMessage "0" (client_frame "join-room" [JStr "a"])] in
  let tr2 := [EMessage "0" (client_frame "join-room" [JStr "b"])] in
  "0" ∈ members_of "a" (run [] (tr1 ++ tr2)).
Proof.
  intros tr1 tr2.
  exact (joined_rooms_are_kept [] tr1 tr2 "0" "a"
           ltac:(discriminate)
           ltac:(apply (bool_decide_unpack _); vm_compute; exact I)
           ltac:(eexists; vm_compute; reflexivity)).
Defined.

Lemma stored_username_stays_stored_witness :
  let evs := [] in
  let u := "u" in
  let tr2 := [EClose "0"; EOpen] in
  let w := run evs (one_live ++ tr2) in
  is_Some (getLive u w)
  /\ (forall id rest,
        let w' := world_of (run_handler OnLiveTiktok id (JStr u :: rest) w) in
        conns w' = conns w /\ pending w' = pending w
        /\ CurrentLiveMap w' = CurrentLiveMap w).
Proof.
  intros evs u tr2.
  exact (stored_username_stays_stored evs one_live tr2 u
           ltac:(repeat constructor; discriminate)
           ltac:(eexists; vm_compute; reflexivity)).
Defined.


Lemma server_never_disconnects_witness :
  Forall (fun conn => conn_status conn <> Disconnected)
    (conns (run [] (one_live ++ [EClose "0"]))).
Proof.
  exact (server_never_disconnects [] (one_live ++ [EClose "0"])
           ltac:(repeat constructor; discriminate)).
Defined.


(** ** The test client *)

Module TestClientFacts.
Import TestClient.

Lemma remove_first_sublist {A} (f : A -> bool) (l : list A) :
  remove_first f l `sublist_of` l.
Proof.
  induction l as [|x l IH]; simpl; [done|].
  destruct (f x); [by apply sublist_cons | by apply sublist_skip].
Qed.

Lemma remove_first_middle (p : nat) (pre rest : list nat) :
  p ∉ pre -> remove_first (Nat.eqb p) (pre ++ p :: rest) = pre ++ rest.
Proof.
  induction pre as [|x pre IH]; intros Hp; simpl.
  - by rewrite Nat.eqb_refl.
  - apply not_elem_of_cons in Hp as [Hne Hp].
    destruct (Nat.eqb_spec p x) as [->|_]; [done|]. by rewrite IH.
Qed.

Lemma handler_eq p w l args c :
  waits c !! p = Some w -> listeners c !! wait_event w = Some l ->
  handler p args c
  = with_listeners (insert (wait_event w) (remove_first (Nat.eqb p) l))
      (with_waits (alter (served args) p) c).
Proof.
  intros Hw Hl. unfold handler. rewrite Hw. cbn [listeners with_waits]. rewrite Hl.
  destruct c. unfold with_listeners, with_waits. simpl. f_equal.
  by rewrite list_alter_alter_eq.
Qed.

Lemma event_alter (f : Wait -> Wait) (p q : nat) (e : string) (ws : list Wait) :
  (forall w, wait_event (f w) = wait_event w) ->
  (exists w, ws !! q = Some w /\ wait_event w = e) ->
  exists w, alter f p ws !! q = Some w /\ wait_event w = e.
Proof.
  intros Hf (w & Hw & He). destruct (decide (p = q)) as [->|Hne].
  - exists (f w). rewrite list_lookup_alter_eq, Hw. by rewrite Hf.
  - exists w. by rewrite list_lookup_alter_ne.
Qed.

Lemma client_inv_same c c' :
  listeners c' = listeners c -> waits c' = waits c -> client_inv c -> client_inv c'.
Proof. unfold client_inv. by intros -> ->. Qed.

Lemma client_inv_alter (f : Wait -> Wait) p c :
  (forall w, wait_event (f w) = wait_event w) ->
  client_inv c -> client_inv (with_waits (alter f p) c).
Proof.
  intros Hf Hc ev l Hl. destruct (Hc ev l Hl) as [Hnd Hel]. split; [done|].
  intros q Hq. apply event_alter; [done | by apply Hel].
Qed.

Lemma client_inv_handler p args c : client_inv c -> client_inv (handler p args c).
Proof.
  intros Hc. unfold handler. destruct (waits c !! p) as [w|] eqn:Hw; [|done].
  apply client_inv_alter; [done|].
  assert (client_inv (with_waits (alter (wait_with_timer false) p) c)) as Hc1
    by by apply client_inv_alter.
  set (c1 := with_waits _ c) in *.
  destruct (listeners c1 !! wait_event w) as [l|] eqn:Hl; [|done].
  intros ev l' Hl'. cbn [listeners with_listeners] in Hl'.
  destruct (decide (ev = wait_event w)) as [->|Hne].
  - rewrite lookup_insert_eq in Hl'. injection Hl' as <-.
    destruct (Hc1 _ l Hl) as [Hnd Hel]. split.
    + eapply sublist_NoDup; [exact Hnd | apply remove_first_sublist].
    + intros q Hq. apply Hel.
      eapply elem_of_sublist; [exact Hq | apply remove_first_sublist].
  - rewrite lookup_insert_ne in Hl' by done. by apply Hc1.
Qed.

Lemma client_inv_forEach_from n k ev args c :
  client_inv c -> client_inv (forEach_from n k ev args c).
Proof.
  revert k c. induction n as [|n IH]; intros k c Hc; [done|].
  simpl. apply IH. destruct (default [] (listeners c !! ev) !! k); [|done].
  by apply client_inv_handler.
Qed.

Lemma client_inv_waitForMessage ev c :
  client_inv c -> client_inv (waitForMessage ev c).2.
Proof.
  intros Hc ev' l Hl. cbn [waitForMessage snd on listeners waits with_listeners
                            with_waits] in *.
  assert (forall e l0 q, listeners c !! e = Some l0 -> q ∈ l0 ->
            exists w, (waits c ++ [ {| wait_event := ev; wait_promise := Pending;
                                       wait_timer := true |} ]) !! q = Some w
                      /\ wait_event w = e) as Hold.
  { intros e l0 q Hl0 Hq. destruct (Hc e l0 Hl0) as [_ Hel].
    destruct (Hel q Hq) as (w & Hw & He). exists w.
    split; [by apply lookup_app_l_Some | done]. }
  destruct (decide (ev' = ev)) as [->|Hne].
  - rewrite lookup_insert_eq in Hl. injection Hl as <-.
    destruct (listeners c !! ev) as [l0|] eqn:Hl0; simpl.
    + destruct (Hc ev l0 Hl0) as [Hnd Hel]. split.
      * apply NoDup_app. split; [done|]. split; [|apply NoDup_singleton].
        intros q Hq Hin. apply list_elem_of_singleton in Hin. subst q.
        destruct (Hel _ Hq) as (w & Hw & _). apply lookup_lt_Some in Hw. lia.
      * intros q Hq. apply elem_of_app in Hq as [Hq|Hq]; [by eapply Hold|].
        apply list_elem_of_singleton in Hq. subst q.
        eexists. split; [by apply list_lookup_middle | done].
    + split; [apply NoDup_singleton|].
      intros q Hq. apply list_elem_of_singleton in Hq. subst q.
      eexists. split; [by apply list_lookup_middle | done].
  - rewrite lookup_insert_ne in Hl by done.
    destruct (Hc ev' l Hl) as [Hnd _]. split; [done|].
    intros q Hq. by eapply Hold.
Qed.

Lemma client_inv_forEach ev args c : client_inv c -> client_inv (forEach ev args c).
Proof. apply client_inv_forEach_from. Qed.

Lemma client_inv_onmessage raw c : client_inv c -> client_inv (onmessage raw c).
Proof.
  intros Hc. unfold onmessage, onmessage_catch.
  destruct (parse raw) as [data|]; [|done].
  destruct (nullish data); [done|].
  destruct (get_prop data "event"); try done.
  set (c1 := with_messageQueue _ _).
  assert (client_inv c1) as Hc1 by done.
  destruct (listeners c1 !! s) as [[|x l]|]; try done.
  destruct (spread (get_prop data "data")); [|done].
  by apply client_inv_forEach.
Qed.

Lemma client_inv_step c o : client_inv c -> client_inv (step c o).
Proof.
  intros Hc. destruct o; cbn [step]; try done.
  - by apply client_inv_onmessage.
  - unfold onclose. set (c1 := log _ _). assert (client_inv c1) as Hc1 by done.
    destruct (listeners c1 !! "disconnect"); [|done]. by apply client_inv_forEach.
  - unfold emit. by destruct (connected c && ws c).
  - by apply client_inv_waitForMessage.
  - unfold timeout. destruct (waits c !! p) as [w|]; [|done].
    destruct (wait_timer w); [|done]. by apply client_inv_alter.
Qed.

Lemma client_inv_run ops : client_inv (run ops).
Proof.
  induction ops as [|o ops IH] using rev_ind; [by intros ev l Hl|].
  unfold run. rewrite foldl_app. by apply client_inv_step.
Qed.

(** *** One [forEach] over handlers that take themselves out *)

Lemma forEach_from_beyond n k ev args c :
  length (default [] (listeners c !! ev)) <= k -> forEach_from n k ev args c = c.
Proof.
  revert k c. induction n as [|n IH]; intros k c Hk; [done|].
  simpl. rewrite lookup_ge_None_2 by done. apply IH. lia.
Qed.

Lemma forEach_from_alternate ev args m :
  forall pre rest c,
    listeners c !! ev = Some (pre ++ rest) ->
    NoDup (pre ++ rest) ->
    (forall p, p ∈ rest -> exists w, waits c !! p = Some w /\ wait_event w = ev) ->
    length rest <= m ->
    forEach_from m (length pre) ev args c
    = with_listeners (insert ev (pre ++ alternate false rest))
        (with_waits (serve_all args (alternate true rest)) c).
Proof.
  induction m as [|m IH]; intros pre rest c Hl Hnd Hw Hm.
  - destruct rest; [|simpl in Hm; lia]. simpl.
    destruct c. unfold with_listeners, with_waits. simpl in *.
    by rewrite insert_id.
  - destruct rest as [|h [|h' rest]].
    + rewrite forEach_from_beyond by (rewrite Hl; simpl; by rewrite app_nil_r).
      simpl. destruct c. unfold with_listeners, with_waits. simpl in *.
      by rewrite insert_id.
    + cbn [forEach_from]. rewrite Hl. cbn [from_option id].
      rewrite list_lookup_middle by done.
      destruct (Hw h) as (w & Hwh & He); [by left|]. subst ev.
      rewrite (handler_eq h w _ args c Hwh Hl).
      rewrite remove_first_middle
        by (apply NoDup_app in Hnd as (_ & Hd & _); intros Hin;
            apply (Hd h Hin); by left).
      rewrite forEach_from_beyond; [done|].
      cbn [listeners with_listeners]. rewrite lookup_insert_eq. simpl.
      rewrite length_app. simpl. lia.
    + cbn [forEach_from]. rewrite Hl. cbn [from_option id].
      rewrite list_lookup_middle by done.
      destruct (Hw h) as (w & Hwh & He); [by left|]. subst ev.
      rewrite (handler_eq h w _ args c Hwh Hl).
      rewrite remove_first_middle
        by (apply NoDup_app in Hnd as (_ & Hd & _); intros Hin;
            apply (Hd h Hin); by left).
      set (c1 := with_listeners _ _).
      assert (S (length pre) = length (pre ++ [h'])) as ->
        by (rewrite length_app; simpl; lia).
      rewrite (IH (pre ++ [h']) rest c1).
      * subst c1. destruct c. unfold with_listeners, with_waits. simpl.
        rewrite insert_insert_eq. by rewrite <- app_assoc.
      * subst c1. cbn [listeners with_listeners]. rewrite lookup_insert_eq.
        by rewrite <- app_assoc.
      * rewrite <- app_assoc. simpl.
        apply NoDup_app in Hnd as (Hpre & Hd & Hrest).
        apply NoDup_app. split; [done|]. split.
        -- intros x Hx Hin. apply (Hd x Hx). by right.
        -- by apply NoDup_cons in Hrest as [_ ?].
      * intros p Hp. subst c1. cbn [waits with_listeners with_waits].
        apply event_alter; [done|]. apply Hw. by do 2 right.
      * simpl in Hm. lia.
Qed.

Lemma forEach_alternate ev args l c :
  client_inv c -> listeners c !! ev = Some l ->
  forEach ev args c
  = with_listeners (insert ev (alternate false l))
      (with_waits (serve_all args (alternate true l)) c).
Proof.
  intros Hc Hl. unfold forEach. rewrite Hl. cbn [from_option id].
  destruct (Hc ev l Hl) as [Hnd Hel].
  by apply (forEach_from_alternate ev args (length l) [] l c).
Qed.

Lemma alternate_sublist b l : alternate b l `sublist_of` l.
Proof.
  revert b. induction l as [|x l IH]; intros b; [done|].
  destruct b; simpl; [by apply sublist_skip | by apply sublist_cons].
Qed.

Lemma alternate_disjoint l p :
  NoDup l -> p ∈ alternate true l -> p ∈ alternate false l -> False.
Proof.
  intros Hnd. assert (forall b, p ∈ alternate b l -> p ∈ alternate (negb b) l -> False)
    as H; [|apply (H true)].
  induction Hnd as [|x l Hx Hnd IH]; intros b H1 H2; [by apply elem_of_nil in H1|].
  destruct b; simpl in *.
  - apply elem_of_cons in H1 as [->|H1].
    + apply Hx. eapply elem_of_sublist; [exact H2 | apply alternate_sublist].
    + apply (IH false); done.
  - apply elem_of_cons in H2 as [->|H2].
    + apply Hx. eapply elem_of_sublist; [exact H1 | apply alternate_sublist].
    + apply (IH true); done.
Qed.

Lemma lookup_serve_all args ps ws q :
  NoDup ps ->
  serve_all args ps ws !! q
  = if decide (q ∈ ps) then served args <$> ws !! q else ws !! q.
Proof.
  unfold serve_all. intros Hnd. revert ws.
  induction Hnd as [|p ps Hp Hnd IH]; intros ws; simpl.
  - destruct (decide (q ∈ [])) as [Hin|_]; [by apply elem_of_nil in Hin | done].
  - rewrite IH. destruct (decide (q = p)) as [->|Hne].
    + destruct (decide (p ∈ ps)); [done|].
      destruct (decide (p ∈ p :: ps)) as [_|Hn]; [|exfalso; apply Hn; by left].
      by rewrite list_lookup_alter_eq.
    + rewrite list_lookup_alter_ne by done.
      destruct (decide (q ∈ ps)) as [Hin|Hin];
        destruct (decide (q ∈ p :: ps)) as [Hin'|Hin']; try done.
      * exfalso. apply Hin'. by right.
      * exfalso. apply elem_of_cons in Hin' as [?|?]; done.
Qed.

(** X14.  A frame for an event with the arguments [args], arriving at a
    test client with the handlers [l] of pending [waitForMessage] calls
    under that event: as each handler takes itself out of the array that
    [forEach] is walking, only every second handler is called, from the
    first on.  The calls at the even places are served (promise resolved
    with [args] if it was pending, timeout cleared), the ones at the odd
    places are passed over and stay in the list, untouched; so the
    second of two waits for the same event does not see the frame, even
    when the first one had already timed out.  This holds in every state
    a test client can reach. *)
Theorem message_serves_every_second_waiter (ops : list Op) (raw ev : string)
  (msg : jsval) (args : list jsval) (l : list nat) :
  parse raw = Some msg ->
  get_prop msg "event" = JStr ev ->
  spread (get_prop msg "data") = Some args ->
  listeners (run ops) !! ev = Some l ->
  let c := run ops in
  let c' := onmessage raw c in
  listeners c' = <[ev := alternate false l]> (listeners c)
  /\ (forall p, p ∈ alternate true l ->
        waits c' !! p = served args <$> waits c !! p)
  /\ (forall p, p ∉ alternate true l -> waits c' !! p = waits c !! p)
  /\ (forall p, p ∈ alternate false l -> p ∉ alternate true l)
  /\ messageQueue c' = messageQueue c ++ [msg].
Proof.
  intros Hparse Hev Hargs Hl c c'.
  pose proof (client_inv_run ops) as Hc. fold c in Hc, Hl.
  destruct (Hc ev l Hl) as [Hnd _].
  assert (c' = with_listeners (insert ev (alternate false l))
                 (with_waits (serve_all args (alternate true l))
                    (with_messageQueue (fun q => q ++ [msg])
                       (log [JStr "Test client received:"; msg] c)))) as ->.
  { subst c'. unfold onmessage. rewrite Hparse.
    assert (nullish msg = false) as -> by (by destruct msg).
    rewrite Hev. cbn [listeners with_messageQueue log]. rewrite Hl, Hargs.
    set (c1 := with_messageQueue _ _).
    destruct l as [|x l'].
    - simpl. subst c1. destruct c. unfold with_listeners, with_waits. simpl in *.
      by rewrite insert_id.
    - by apply forEach_alternate. }
  cbn [listeners waits messageQueue with_listeners with_waits with_messageQueue log].
  assert (NoDup (alternate true l)) as Hnd'
    by (eapply sublist_NoDup; [exact Hnd | apply alternate_sublist]).
  split; [done|]. split; [|split; [|split; [|done]]].
  - intros p Hp. rewrite lookup_serve_all by done. by rewrite decide_True.
  - intros p Hp. rewrite lookup_serve_all by done. by rewrite decide_False.
  - intros p Hp Hp'. by apply (alternate_disjoint l p).
Qed.

(** *** The message queue *)






(** *** At concrete inputs *)

Lemma message_serves_every_second_waiter_witness :
  let ops := [Connect; Open; WaitForMessage "echo"; WaitForMessage "echo"] in
  let ev := "echo" in
  let args := [JStr "Rapid message 1"] in
  let msg := JObj [("event", JStr ev); ("data", JArr args)] in
  let raw := stringify msg in
  let l := [0; 1] in
  let c := run ops in
  let c' := onmessage raw c in
  listeners c' = <[ev := alternate false l]> (listeners c)
  /\ (forall p, p ∈ alternate true l ->
        waits c' !! p = served args <$> waits c !! p)
  /\ (forall p, p ∉ alternate true l -> waits c' !! p = waits c !! p)
  /\ (forall p, p ∈ alternate false l -> p ∉ alternate true l)
  /\ messageQueue c' = messageQueue c ++ [msg].
Proof.
  intros ops ev args msg raw l.
  exact (message_serves_every_second_waiter ops raw ev msg args l
           ltac:(vm_compute; reflexivity) ltac:(reflexivity) ltac:(reflexivity)
           ltac:(vm_compute; reflexivity)).
Defined.


End TestClientFacts.
